(** * NXTG-Forge agent orchestrator: a shallow embedding and its properties

    The development follows [src/forge/agents/orchestrator.py].

    - Python [str] values are Rocq [string]s (sequences of 8-bit characters);
      [str.lower] is modelled on the ASCII letters, which is what the routing
      keywords are made of.
    - [Task] objects are mutable and shared between the caller, the
      [active_tasks] dictionary and the [subtasks] lists, so they live in an
      object store ([heap]) and are passed around by reference.
    - [datetime.utcnow] and [uuid.uuid4] are oracles of the environment: the
      orchestrator state carries the stream of values they return and a
      counter of the reads made so far.  A timestamp is kept as the clock
      reading its ISO string denotes.
    - The module-level [logger] is a list of records, appended to in order;
      the interaction log file is a field of the state, and writing it
      succeeds.  The configuration is given by the values read from it.
    - A handler (an [agent_callbacks] entry) is an opaque coroutine function;
      it is modelled by what it does with the task it is given: it returns a
      result dictionary or raises an [Exception] with a message.  It does not
      touch the orchestrator.
    - [asyncio] is cooperative: a coroutine runs until it reaches an [await]
      that suspends.  [execute_parallel] is modelled by the steps its
      coroutines take between suspension points, under every schedule of the
      event loop.
    - The state carries one ghost field, [history], that records the
      assignments to [task.status] in the order they are made. *)

From Stdlib Require Import ZArith String Ascii DecimalString List Bool Lia.
From Stdlib Require Sorted.
From stdpp Require Import base option list functions gmap sets strings.

Open Scope string_scope.

(* ===================================================================== *)
(** ** Python strings *)

Module Str.

(** [c.lower()] for one character: the ASCII capitals are moved to the
    small letters, everything else is kept. *)
Definition lower_ascii (c : ascii) : ascii :=
  let n := nat_of_ascii c in
  if (65 <=? n)%nat && (n <=? 90)%nat then ascii_of_nat (n + 32) else c.

(** [s.lower()] *)
Fixpoint lower (s : string) : string :=
  match s with
  | EmptyString => EmptyString
  | String c s' => String (lower_ascii c) (lower s')
  end.

(** [s.startswith(p)] *)
Fixpoint startswith (p s : string) : bool :=
  match p, s with
  | EmptyString, _ => true
  | String _ _, EmptyString => false
  | String a p', String b s' => if ascii_dec a b then startswith p' s' else false
  end.

(** [kw in s]: [kw] occurs in [s] as a contiguous substring. *)
Fixpoint contains (kw s : string) : bool :=
  startswith kw s ||
  match s with
  | EmptyString => false
  | String _ s' => contains kw s'
  end.

(** [any(keyword in s for keyword in kws)] *)
Definition any_in (kws : list string) (s : string) : bool :=
  existsb (fun keyword => contains keyword s) kws.

(** [x in xs] for a list of strings *)
Definition mem (x : string) (xs : list string) : bool :=
  existsb (String.eqb x) xs.

End Str.

(* ===================================================================== *)
(** ** Enumerations *)

Inductive AgentType :=
| LEAD_ARCHITECT
| BACKEND_MASTER
| CLI_ARTISAN
| PLATFORM_BUILDER
| INTEGRATION_SPECIALIST
| QA_SENTINEL.

#[global] Instance AgentType_eq_dec : EqDecision AgentType.
Proof. solve_decision. Defined.

(** [AgentType.X.value] *)
Definition agent_value (a : AgentType) : string :=
  match a with
  | LEAD_ARCHITECT => "lead-architect"
  | BACKEND_MASTER => "backend-master"
  | CLI_ARTISAN => "cli-artisan"
  | PLATFORM_BUILDER => "platform-builder"
  | INTEGRATION_SPECIALIST => "integration-specialist"
  | QA_SENTINEL => "qa-sentinel"
  end.

Inductive MessageType := HANDOFF | QUERY | RESULT | STATUS | ERROR.

#[global] Instance MessageType_eq_dec : EqDecision MessageType.
Proof. solve_decision. Defined.

(* ===================================================================== *)
(** ** Python values held in the [dict[str, Any]] fields *)

Inductive PyVal :=
| PyNone
| PyBool (b : bool)
| PyInt (z : Z)
| PyStr (s : string)
| PyObj (truthy : bool) (text : string).
  (* any other object, with its truth value and what [str] gives for it *)

#[global] Instance PyVal_eq_dec : EqDecision PyVal.
Proof. solve_decision. Defined.

(** [bool(v)] *)
Definition truthy_val (v : PyVal) : bool :=
  match v with
  | PyNone => false
  | PyBool b => b
  | PyInt z => negb (z =? 0)%Z
  | PyStr s => negb (String.eqb s "")
  | PyObj b _ => b
  end.

(** [str(v)], as an f-string renders it *)
Definition str_val (v : PyVal) : string :=
  match v with
  | PyNone => "None"
  | PyBool true => "True"
  | PyBool false => "False"
  | PyInt z => NilZero.string_of_int (Z.to_int z)
  | PyStr s => s
  | PyObj _ s => s
  end.

(** [isinstance(v, str)] *)
Definition is_str (v : PyVal) : bool :=
  match v with PyStr _ => true | _ => false end.

Abbreviation dict := (gmap string PyVal).

(** A coroutine or function either returns a value or raises an
    [Exception]; [str(e)] is the message it carries. *)
Inductive outcome (A : Type) :=
| Return (a : A)
| Raise (e : string).
Arguments Return {A} a.
Arguments Raise {A} e.

(* ===================================================================== *)
(** ** Data model *)

(** A reference to a [Task] object. *)
Abbreviation ref := nat.

(** [AgentMessage].  The two generated fields hold the clock reading the
    ISO string denotes and the eight hexadecimal digits of the UUID. *)
Record AgentMessage := {
  from_agent : AgentType;
  to_agent : AgentType;
  message_type : MessageType;
  content : dict;
  timestamp : Z;
  message_id : string;
}.

(** [Task].  [started_at] and [completed_at] hold the clock reading (in
    microseconds) that the ISO string written by the orchestrator denotes;
    [subtasks] holds references to the child objects. *)
Record Task := {
  id : string;
  description : string;
  type : string;
  priority : string;
  assigned_agent : option AgentType;
  status : string;
  metadata : dict;
  subtasks : list ref;
  dependencies : list string;
  messages : list AgentMessage;
  started_at : option Z;
  completed_at : option Z;
  result : option dict;
}.

(** [Task(id=..., description=..., type=..., priority=...)] with the
    dataclass defaults for the other fields. *)
Definition new_task (i d ty p : string) : Task :=
  {| id := i; description := d; type := ty; priority := p;
     assigned_agent := None; status := "pending"; metadata := ∅;
     subtasks := []; dependencies := []; messages := [];
     started_at := None; completed_at := None; result := None |}.

Definition set_assigned_agent (a : option AgentType) (t : Task) : Task :=
  {| id := id t; description := description t; type := type t;
     priority := priority t; assigned_agent := a; status := status t;
     metadata := metadata t; subtasks := subtasks t;
     dependencies := dependencies t; messages := messages t;
     started_at := started_at t; completed_at := completed_at t;
     result := result t |}.

Definition set_status (s : string) (t : Task) : Task :=
  {| id := id t; description := description t; type := type t;
     priority := priority t; assigned_agent := assigned_agent t; status := s;
     metadata := metadata t; subtasks := subtasks t;
     dependencies := dependencies t; messages := messages t;
     started_at := started_at t; completed_at := completed_at t;
     result := result t |}.

Definition set_metadata (m : dict) (t : Task) : Task :=
  {| id := id t; description := description t; type := type t;
     priority := priority t; assigned_agent := assigned_agent t;
     status := status t; metadata := m; subtasks := subtasks t;
     dependencies := dependencies t; messages := messages t;
     started_at := started_at t; completed_at := completed_at t;
     result := result t |}.

Definition set_subtasks (l : list ref) (t : Task) : Task :=
  {| id := id t; description := description t; type := type t;
     priority := priority t; assigned_agent := assigned_agent t;
     status := status t; metadata := metadata t; subtasks := l;
     dependencies := dependencies t; messages := messages t;
     started_at := started_at t; completed_at := completed_at t;
     result := result t |}.

Definition set_dependencies (l : list string) (t : Task) : Task :=
  {| id := id t; description := description t; type := type t;
     priority := priority t; assigned_agent := assigned_agent t;
     status := status t; metadata := metadata t; subtasks := subtasks t;
     dependencies := l; messages := messages t;
     started_at := started_at t; completed_at := completed_at t;
     result := result t |}.

Definition set_messages (l : list AgentMessage) (t : Task) : Task :=
  {| id := id t; description := description t; type := type t;
     priority := priority t; assigned_agent := assigned_agent t;
     status := status t; metadata := metadata t; subtasks := subtasks t;
     dependencies := dependencies t; messages := l;
     started_at := started_at t; completed_at := completed_at t;
     result := result t |}.

Definition set_started_at (s : option Z) (t : Task) : Task :=
  {| id := id t; description := description t; type := type t;
     priority := priority t; assigned_agent := assigned_agent t;
     status := status t; metadata := metadata t; subtasks := subtasks t;
     dependencies := dependencies t; messages := messages t;
     started_at := s; completed_at := completed_at t;
     result := result t |}.

Definition set_completed_at (s : option Z) (t : Task) : Task :=
  {| id := id t; description := description t; type := type t;
     priority := priority t; assigned_agent := assigned_agent t;
     status := status t; metadata := metadata t; subtasks := subtasks t;
     dependencies := dependencies t; messages := messages t;
     started_at := started_at t; completed_at := s;
     result := result t |}.

Definition set_result (r : option dict) (t : Task) : Task :=
  {| id := id t; description := description t; type := type t;
     priority := priority t; assigned_agent := assigned_agent t;
     status := status t; metadata := metadata t; subtasks := subtasks t;
     dependencies := dependencies t; messages := messages t;
     started_at := started_at t; completed_at := completed_at t;
     result := r |}.

(** [Task.can_start]: [all(dep_id in completed_tasks for dep_id in
    self.dependencies)] *)
Definition can_start (t : Task) (completed_tasks : gset string) : bool :=
  forallb (fun dep_id => bool_decide (dep_id ∈ completed_tasks))
          (dependencies t).

(* ===================================================================== *)
(** ** The orchestrator *)

(** What [await callback(task)] yields for the task it is given. *)
Definition Callable := Task -> outcome dict.

Inductive level := LogInfo | LogWarning | LogError.

(** One entry of [interaction_log]; [i_duration] is in clock units. *)
Record Interaction := {
  i_timestamp : Z;
  i_task_id : string;
  i_task_type : string;
  i_description : string;
  i_agent : option string;
  i_status : string;
  i_duration : option Z;
  i_success : bool;
}.

(** One assignment [task.status = s] made by the orchestrator: the object,
    the status it had and the status it gets. *)
Record StatusWrite := {
  sw_task : ref;
  sw_old : string;
  sw_new : string;
}.

(** [AgentOrchestrator].  [next_ref] is the next free object reference,
    [log_file] the content of [.claude/interaction-log.json], [logs] what
    the logger received.  [history] is ghost state: the status assignments
    made so far, oldest first; no operation reads it.  [utcnow k] is what the
    [k]-th call of [datetime.utcnow] returns and [uuid4 k] the first eight
    characters of the [k]-th UUID. *)
Record Orchestrator := {
  heap : ref -> Task;
  next_ref : ref;
  active_tasks : gmap string ref;
  completed_tasks : gset string;
  message_queue : list AgentMessage;
  agent_callbacks : AgentType -> option Callable;
  max_parallel : nat;
  orchestration_enabled : bool;
  learning_enabled : bool;
  interaction_log : list Interaction;
  log_file : list Interaction;
  logs : list (level * string);
  history : list StatusWrite;
  utcnow : nat -> Z;
  ticks : nat;
  uuid4 : nat -> string;
  draws : nat;
}.

Definition with_heap (v : ref -> Task) (o : Orchestrator) : Orchestrator :=
  {| heap := v; next_ref := next_ref o; active_tasks := active_tasks o;
     completed_tasks := completed_tasks o;
     message_queue := message_queue o;
     agent_callbacks := agent_callbacks o; max_parallel := max_parallel o;
     orchestration_enabled := orchestration_enabled o;
     learning_enabled := learning_enabled o;
     interaction_log := interaction_log o; log_file := log_file o;
     logs := logs o; history := history o; utcnow := utcnow o;
     ticks := ticks o; uuid4 := uuid4 o; draws := draws o |}.

Definition with_next_ref (v : ref) (o : Orchestrator) : Orchestrator :=
  {| heap := heap o; next_ref := v; active_tasks := active_tasks o;
     completed_tasks := completed_tasks o;
     message_queue := message_queue o;
     agent_callbacks := agent_callbacks o; max_parallel := max_parallel o;
     orchestration_enabled := orchestration_enabled o;
     learning_enabled := learning_enabled o;
     interaction_log := interaction_log o; log_file := log_file o;
     logs := logs o; history := history o; utcnow := utcnow o;
     ticks := ticks o; uuid4 := uuid4 o; draws := draws o |}.

Definition with_active_tasks (v : gmap string ref) (o : Orchestrator) : Orchestrator :=
  {| heap := heap o; next_ref := next_ref o; active_tasks := v;
     completed_tasks := completed_tasks o;
     message_queue := message_queue o;
     agent_callbacks := agent_callbacks o; max_parallel := max_parallel o;
     orchestration_enabled := orchestration_enabled o;
     learning_enabled := learning_enabled o;
     interaction_log := interaction_log o; log_file := log_file o;
     logs := logs o; history := history o; utcnow := utcnow o;
     ticks := ticks o; uuid4 := uuid4 o; draws := draws o |}.

Definition with_completed_tasks (v : gset string) (o : Orchestrator) : Orchestrator :=
  {| heap := heap o; next_ref := next_ref o;
     active_tasks := active_tasks o; completed_tasks := v;
     message_queue := message_queue o;
     agent_callbacks := agent_callbacks o; max_parallel := max_parallel o;
     orchestration_enabled := orchestration_enabled o;
     learning_enabled := learning_enabled o;
     interaction_log := interaction_log o; log_file := log_file o;
     logs := logs o; history := history o; utcnow := utcnow o;
     ticks := ticks o; uuid4 := uuid4 o; draws := draws o |}.

Definition with_message_queue (v : list AgentMessage) (o : Orchestrator) : Orchestrator :=
  {| heap := heap o; next_ref := next_ref o;
     active_tasks := active_tasks o; completed_tasks := completed_tasks o;
     message_queue := v; agent_callbacks := agent_callbacks o;
     max_parallel := max_parallel o;
     orchestration_enabled := orchestration_enabled o;
     learning_enabled := learning_enabled o;
     interaction_log := interaction_log o; log_file := log_file o;
     logs := logs o; history := history o; utcnow := utcnow o;
     ticks := ticks o; uuid4 := uuid4 o; draws := draws o |}.

Definition with_agent_callbacks (v : AgentType -> option Callable) (o : Orchestrator) : Orchestrator :=
  {| heap := heap o; next_ref := next_ref o;
     active_tasks := active_tasks o; completed_tasks := completed_tasks o;
     message_queue := message_queue o; agent_callbacks := v;
     max_parallel := max_parallel o;
     orchestration_enabled := orchestration_enabled o;
     learning_enabled := learning_enabled o;
     interaction_log := interaction_log o; log_file := log_file o;
     logs := logs o; history := history o; utcnow := utcnow o;
     ticks := ticks o; uuid4 := uuid4 o; draws := draws o |}.

Definition with_interaction_log (v : list Interaction) (o : Orchestrator) : Orchestrator :=
  {| heap := heap o; next_ref := next_ref o;
     active_tasks := active_tasks o; completed_tasks := completed_tasks o;
     message_queue := message_queue o;
     agent_callbacks := agent_callbacks o; max_parallel := max_parallel o;
     orchestration_enabled := orchestration_enabled o;
     learning_enabled := learning_enabled o; interaction_log := v;
     log_file := log_file o; logs := logs o; history := history o;
     utcnow := utcnow o; ticks := ticks o; uuid4 := uuid4 o;
     draws := draws o |}.

Definition with_log_file (v : list Interaction) (o : Orchestrator) : Orchestrator :=
  {| heap := heap o; next_ref := next_ref o;
     active_tasks := active_tasks o; completed_tasks := completed_tasks o;
     message_queue := message_queue o;
     agent_callbacks := agent_callbacks o; max_parallel := max_parallel o;
     orchestration_enabled := orchestration_enabled o;
     learning_enabled := learning_enabled o;
     interaction_log := interaction_log o; log_file := v; logs := logs o;
     history := history o; utcnow := utcnow o; ticks := ticks o;
     uuid4 := uuid4 o; draws := draws o |}.

Definition with_logs (v : list (level * string)) (o : Orchestrator) : Orchestrator :=
  {| heap := heap o; next_ref := next_ref o;
     active_tasks := active_tasks o; completed_tasks := completed_tasks o;
     message_queue := message_queue o;
     agent_callbacks := agent_callbacks o; max_parallel := max_parallel o;
     orchestration_enabled := orchestration_enabled o;
     learning_enabled := learning_enabled o;
     interaction_log := interaction_log o; log_file := log_file o;
     logs := v; history := history o; utcnow := utcnow o; ticks := ticks o;
     uuid4 := uuid4 o; draws := draws o |}.

Definition with_history (v : list StatusWrite) (o : Orchestrator) : Orchestrator :=
  {| heap := heap o; next_ref := next_ref o;
     active_tasks := active_tasks o; completed_tasks := completed_tasks o;
     message_queue := message_queue o;
     agent_callbacks := agent_callbacks o; max_parallel := max_parallel o;
     orchestration_enabled := orchestration_enabled o;
     learning_enabled := learning_enabled o;
     interaction_log := interaction_log o; log_file := log_file o;
     logs := logs o; history := v; utcnow := utcnow o; ticks := ticks o;
     uuid4 := uuid4 o; draws := draws o |}.

Definition with_ticks (v : nat) (o : Orchestrator) : Orchestrator :=
  {| heap := heap o; next_ref := next_ref o;
     active_tasks := active_tasks o; completed_tasks := completed_tasks o;
     message_queue := message_queue o;
     agent_callbacks := agent_callbacks o; max_parallel := max_parallel o;
     orchestration_enabled := orchestration_enabled o;
     learning_enabled := learning_enabled o;
     interaction_log := interaction_log o; log_file := log_file o;
     logs := logs o; history := history o; utcnow := utcnow o; ticks := v;
     uuid4 := uuid4 o; draws := draws o |}.

Definition with_draws (v : nat) (o : Orchestrator) : Orchestrator :=
  {| heap := heap o; next_ref := next_ref o;
     active_tasks := active_tasks o; completed_tasks := completed_tasks o;
     message_queue := message_queue o;
     agent_callbacks := agent_callbacks o; max_parallel := max_parallel o;
     orchestration_enabled := orchestration_enabled o;
     learning_enabled := learning_enabled o;
     interaction_log := interaction_log o; log_file := log_file o;
     logs := logs o; history := history o; utcnow := utcnow o;
     ticks := ticks o; uuid4 := uuid4 o; draws := v |}.

Definition with_max_parallel (v : nat) (o : Orchestrator) : Orchestrator :=
  {| heap := heap o; next_ref := next_ref o;
     active_tasks := active_tasks o; completed_tasks := completed_tasks o;
     message_queue := message_queue o;
     agent_callbacks := agent_callbacks o; max_parallel := v;
     orchestration_enabled := orchestration_enabled o;
     learning_enabled := learning_enabled o;
     interaction_log := interaction_log o; log_file := log_file o;
     logs := logs o; history := history o; utcnow := utcnow o;
     ticks := ticks o; uuid4 := uuid4 o; draws := draws o |}.

(** *** State and exceptions

    A method is a function of the orchestrator state that returns or raises
    and leaves a new state. *)
Definition M (A : Type) : Type := Orchestrator -> outcome A * Orchestrator.

Definition ret {A} (a : A) : M A := fun o => (Return a, o).

Definition raise {A} (e : string) : M A := fun o => (Raise e, o).

Definition bind {A B} (m : M A) (k : A -> M B) : M B :=
  fun o =>
    match m o with
    | (Return a, o') => k a o'
    | (Raise e, o') => (Raise e, o')
    end.

(** [try: body except Exception as e: handler(e)] *)
Definition try_except {A} (body : M A) (handler : string -> M A) : M A :=
  fun o =>
    match body o with
    | (Return a, o') => (Return a, o')
    | (Raise e, o') => handler e o'
    end.

Definition gets {A} (f : Orchestrator -> A) : M A := fun o => (Return (f o), o).

Definition modify (f : Orchestrator -> Orchestrator) : M unit :=
  fun o => (Return tt, f o).

(** The value an awaited coroutine yields, or the exception it raises. *)
Definition await {A} (x : outcome A) : M A := fun o => (x, o).

Declare Scope orch_scope.
Delimit Scope orch_scope with orch.
Notation "x <- c1 ;; c2" := (bind c1 (fun x => c2))
  (at level 100, c1 at next level, right associativity) : orch_scope.
Notation "c1 ;; c2" := (bind c1 (fun _ => c2))
  (at level 100, right associativity) : orch_scope.
Open Scope orch_scope.

(** [logger.info], [logger.warning], [logger.error] *)
Definition logger (lv : level) (msg : string) : M unit :=
  modify (fun o => with_logs (logs o ++ [(lv, msg)]) o).

(** [datetime.utcnow()] *)
Definition datetime_utcnow : M Z :=
  fun o => (Return (utcnow o (ticks o)), with_ticks (S (ticks o)) o).

(** [uuid.uuid4()], cut to eight characters *)
Definition uuid4_8 : M string :=
  fun o => (Return (uuid4 o (draws o)), with_draws (S (draws o)) o).

(** Reading and updating a [Task] object. *)
Definition read (task : ref) : M Task := gets (fun o => heap o task).

Definition write (task : ref) (f : Task -> Task) : M unit :=
  modify (fun o => with_heap (<[task := f (heap o task)]> (heap o)) o).

(** [Task(...)]: a new object. *)
Definition alloc (t : Task) : M ref :=
  fun o => (Return (next_ref o),
            with_next_ref (S (next_ref o))
              (with_heap (<[next_ref o := t]> (heap o)) o)).

(** [task.status = s] *)
Definition write_status (task : ref) (s : string) : M unit :=
  t <- read task ;;
  modify (fun o => with_history
            (history o ++ [{| sw_task := task; sw_old := status t; sw_new := s |}]) o) ;;
  write task (set_status s).

(* ===================================================================== *)
(** ** Routing: [assign_agent], [create_task], [get_recommended_agent] *)

Definition assign_agent (task : Task) : M AgentType :=
  let description_lower := Str.lower (description task) in
  let task_type_lower := Str.lower (type task) in
  if Str.any_in ["architect"; "design"; "pattern"; "structure"]
       description_lower
  then ret LEAD_ARCHITECT
  else if Str.any_in ["api"; "endpoint"; "database"; "backend"; "repository"]
            description_lower
  then ret BACKEND_MASTER
  else if Str.any_in ["cli"; "command"; "terminal"] description_lower
  then ret CLI_ARTISAN
  else if Str.any_in ["deploy"; "docker"; "kubernetes"; "cicd"; "infrastructure"]
            description_lower
  then ret PLATFORM_BUILDER
  else if Str.any_in ["integration"; "webhook"; "mcp"; "external"]
            description_lower
  then ret INTEGRATION_SPECIALIST
  else if Str.any_in ["test"; "qa"; "quality"; "review"] description_lower
  then ret QA_SENTINEL
  else if String.eqb task_type_lower "feature"
  then ret BACKEND_MASTER
  else if Str.mem task_type_lower ["bugfix"; "refactor"]
  then ret QA_SENTINEL
  else
    logger LogWarning
      ("Could not determine agent for task: " ++ description task
       ++ ", using LEAD_ARCHITECT") ;;
    ret LEAD_ARCHITECT.

(** [create_task(description, task_type, priority, metadata)]; the caller
    passes the defaults ["feature"], ["medium"] and [∅] when it leaves the
    arguments out. *)
Definition create_task (description0 task_type priority0 : string)
    (metadata0 : dict) : M ref :=
  i <- uuid4_8 ;;
  task <- alloc (set_metadata metadata0
                   (new_task i description0 task_type priority0)) ;;
  t <- read task ;;
  a <- assign_agent t ;;
  write task (set_assigned_agent (Some a)) ;;
  modify (fun o => with_active_tasks (<[i := task]> (active_tasks o)) o) ;;
  logger LogInfo
    ("Created task " ++ i ++ ": '" ++ description0 ++ "' assigned to "
     ++ agent_value a) ;;
  ret task.

Definition update_task_status (task_id status0 : string) : M (option ref) :=
  task <- gets (fun o => active_tasks o !! task_id) ;;
  match task with
  | Some r =>
      write_status r status0 ;;
      logger LogInfo ("Task " ++ task_id ++ " status updated to: " ++ status0) ;;
      ret (Some r)
  | None => ret None
  end.

Definition get_recommended_agent (context : string) : M AgentType :=
  assign_agent (new_task "temp" context "query" "medium").

Definition register_agent_callback (agent_type : AgentType)
    (callback : Callable) : M unit :=
  modify (fun o =>
    with_agent_callbacks (<[agent_type := Some callback]> (agent_callbacks o)) o) ;;
  logger LogInfo ("Registered callback for " ++ agent_value agent_type).

(* ===================================================================== *)
(** ** Execution of one task *)

(** [_calculate_duration]: the difference of the two clock readings
    ([total_seconds] of it, in the source), or [None]. *)
Definition _calculate_duration (task : Task) : option Z :=
  match started_at task, completed_at task with
  | Some start, Some end_ => Some (end_ - start)%Z
  | _, _ => None
  end.

(** [_save_interaction_log]: the dump of [interaction_log] replaces the
    content of the file. *)
Definition _save_interaction_log : M unit :=
  modify (fun o => with_log_file (interaction_log o) o).

Definition _log_interaction (task : ref) : M unit :=
  now <- datetime_utcnow ;;
  t <- read task ;;
  let interaction :=
    {| i_timestamp := now;
       i_task_id := id t;
       i_task_type := type t;
       i_description := description t;
       i_agent := agent_value <$> assigned_agent t;
       i_status := status t;
       i_duration := _calculate_duration t;
       i_success := String.eqb (status t) "completed" |} in
  modify (fun o => with_interaction_log (interaction_log o ++ [interaction]) o) ;;
  enabled <- gets learning_enabled ;;
  if enabled then _save_interaction_log else ret tt.

Definition default_result : dict :=
  {[ "status" := PyStr "completed"; "message" := PyStr "Task completed" ]}.

(** [execute_task_async] up to its only suspension point,
    [await callback(task)]: the task is marked in progress, the callback is
    looked up and called.  The value is what the [await] will yield; without
    a callback nothing is awaited and the default result is taken. *)
Definition execute_task_async_enter (task : ref) : M (outcome dict) :=
  write_status task "in_progress" ;;
  now <- datetime_utcnow ;;
  write task (set_started_at (Some now)) ;;
  t <- read task ;;
  let agent_name :=
    match assigned_agent t with Some a => agent_value a | None => "unknown" end in
  logger LogInfo ("Executing task " ++ id t ++ " with " ++ agent_name) ;;
  callback <- gets (fun o =>
    match assigned_agent t with
    | Some a => agent_callbacks o a
    | None => None
    end) ;;
  match callback with
  | Some cb => ret (cb t)
  | None => ret (Return default_result)
  end.

(** [execute_task_async] from the [await] on: the rest of the [try] block
    and the [except Exception] clause, which records the failure and
    re-raises. *)
Definition execute_task_async_resume (task : ref) (awaited : outcome dict)
    : M dict :=
  try_except
    (result0 <- await awaited ;;
     write_status task "completed" ;;
     now <- datetime_utcnow ;;
     write task (set_completed_at (Some now)) ;;
     write task (set_result (Some result0)) ;;
     t <- read task ;;
     modify (fun o => with_completed_tasks ({[ id t ]} ∪ completed_tasks o) o) ;;
     enabled <- gets learning_enabled ;;
     (if enabled then _log_interaction task else ret tt) ;;
     ret result0)
    (fun e =>
     t <- read task ;;
     logger LogError ("Task " ++ id t ++ " failed: " ++ e) ;;
     write_status task "failed" ;;
     write task (set_result (Some {[ "error" := PyStr e ]})) ;;
     raise e).

Definition execute_task_async (task : ref) : M dict :=
  awaited <- execute_task_async_enter task ;;
  execute_task_async_resume task awaited.

(* ===================================================================== *)
(** ** Messages *)

Definition send_message (from_agent0 to_agent0 : AgentType)
    (message_type0 : MessageType) (content0 : dict) : M AgentMessage :=
  now <- datetime_utcnow ;;
  u <- uuid4_8 ;;
  let message :=
    {| from_agent := from_agent0; to_agent := to_agent0;
       message_type := message_type0; content := content0;
       timestamp := now; message_id := u |} in
  modify (fun o => with_message_queue (message_queue o ++ [message]) o) ;;
  logger LogInfo
    ("Message " ++ message_id message ++ ": " ++ agent_value from_agent0
     ++ " -> " ++ agent_value to_agent0) ;;
  ret message.

Definition _handle_handoff (message : AgentMessage) : M unit :=
  let task_id := default (PyStr "") (content message !! "task_id") in
  if negb (truthy_val task_id) || negb (is_str task_id) then
    logger LogWarning "Invalid task_id in handoff message"
  else
    task <- gets (fun o => active_tasks o !! str_val task_id) ;;
    match task with
    | Some r =>
        write r (set_assigned_agent (Some (to_agent message))) ;;
        write r (fun t => set_messages (messages t ++ [message]) t) ;;
        logger LogInfo
          ("Task " ++ str_val task_id ++ " handed off to "
           ++ agent_value (to_agent message))
    | None => ret tt
    end.

Definition _handle_query (message : AgentMessage) : M unit :=
  logger LogInfo
    ("Query from " ++ agent_value (from_agent message) ++ ": "
     ++ str_val (default PyNone (content message !! "query"))).

(** The loop of [process_messages].  [n] bounds the number of messages the
    loop takes from the queue before its deadline passes; an empty queue
    makes [wait_for] time out, which ends the loop. *)
Fixpoint process_loop (n : nat) (messages0 : list AgentMessage)
    : M (list AgentMessage) :=
  match n with
  | 0 => ret messages0
  | S n' =>
      queue <- gets message_queue ;;
      match queue with
      | [] => ret messages0
      | message :: rest =>
          modify (with_message_queue rest) ;;
          match message_type message with
          | HANDOFF => _handle_handoff message
          | QUERY => _handle_query message
          | _ => ret tt
          end ;;
          process_loop n' (messages0 ++ [message])
      end
  end.

(** [process_messages(timeout)].  Without a timeout the loop runs until the
    queue is empty; with one, [timeout] is given as the number of messages
    there is time for. *)
Definition process_messages (timeout : option nat) : M (list AgentMessage) :=
  match timeout with
  | None => queue <- gets message_queue ;; process_loop (S (length queue)) []
  | Some n => process_loop n []
  end.

(* ===================================================================== *)
(** ** Decomposition *)

(** [for subtask in subtasks: self.active_tasks[subtask.id] = subtask] *)
Fixpoint register_subtasks (subtasks0 : list ref) : M unit :=
  match subtasks0 with
  | [] => ret tt
  | subtask :: rest =>
      s <- read subtask ;;
      modify (fun o => with_active_tasks (<[id s := subtask]> (active_tasks o)) o) ;;
      register_subtasks rest
  end.

Definition decompose_task (task : ref) : M (list ref) :=
  t <- read task ;;
  subtasks0 <-
    (if String.eqb (type t) "feature" then
       arch <- alloc
         (set_metadata {[ "parent_task" := PyStr (id t) ]}
            (set_assigned_agent (Some LEAD_ARCHITECT)
               (new_task (id t ++ "-arch")
                  ("Design architecture for: " ++ description t)
                  "design" (priority t)))) ;;
       impl <- alloc
         (set_metadata {[ "parent_task" := PyStr (id t) ]}
            (set_dependencies [id t ++ "-arch"]
               (set_assigned_agent (Some BACKEND_MASTER)
                  (new_task (id t ++ "-impl")
                     ("Implement: " ++ description t)
                     "implementation" (priority t))))) ;;
       test <- alloc
         (set_metadata {[ "parent_task" := PyStr (id t) ]}
            (set_dependencies [id t ++ "-impl"]
               (set_assigned_agent (Some QA_SENTINEL)
                  (new_task (id t ++ "-test")
                     ("Test: " ++ description t)
                     "testing" (priority t))))) ;;
       ret [arch; impl; test]
     else ret []) ;;
  write task (set_subtasks subtasks0) ;;
  register_subtasks subtasks0 ;;
  ret subtasks0.

(* ===================================================================== *)
(** ** Batches: [execute_parallel] *)

(** *** Orchestration disabled: the [for] loop *)

Fixpoint execute_sequentially (tasks : list ref) (results : list dict)
    : M (list dict) :=
  match tasks with
  | [] => ret results
  | task :: rest =>
      result0 <- execute_task_async task ;;
      execute_sequentially rest (results ++ [result0])
  end.

(** *** Orchestration enabled: coroutines under a semaphore

    [asyncio.gather] runs one [execute_with_semaphore] coroutine per task.
    Between two suspension points a coroutine is in one of these places. *)
Inductive phase :=
| Waiting                          (* not yet past [async with semaphore] *)
| Holding                          (* holds a slot, in the [while] loop *)
| Running (awaited : outcome dict) (* suspended at [await callback(task)] *)
| Done (res : outcome dict).       (* returned or raised; slot released *)

Record Batch := {
  orch : Orchestrator;
  semaphore : nat;         (* the value of the [asyncio.Semaphore] *)
  coros : list phase;      (* one coroutine per input task, in input order *)
}.

(** The next step of coroutine [i], up to its next suspension point; [None]
    when it cannot move (no free slot, finished, or no such coroutine).
    - [Waiting]: [semaphore.acquire()] succeeds when the value is positive.
    - [Holding]: [task.can_start] is evaluated; when it fails the coroutine
      sleeps and will look again, otherwise [execute_task_async] is entered
      and runs up to the [await] of the callback.
    - [Running]: the callback has finished; [execute_task_async] runs to
      its end and leaving [async with] releases the slot, on a normal return
      and on an exception alike. *)
Definition step (tasks : list ref) (i : nat) (b : Batch) : option Batch :=
  match tasks !! i, coros b !! i with
  | Some task, Some Waiting =>
      match semaphore b with
      | 0 => None
      | S n =>
          Some {| orch := orch b; semaphore := n;
                  coros := <[i := Holding]> (coros b) |}
      end
  | Some task, Some Holding =>
      if can_start (heap (orch b) task) (completed_tasks (orch b)) then
        match execute_task_async_enter task (orch b) with
        | (Return awaited, o') =>
            Some {| orch := o'; semaphore := semaphore b;
                    coros := <[i := Running awaited]> (coros b) |}
        | (Raise e, o') =>
            Some {| orch := o'; semaphore := S (semaphore b);
                    coros := <[i := Done (Raise e)]> (coros b) |}
        end
      else Some b
  | Some task, Some (Running awaited) =>
      let '(res, o') := execute_task_async_resume task awaited (orch b) in
      Some {| orch := o'; semaphore := S (semaphore b);
              coros := <[i := Done res]> (coros b) |}
  | _, _ => None
  end.

(** A schedule names the coroutine the event loop resumes next; resuming a
    coroutine that cannot move changes nothing. *)
Definition run (tasks : list ref) (schedule : list nat) (b : Batch) : Batch :=
  fold_left (fun b i => default b (step tasks i b)) schedule b.

(** The state in which [gather] starts the coroutines. *)
Definition start_batch (tasks : list ref) (o : Orchestrator) : Batch :=
  {| orch := o; semaphore := max_parallel o;
     coros := replicate (length tasks) Waiting |}.

(** [raw_results], once every coroutine has finished. *)
Fixpoint gathered (cs : list phase) : option (list (outcome dict)) :=
  match cs with
  | [] => Some []
  | Done res :: rest => cons res <$> gathered rest
  | _ :: _ => None
  end.

(** The loop that turns [raw_results] into [final_results]. *)
Fixpoint collect (raw_results : list (outcome dict)) (final_results : list dict)
    : M (list dict) :=
  match raw_results with
  | [] => ret final_results
  | Raise item :: rest =>
      logger LogError ("Task execution failed: " ++ item) ;;
      collect rest
        (final_results ++ [{[ "error" := PyStr item; "status" := PyStr "failed" ]}])
  | Return item :: rest => collect rest (final_results ++ [item])
  end.

(** [execute_parallel(tasks)] under a schedule of the event loop.  The result
    is [None] when the schedule ends before [gather] has every result. *)
Definition execute_parallel (schedule : list nat) (tasks : list ref)
    (o : Orchestrator) : option (outcome (list dict) * Orchestrator) :=
  if negb (orchestration_enabled o) then
    Some ((logger LogWarning "Orchestration disabled, executing sequentially" ;;
           execute_sequentially tasks []) o)
  else
    let b := run tasks schedule (start_batch tasks o) in
    match gathered (coros b) with
    | Some raw_results => Some (collect raw_results [] (orch b))
    | None => None
    end.

(* ===================================================================== *)
(** ** Notions used in the statements *)

(** [AgentOrchestrator.__init__], for the values read from the
    configuration ([max_parallel], [enabled], [learning_enabled]), the
    [Task] objects the caller has built ([heap0], below [next0]) and the
    environment. *)
Definition __init__ (max_parallel0 : nat) (enabled learning : bool)
    (heap0 : ref -> Task) (next0 : ref)
    (utcnow0 : nat -> Z) (uuid0 : nat -> string) : Orchestrator :=
  {| heap := heap0; next_ref := next0; active_tasks := ∅;
     completed_tasks := ∅; message_queue := [];
     agent_callbacks := fun _ => None; max_parallel := max_parallel0;
     orchestration_enabled := enabled; learning_enabled := learning;
     interaction_log := []; log_file := []; logs := []; history := [];
     utcnow := utcnow0; ticks := 0; uuid4 := uuid0; draws := 0 |}.

(** *** Routing *)

(** The keyword rules of [assign_agent], in the order they are tried. *)
Definition keyword_rules : list (list string * AgentType) :=
  [ (["architect"; "design"; "pattern"; "structure"], LEAD_ARCHITECT);
    (["api"; "endpoint"; "database"; "backend"; "repository"], BACKEND_MASTER);
    (["cli"; "command"; "terminal"], CLI_ARTISAN);
    (["deploy"; "docker"; "kubernetes"; "cicd"; "infrastructure"], PLATFORM_BUILDER);
    (["integration"; "webhook"; "mcp"; "external"], INTEGRATION_SPECIALIST);
    (["test"; "qa"; "quality"; "review"], QA_SENTINEL) ].

(** First rule with a keyword that occurs in [d]. *)
Fixpoint first_match (rules : list (list string * AgentType)) (d : string)
    : option AgentType :=
  match rules with
  | [] => None
  | (keywords, agent) :: rest =>
      if Str.any_in keywords d then Some agent else first_match rest d
  end.

(** The fallback on the type: ["feature"] to the backend pool, ["bugfix"]
    and ["refactor"] to the QA pool, anything else to the architect pool. *)
Definition type_fallback (ty : string) : AgentType :=
  if String.eqb ty "feature" then BACKEND_MASTER
  else if String.eqb ty "bugfix" || String.eqb ty "refactor" then QA_SENTINEL
  else LEAD_ARCHITECT.

(** The routing as the specification words it: the rules on the lower-cased
    description, then the type as it is given. *)
Definition route_as_specified (t : Task) : AgentType :=
  match first_match keyword_rules (Str.lower (description t)) with
  | Some agent => agent
  | None => type_fallback (type t)
  end.

(** The same with the type lower-cased as well. *)
Definition route (t : Task) : AgentType :=
  match first_match keyword_rules (Str.lower (description t)) with
  | Some agent => agent
  | None => type_fallback (Str.lower (type t))
  end.

(** *** The task state machine of the specification

    on the status strings: Pending is ["pending"], Queued ["queued"], Running
    ["in_progress"], Completed ["completed"], Failed ["failed"], Cancelled
    ["cancelled"]. *)
Inductive transition : string -> string -> Prop :=
| pending_queued : transition "pending" "queued"
| queued_running : transition "queued" "in_progress"
| running_completed : transition "in_progress" "completed"
| running_failed : transition "in_progress" "failed"
| queued_cancelled : transition "queued" "cancelled".

Definition terminal (s : string) : Prop :=
  s = "completed" \/ s = "failed" \/ s = "cancelled".

(** The status writes an operation adds to the history. *)
Definition writes_since (o o' : Orchestrator) : list StatusWrite :=
  drop (length (history o)) (history o').

(** *** Single-task execution *)

(** What [await callback(task)] yields when [execute_task_async(task)] is
    called in state [o]: the outcome of the registered handler, or the default
    result when none is registered. *)
Definition awaited_outcome (task : ref) (o : Orchestrator) : outcome dict :=
  match fst (execute_task_async_enter task o) with
  | Return awaited => awaited
  | Raise e => Raise e
  end.

(** *** Batches *)

Definition is_holder (p : phase) : bool :=
  match p with Holding | Running _ => true | _ => false end.

Definition is_running (p : phase) : bool :=
  match p with Running _ => true | _ => false end.

Definition is_done (p : phase) : bool :=
  match p with Done _ => true | _ => false end.

(** Number of coroutines that hold a slot of the semaphore. *)
Definition holders (cs : list phase) : nat :=
  length (List.filter is_holder cs).

(** Number of tasks whose handler has been called and has not finished. *)
Definition running (cs : list phase) : nat :=
  length (List.filter is_running cs).

(** The entry of [final_results] for an item of [raw_results]. *)
Definition final_item (item : outcome dict) : dict :=
  match item with
  | Return d => d
  | Raise e => {[ "error" := PyStr e; "status" := PyStr "failed" ]}
  end.

(** Steps a coroutine still has to take when it never has to sleep. *)
Definition steps_left (p : phase) : nat :=
  match p with
  | Waiting => 3
  | Holding => 2
  | Running _ => 1
  | Done _ => 0
  end.

Definition work_left (b : Batch) : nat :=
  foldr (fun p n => steps_left p + n) 0 (coros b).

(** The status writes of tasks run one after the other: each task is marked
    in progress and then completed or failed before the next is touched. *)
Inductive sequential_trace : list ref -> list StatusWrite -> Prop :=
| seq_nil : sequential_trace [] []
| seq_cons task old final rest h :
    final = "completed" \/ final = "failed" ->
    sequential_trace rest h ->
    sequential_trace (task :: rest)
      ({| sw_task := task; sw_old := old; sw_new := "in_progress" |}
       :: {| sw_task := task; sw_old := "in_progress"; sw_new := final |}
       :: h).

(** *** Concrete objects for the examples *)

Definition blank_heap : ref -> Task := fun _ => new_task "" "" "" "".

Definition clock0 : nat -> Z := fun k => Z.of_nat k.

Definition uuid0 : nat -> string := fun _ => "00000000".

(** An orchestrator built with the default configuration. *)
Definition orchestrator0 : Orchestrator :=
  __init__ 3 true false blank_heap 0 clock0 uuid0.

(** A handler that raises, two tasks of which the second depends on the
    first, and an orchestrator whose backend handler is the failing one. *)
Definition failing_handler : Callable := fun _ => Raise "Test error".

Definition task_a : Task :=
  set_assigned_agent (Some BACKEND_MASTER)
    (new_task "a" "Implement API" "feature" "high").

Definition task_b : Task :=
  set_dependencies ["a"]
    (set_assigned_agent (Some QA_SENTINEL)
       (new_task "b" "Write tests" "feature" "high")).

Definition heap_ab : ref -> Task := <[0 := task_a]> (<[1 := task_b]> blank_heap).

Definition orchestrator_ab : Orchestrator :=
  __init__ 3 true false heap_ab 2 clock0 uuid0.

Definition orchestrator_failing : Orchestrator :=
  snd (register_agent_callback BACKEND_MASTER failing_handler orchestrator_ab).

(** A handoff about a task id that is not in the active set. *)
Definition handoff_unknown : AgentMessage :=
  {| from_agent := LEAD_ARCHITECT; to_agent := BACKEND_MASTER;
     message_type := HANDOFF; content := {[ "task_id" := PyStr "ghost" ]};
     timestamp := 0; message_id := "00000000" |}.

(** A handoff of the task that [create_task] of [orchestrator0] makes. *)
Definition handoff_known : AgentMessage :=
  {| from_agent := LEAD_ARCHITECT; to_agent := QA_SENTINEL;
     message_type := HANDOFF; content := {[ "task_id" := PyStr "00000000" ]};
     timestamp := 0; message_id := "00000001" |}.

(** The payload names no usable task id: the key is missing, or its value
    is falsy or is not a string. *)
Definition invalid_task_id (message : AgentMessage) : Prop :=
  match content message !! "task_id" with
  | None => True
  | Some v => truthy_val v = false \/ is_str v = false
  end.

(** The handler of the coroutine's task has been called. *)
Definition is_started (p : phase) : bool :=
  match p with Running _ | Done _ => true | _ => false end.

(** The ids and the dependency lists in the store are those of [o]. *)
Definition same_ids (o : Orchestrator) (b : Batch) : Prop :=
  forall r, id (heap (orch b) r) = id (heap o r)
            /\ dependencies (heap (orch b) r) = dependencies (heap o r).

(** Every task whose handler has been called has all its dependencies in
    the completed set. *)
Definition gated (tasks : list ref) (o : Orchestrator) (b : Batch) : Prop :=
  forall i task p,
    tasks !! i = Some task -> coros b !! i = Some p -> is_started p = true ->
    forall d, In d (dependencies (heap o task)) -> d ∈ completed_tasks (orch b).

(** Every id in the completed set was there when the batch started or is
    the id of a task of the batch whose coroutine returned normally, after
    writing the status "completed". *)
Definition completed_by (tasks : list ref) (o : Orchestrator) (b : Batch) : Prop :=
  forall d, d ∈ completed_tasks (orch b) ->
    d ∈ completed_tasks o
    \/ exists j task r old,
         tasks !! j = Some task
         /\ coros b !! j = Some (Done (Return r))
         /\ id (heap o task) = d
         /\ In {| sw_task := task; sw_old := old; sw_new := "completed" |}
              (history (orch b)).

Definition gate_invariant (tasks : list ref) (o : Orchestrator) (b : Batch) : Prop :=
  same_ids o b
  /\ completed_tasks o ⊆ completed_tasks (orch b)
  /\ gated tasks o b
  /\ completed_by tasks o b.

(** What the run of a batch keeps, whatever the dependencies: the slots,
    the number of coroutines, the ids and dependency lists, and the ids
    already completed. *)
Definition batch_invariant (tasks : list ref) (o : Orchestrator) (b : Batch) : Prop :=
  semaphore b + holders (coros b) = max_parallel o
  /\ length (coros b) = length tasks
  /\ same_ids o b
  /\ completed_tasks o ⊆ completed_tasks (orch b).

(** The batch [[0; 1]] on [orchestrator_failing]: the first task fails, the
    second depends on it.  In every state of the run the completed set is
    empty, the first coroutine has not returned normally and the second one
    has not got past its dependency loop. *)
Definition stuck (b : Batch) : Prop :=
  agent_callbacks (orch b) BACKEND_MASTER = Some failing_handler
  /\ assigned_agent (heap (orch b) 0) = Some BACKEND_MASTER
  /\ dependencies (heap (orch b) 1) = ["a"]
  /\ completed_tasks (orch b) = ∅
  /\ (coros b !! 0 = Some Waiting \/ coros b !! 0 = Some Holding
      \/ coros b !! 0 = Some (Running (Raise "Test error"))
      \/ coros b !! 0 = Some (Done (Raise "Test error")))
  /\ (coros b !! 1 = Some Waiting \/ coros b !! 1 = Some Holding).

(** The same store with orchestration disabled and [max_parallel] set to 0. *)
Definition orchestrator_sequential : Orchestrator :=
  __init__ 0 false false heap_ab 2 clock0 uuid0.

(** Orchestration disabled, with the failing backend handler. *)
Definition orchestrator_failing_sequential : Orchestrator :=
  snd (register_agent_callback BACKEND_MASTER failing_handler
         orchestrator_sequential).

(** *** Conditions under which a batch finishes *)

(** The handler that runs the task, if there is one, returns for every
    task it is given. *)
Definition never_raises (o : Orchestrator) (task : ref) : Prop :=
  forall a cb,
    assigned_agent (heap o task) = Some a -> agent_callbacks o a = Some cb ->
    forall t, exists r, cb t = Return r.

(** Every registered handler returns for every task it is given. *)
Definition handlers_return (o : Orchestrator) : Prop :=
  forall a cb t, agent_callbacks o a = Some cb -> exists r, cb t = Return r.

(** The task has a dependency that is not completed when the batch starts. *)
Definition outstanding (o : Orchestrator) (task : ref) : bool :=
  negb (can_start (heap o task) (completed_tasks o)).

(** Every dependency of every task of the batch is completed when the batch
    starts or is the id of a task of the batch of smaller rank whose handler
    does not raise: the dependencies inside the batch are not circular and
    their tasks succeed. *)
Definition provided (tasks : list ref) (o : Orchestrator) (rank : nat -> nat)
    : Prop :=
  forall i task d,
    tasks !! i = Some task -> In d (dependencies (heap o task)) ->
    d ∈ completed_tasks o
    \/ exists j task_j,
         tasks !! j = Some task_j /\ id (heap o task_j) = d
         /\ rank j < rank i /\ never_raises o task_j.

(** Coroutine [i] can take a step that is not a sleep. *)
Definition ready (tasks : list ref) (b : Batch) (i : nat) : bool :=
  match tasks !! i, coros b !! i with
  | Some task, Some Waiting => negb (Nat.eqb (semaphore b) 0)
  | Some task, Some Holding =>
      can_start (heap (orch b) task) (completed_tasks (orch b))
  | Some task, Some (Running _) => true
  | _, _ => false
  end.

(** The run of a batch registers no handler and reassigns no task. *)
Definition handlers_kept (o : Orchestrator) (b : Batch) : Prop :=
  agent_callbacks (orch b) = agent_callbacks o
  /\ forall r, assigned_agent (heap (orch b) r) = assigned_agent (heap o r).

(** The coroutine of a task whose handler does not raise awaits a result,
    and once it has finished it has returned and the id of the task is
    completed. *)
Definition providers_return (tasks : list ref) (o : Orchestrator) (b : Batch)
    : Prop :=
  forall j task p,
    tasks !! j = Some task -> never_raises o task -> coros b !! j = Some p ->
    match p with
    | Running awaited => exists r, awaited = Return r
    | Done res =>
        (exists r, res = Return r) /\ id (heap o task) ∈ completed_tasks (orch b)
    | _ => True
    end.

Definition live (tasks : list ref) (o : Orchestrator) (b : Batch) : Prop :=
  batch_invariant tasks o b /\ handlers_kept o b /\ providers_return tasks o b.

(** Coroutine [j] has the only task of the batch with the id [d]. *)
Definition only_provider (tasks : list ref) (o : Orchestrator) (j : nat)
    (d : string) : Prop :=
  forall k task, tasks !! k = Some task -> id (heap o task) = d -> k = j.

(** Coroutine [j], whose task alone could complete [d], has raised, and
    coroutine [i], which depends on [d], is before the call of its
    handler. *)
Definition starved (o : Orchestrator) (i j : nat) (d e : string) (b : Batch)
    : Prop :=
  same_ids o b
  /\ (d ∉ completed_tasks (orch b))
  /\ coros b !! j = Some (Done (Raise e))
  /\ (coros b !! i = Some Waiting \/ coros b !! i = Some Holding).

(** *** Sequential execution

    The tasks are run one after the other in input order.  A task whose
    handler returns is marked in progress and then completed, its result is
    put after the results so far and the next task is run in the state that
    this leaves; the first task whose handler raises is marked in progress
    and then failed, and its exception is the outcome: no later task is
    run. *)
Inductive in_order
  : list ref -> Orchestrator -> list dict -> list StatusWrite
    -> outcome (list dict) -> Prop :=
| in_order_nil o acc : in_order [] o acc [] (Return acc)
| in_order_return task rest o acc r h res :
    awaited_outcome task o = Return r ->
    in_order rest (snd (execute_task_async task o)) (acc ++ [r]) h res ->
    in_order (task :: rest) o acc
      ({| sw_task := task; sw_old := status (heap o task);
          sw_new := "in_progress" |}
       :: {| sw_task := task; sw_old := "in_progress"; sw_new := "completed" |}
       :: h) res
| in_order_raise task rest o acc e :
    awaited_outcome task o = Raise e ->
    in_order (task :: rest) o acc
      [{| sw_task := task; sw_old := status (heap o task);
          sw_new := "in_progress" |};
       {| sw_task := task; sw_old := "in_progress"; sw_new := "failed" |}]
      (Raise e).

(** Task "a" has completed in an earlier run; then a failing handler is
    registered for its agent. *)
Definition orchestrator_rerun : Orchestrator :=
  snd (register_agent_callback BACKEND_MASTER failing_handler
         (snd (execute_task_async 0 orchestrator_ab))).

(** One slot for the two tasks. *)
Definition orchestrator_single : Orchestrator :=
  __init__ 1 true false heap_ab 2 clock0 uuid0.

(* ===================================================================== *)
(** ** The agent table: [_load_available_agents], [suggest_agent] *)

(** [AgentType(value)]: the member with this value, if there is one. *)
Definition agent_of_value (s : string) : option AgentType :=
  if String.eqb s "lead-architect" then Some LEAD_ARCHITECT
  else if String.eqb s "backend-master" then Some BACKEND_MASTER
  else if String.eqb s "cli-artisan" then Some CLI_ARTISAN
  else if String.eqb s "platform-builder" then Some PLATFORM_BUILDER
  else if String.eqb s "integration-specialist" then Some INTEGRATION_SPECIALIST
  else if String.eqb s "qa-sentinel" then Some QA_SENTINEL
  else None.

(** The members of [AgentType], in the order of the class. *)
Definition agent_types : list AgentType :=
  [LEAD_ARCHITECT; BACKEND_MASTER; CLI_ARTISAN; PLATFORM_BUILDER;
   INTEGRATION_SPECIALIST; QA_SENTINEL].

Module PyStr.

(** [c.upper()] on the ASCII letters. *)
Definition upper_ascii (c : ascii) : ascii :=
  let n := nat_of_ascii c in
  if (97 <=? n)%nat && (n <=? 122)%nat then ascii_of_nat (n - 32) else c.

Definition is_letter (c : ascii) : bool :=
  let n := nat_of_ascii c in
  ((65 <=? n)%nat && (n <=? 90)%nat) || ((97 <=? n)%nat && (n <=? 122)%nat).

(** [s.replace(a, b)] for single characters [a] and [b]. *)
Fixpoint replace_char (a b : ascii) (s : string) : string :=
  match s with
  | EmptyString => EmptyString
  | String c s' =>
      String (if Ascii.eqb c a then b else c) (replace_char a b s')
  end.

(** [s.title()] on the ASCII letters: a letter that follows a letter is
    lower-cased, any other letter is upper-cased. [after_letter] tells
    whether the character before was a letter. *)
Fixpoint title_from (after_letter : bool) (s : string) : string :=
  match s with
  | EmptyString => EmptyString
  | String c s' =>
      if is_letter c then
        String (if after_letter then Str.lower_ascii c else upper_ascii c)
               (title_from true s')
      else String c (title_from false s')
  end.

Definition title (s : string) : string := title_from false s.

Definition hex_digit (n : nat) : ascii :=
  if (n <? 10)%nat then ascii_of_nat (48 + n) else ascii_of_nat (87 + n).

Definition quote1 : ascii := ascii_of_nat 39.   (* ' *)
Definition quote2 : ascii := ascii_of_nat 34.   (* the double quote *)
Definition backslash : ascii := ascii_of_nat 92.

(** One character of [repr(s)], for the quote that encloses it. *)
Definition repr_char (quote c : ascii) : string :=
  let n := nat_of_ascii c in
  if Ascii.eqb c backslash then String backslash (String backslash EmptyString)
  else if Ascii.eqb c quote then String backslash (String quote EmptyString)
  else if (n =? 9)%nat then String backslash "t"
  else if (n =? 10)%nat then String backslash "n"
  else if (n =? 13)%nat then String backslash "r"
  else if (n <? 32)%nat || ((127 <=? n)%nat && (n <=? 160)%nat) || (n =? 173)%nat
  then String backslash
         (String "x" (String (hex_digit (n / 16)) (String (hex_digit (n mod 16)) EmptyString)))
  else String c EmptyString.

Fixpoint has_char (a : ascii) (s : string) : bool :=
  match s with
  | EmptyString => false
  | String c s' => Ascii.eqb c a || has_char a s'
  end.

Fixpoint repr_body (quote : ascii) (s : string) : string :=
  match s with
  | EmptyString => EmptyString
  | String c s' => repr_char quote c ++ repr_body quote s'
  end.

(** [repr(s)]: in single quotes, unless [s] holds a single quote and no
    double quote. *)
Definition repr (s : string) : string :=
  let quote := if has_char quote1 s && negb (has_char quote2 s)
               then quote2 else quote1 in
  String quote (repr_body quote s ++ String quote EmptyString).

(** [str(n)] for a natural number. *)
Definition of_nat (n : nat) : string := NilZero.string_of_uint (Nat.to_uint n).

End PyStr.

(** An entry of ["available_agents"] in [config.json]: an object whose
    values, where present, are a string, a string, a list of strings and a
    string. *)
Record AgentConfig := {
  cfg_name : option string;
  cfg_role : option string;
  cfg_capabilities : option (list string);
  cfg_skill_file : option string;
}.

(** A value of the agent table. *)
Record AgentInfo := {
  info_name : string;
  info_expertise : list string;
  info_skill_file : string;
}.

(** The table, [dict[AgentType, dict]]. *)
Abbreviation AgentTable := (AgentType -> option AgentInfo).

(** [len(agent_map)] *)
Definition table_size (agents : AgentTable) : nat :=
  length (List.filter (fun a => bool_decide (is_Some (agents a))) agent_types).

(** The built-in table. *)
Definition default_agents : AgentTable := fun a =>
  Some match a with
  | LEAD_ARCHITECT =>
      {| info_name := "Lead Architect";
         info_expertise := ["architecture"; "design"; "patterns"];
         info_skill_file := ".claude/skills/agents/lead-architect.md" |}
  | BACKEND_MASTER =>
      {| info_name := "Backend Master";
         info_expertise := ["api"; "database"; "business-logic"];
         info_skill_file := ".claude/skills/agents/backend-master.md" |}
  | CLI_ARTISAN =>
      {| info_name := "CLI Artisan";
         info_expertise := ["cli"; "commands"; "ux"];
         info_skill_file := ".claude/skills/agents/cli-artisan.md" |}
  | PLATFORM_BUILDER =>
      {| info_name := "Platform Builder";
         info_expertise := ["infrastructure"; "deployment"; "cicd"];
         info_skill_file := ".claude/skills/agents/platform-builder.md" |}
  | INTEGRATION_SPECIALIST =>
      {| info_name := "Integration Specialist";
         info_expertise := ["apis"; "mcp"; "webhooks"];
         info_skill_file := ".claude/skills/agents/integration-specialist.md" |}
  | QA_SENTINEL =>
      {| info_name := "QA Sentinel";
         info_expertise := ["testing"; "quality"; "review"];
         info_skill_file := ".claude/skills/agents/qa-sentinel.md" |}
  end.

(** The loop over the configured agents: a valid name enters the table,
    over an earlier entry for the same agent; an invalid one makes
    [AgentType(agent_name)] raise [ValueError], which is logged. *)
Fixpoint load_agent_configs (config_agents : list AgentConfig)
    (agent_map : AgentTable) (log : list (level * string))
    : AgentTable * list (level * string) :=
  match config_agents with
  | [] => (agent_map, log)
  | agent_config :: rest =>
      let agent_name := default "" (cfg_name agent_config) in
      match agent_of_value agent_name with
      | Some agent_type =>
          load_agent_configs rest
            (<[agent_type :=
                 Some {| info_name :=
                           default (PyStr.title (PyStr.replace_char "-" " " agent_name))
                                   (cfg_role agent_config);
                         info_expertise :=
                           default [] (cfg_capabilities agent_config);
                         info_skill_file :=
                           default (".claude/skills/agents/" ++ agent_name ++ ".md")
                                   (cfg_skill_file agent_config) |}]> agent_map)
            log
      | None =>
          load_agent_configs rest agent_map
            (log ++ [(LogWarning,
                      ("Skipping invalid agent config: "
                       ++ default "unknown" (cfg_name agent_config) ++ ": "
                       ++ PyStr.repr agent_name
                       ++ " is not a valid AgentType")%string)])%list
      end
  end.

(** [_load_available_agents], for the list under ["available_agents"] (empty
    when the configuration has none): the table and what is logged. *)
Definition _load_available_agents (config_agents : list AgentConfig)
    : AgentTable * list (level * string) :=
  let '(agent_map, log) := load_agent_configs config_agents (fun _ => None) [] in
  if negb (Nat.eqb (length config_agents) 0) && negb (Nat.eqb (table_size agent_map) 0)
  then (agent_map,
        (log ++ [(LogInfo, ("Loaded " ++ PyStr.of_nat (table_size agent_map)
                            ++ " agents from config.json")%string)])%list)
  else (default_agents,
        (log ++ [(LogInfo, "Using default agent configuration")])%list).

(** [suggest_agent(description)]: the name it returns, for the configured
    agents that the orchestrator it builds finds; [o] is that orchestrator.
    ([assign_agent] does not raise: the last branch is never taken.) *)
Definition suggest_agent (config_agents : list AgentConfig)
    (description0 : string) (o : Orchestrator) : string :=
  let agents := fst (_load_available_agents config_agents) in
  match fst (get_recommended_agent description0 o) with
  | Return agent_type =>
      match agents agent_type with
      | Some agent_info => info_name agent_info
      | None => "Unknown Agent"
      end
  | Raise _ => "Unknown Agent"
  end.

(** The table entry that the loop makes of a configuration entry. *)
Definition agent_info_of (agent_config : AgentConfig) : AgentInfo :=
  let agent_name := default "" (cfg_name agent_config) in
  {| info_name :=
       default (PyStr.title (PyStr.replace_char "-" " " agent_name))
               (cfg_role agent_config);
     info_expertise := default [] (cfg_capabilities agent_config);
     info_skill_file :=
       default (".claude/skills/agents/" ++ agent_name ++ ".md")
               (cfg_skill_file agent_config) |}.

(** The entry names the agent [a]. *)
Definition names_agent (a : AgentType) (agent_config : AgentConfig) : bool :=
  String.eqb (default "" (cfg_name agent_config)) (agent_value a).

(** The entry names no agent. *)
Definition invalid_config (agent_config : AgentConfig) : Prop :=
  agent_of_value (default "" (cfg_name agent_config)) = None.

(** The warning logged for an invalid entry. *)
Definition skip_warning (agent_config : AgentConfig) : level * string :=
  (LogWarning,
   "Skipping invalid agent config: "
   ++ default "unknown" (cfg_name agent_config) ++ ": "
   ++ PyStr.repr (default "" (cfg_name agent_config))
   ++ " is not a valid AgentType").

(* ===================================================================== *)
(** ** [list_tasks] *)

(** [sorted(tasks, key=lambda t: t.priority, reverse=True)]: the stable
    sort by decreasing priority string.  A task is put after the tasks of a
    greater priority and before those of an equal or smaller one, which keeps
    tasks of equal priority in their order. *)
Fixpoint insert_by_priority (h : ref -> Task) (t : ref) (sorted : list ref)
    : list ref :=
  match sorted with
  | [] => [t]
  | u :: rest =>
      if String.ltb (priority (h t)) (priority (h u))
      then u :: insert_by_priority h t rest
      else t :: u :: rest
  end.

Definition sorted_by_priority (h : ref -> Task) (tasks : list ref) : list ref :=
  foldr (insert_by_priority h) [] tasks.

(** [list_tasks(status)].  The dictionary of the model keeps no order, so
    [list(self.active_tasks.values())], the tasks in the order of the
    dictionary, is given as [values].  [if status:] is false for [None] and
    for the empty string. *)
Definition list_tasks (values : list ref) (status0 : option string)
    (o : Orchestrator) : list ref :=
  let tasks :=
    match status0 with
    | Some s =>
        if negb (String.eqb s "")
        then List.filter (fun t => String.eqb (status (heap o t)) s) values
        else values
    | None => values
    end in
  sorted_by_priority (heap o) tasks.

(** [values] lists the values of the active set. *)
Definition values_of (o : Orchestrator) (values : list ref) : Prop :=
  Permutation values (snd <$> map_to_list (active_tasks o)).

(** [p] is not smaller than [q] in the order of Python strings. *)
Definition priority_ge (h : ref -> Task) (t u : ref) : Prop :=
  String.ltb (priority (h t)) (priority (h u)) = false.

(** The agent [get_recommended_agent] names for a context: the first
    keyword rule that matches, else the architect. *)
Definition recommended (context : string) : AgentType :=
  match first_match keyword_rules (Str.lower context) with
  | Some agent => agent
  | None => LEAD_ARCHITECT
  end.

Definition config_qa_only : list AgentConfig :=
  [ {| cfg_name := Some "qa-sentinel"; cfg_role := Some "Quality";
       cfg_capabilities := None; cfg_skill_file := None |};
    {| cfg_name := Some "nobody"; cfg_role := None;
       cfg_capabilities := None; cfg_skill_file := None |} ].

(** The task passes the filter of [list_tasks(status)]. *)
Definition status_matches (status0 : option string) (o : Orchestrator)
    (t : ref) : bool :=
  match status0 with
  | Some s => if String.eqb s "" then true else String.eqb (status (heap o t)) s
  | None => true
  end.

(** Three tasks of priorities high, medium and low, in this order. *)
Definition heap_priorities : ref -> Task :=
  <[0 := new_task "t0" "Architecture task" "feature" "high"]>
    (<[1 := new_task "t1" "API implementation" "feature" "medium"]>
       (<[2 := new_task "t2" "Write tests" "feature" "low"]> blank_heap)).

Definition orchestrator_priorities : Orchestrator :=
  with_active_tasks (<["t0" := 0]> (<["t1" := 1]> (<["t2" := 2]> ∅)))
    (__init__ 3 true false heap_priorities 3 clock0 uuid0).

(** The dispatch of [process_messages] on the type of a message it took
    from the queue. *)
Definition handled (message : AgentMessage) : M unit :=
  match message_type message with
  | HANDOFF => _handle_handoff message
  | QUERY => _handle_query message
  | _ => ret tt
  end.

(** What a handoff does to the task it names: [task.assigned_agent =
    message.to_agent], [task.messages.append(message)]. *)
Definition hand_over (t : Task) (message : AgentMessage) : Task :=
  set_messages (messages t ++ [message])
    (set_assigned_agent (Some (to_agent message)) t).

(** A handoff of the task with id [task_id]. *)
Definition hands_over (task_id : string) (message : AgentMessage) : Prop :=
  message_type message = HANDOFF
  /\ content message !! "task_id" = Some (PyStr task_id).

(** *** Batches that cannot finish *)

(** The dependency [d] of the task of coroutine [i] is not completed, and no
    other task of the batch has the id [d]. *)
Definition waits_for (o : Orchestrator) (i : nat) (d : string) (b : Batch)
    : Prop :=
  same_ids o b
  /\ (d ∉ completed_tasks (orch b))
  /\ (coros b !! i = Some Waiting \/ coros b !! i = Some Holding).

(** No slot is free, and every coroutine is waiting for a slot or holds one
    in its dependency loop, a dependency missing. *)
Definition slots_blocked (tasks : list ref) (b : Batch) : Prop :=
  semaphore b = 0
  /\ forall j p, coros b !! j = Some p ->
       p = Waiting
       \/ (p = Holding
           /\ exists task, tasks !! j = Some task
                /\ can_start (heap (orch b) task) (completed_tasks (orch b))
                   = false).


(** *** The task objects of a batch *)

(** What the object of a task holds in store [o'], the coroutine of the task
    being at [p], for a batch started in [o]. *)
Definition task_state (o o' : Orchestrator) (task : ref) (p : phase) : Prop :=
  match p with
  | Waiting | Holding => heap o' task = heap o task
  | Running _ =>
      status (heap o' task) = "in_progress"
      /\ result (heap o' task) = result (heap o task)
  | Done (Return r) =>
      status (heap o' task) = "completed"
      /\ result (heap o' task) = Some r
      /\ id (heap o task) ∈ completed_tasks o'
  | Done (Raise e) =>
      status (heap o' task) = "failed"
      /\ result (heap o' task) = Some {[ "error" := PyStr e ]}
  end.

Definition task_states (tasks : list ref) (o : Orchestrator) (b : Batch) : Prop :=
  same_ids o b
  /\ (forall i task p,
        tasks !! i = Some task -> coros b !! i = Some p ->
        task_state o (orch b) task p)
  /\ (forall r, r ∉ tasks -> heap (orch b) r = heap o r).

(** Two handoffs of the task that [create_task] of [orchestrator0] makes,
    waiting in the queue. *)
Definition handoff_back : AgentMessage :=
  {| from_agent := CLI_ARTISAN; to_agent := BACKEND_MASTER;
     message_type := HANDOFF; content := {[ "task_id" := PyStr "00000000" ]};
     timestamp := 1; message_id := "00000002" |}.

Definition orchestrator_handoffs : Orchestrator :=
  with_message_queue [handoff_known; handoff_back]
    (snd (create_task "Architecture task" "feature" "high" ∅ orchestrator0)).

(* ===================================================================== *)
(** * Properties *)

(** ** Strings *)

Lemma append_inj_l (s a b : string) : s ++ a = s ++ b -> a = b.
Proof.
  induction s as [|c s IH]; simpl; intros H; [exact H|].
  injection H as H. auto.
Qed.

(** ** Routing *)

Lemma mem_bugfix_refactor (ty : string) :
  Str.mem ty ["bugfix"; "refactor"]
  = String.eqb ty "bugfix" || String.eqb ty "refactor".
Proof. unfold Str.mem. simpl. now rewrite orb_false_r. Qed.

(** [assign_agent] returns the agent [route] names, whatever the state. *)
Lemma assign_agent_returns (t : Task) (o : Orchestrator) :
  fst (assign_agent t o) = Return (route t).
Proof.
  unfold assign_agent, route, type_fallback. cbn [first_match keyword_rules].
  rewrite mem_bugfix_refactor.
  repeat match goal with
  | |- context [if Str.any_in ?k ?d then _ else _] => destruct (Str.any_in k d)
  end; try reflexivity.
  destruct (String.eqb (Str.lower (type t)) "feature"); [reflexivity|].
  destruct (String.eqb _ "bugfix" || String.eqb _ "refactor"); reflexivity.
Qed.

(** [assign_agent] changes nothing but the log. *)
Lemma assign_agent_state (t : Task) (o : Orchestrator) :
  snd (assign_agent t o) = o \/
  snd (assign_agent t o)
  = with_logs (logs o ++ [(LogWarning,
      "Could not determine agent for task: " ++ description t
      ++ ", using LEAD_ARCHITECT")]) o.
Proof.
  unfold assign_agent.
  repeat match goal with
  | |- context [if ?c then _ else _] => destruct c
  end; auto.
Qed.

(** C5, as the specification words it, fails: the type is lower-cased
    before it is compared, so a task of type ["Feature"] whose description
    has no keyword goes to the backend pool, where the rule on the type as
    given ("feature", "bugfix", "refactor", otherwise the architect pool)
    names the architect pool. *)
Lemma assign_agent_type_case :
  fst (assign_agent (new_task "t1" "Add login page" "Feature" "medium")
         orchestrator0) = Return BACKEND_MASTER
  /\ route_as_specified (new_task "t1" "Add login page" "Feature" "medium")
     = LEAD_ARCHITECT
  /\ ~ (forall t o, fst (assign_agent t o) = Return (route_as_specified t)).
Proof.
  split; [reflexivity|]. split; [reflexivity|].
  intros H.
  specialize (H (new_task "t1" "Add login page" "Feature" "medium") orchestrator0).
  vm_compute in H. discriminate H.
Qed.

(** C5, amended: [assign_agent] tries the keyword rules in order on the
    lower-cased description, the first rule with a keyword that occurs in
    it wins; when none does the lower-cased type decides: "feature" gives
    the backend pool, "bugfix" and "refactor" the QA pool, anything else the
    architect pool.  The four scenarios of the specification follow. *)
Theorem assign_agent_routing :
  (forall t o, fst (assign_agent t o) = Return (route t))
  /\ (forall t, description t = "Design the system architecture" ->
        route t = LEAD_ARCHITECT)
  /\ (forall t, description t = "Implement REST API endpoint" ->
        route t = BACKEND_MASTER)
  /\ (forall t, first_match keyword_rules (Str.lower (description t)) = None ->
        type t = "bugfix" -> route t = QA_SENTINEL)
  /\ (forall t, description t = "" -> type t = "unknown" ->
        route t = LEAD_ARCHITECT).
Proof.
  split; [exact assign_agent_returns|].
  unfold route.
  split; [intros t ->; reflexivity|].
  split; [intros t ->; reflexivity|].
  split; intros t.
  - intros -> ->. reflexivity.
  - intros -> ->. reflexivity.
Qed.

Lemma assign_agent_routing_witness :
  fst (assign_agent (new_task "bug-1" "Fix login issue" "bugfix" "high")
         orchestrator0) = Return QA_SENTINEL
  /\ route (new_task "bug-1" "Fix login issue" "bugfix" "high") = QA_SENTINEL.
Proof.
  destruct assign_agent_routing as (Hret & _ & _ & Hbug & _).
  split.
  - rewrite Hret. rewrite Hbug by reflexivity. reflexivity.
  - apply Hbug; reflexivity.
Defined.

(** ** Execution of one task *)

(** Unfolding the operations of the state monad, and reducing the record
    projections that this exposes. *)
Ltac run_ops :=
  unfold write_status, write, read, logger, datetime_utcnow, uuid4_8, alloc,
    bind, ret, raise, gets, modify, await, try_except in *.

Ltac proj :=
  cbn [fst snd heap next_ref active_tasks completed_tasks message_queue
       agent_callbacks max_parallel orchestration_enabled learning_enabled
       interaction_log log_file logs history utcnow ticks uuid4 draws
       with_heap with_next_ref with_active_tasks with_completed_tasks
       with_message_queue with_agent_callbacks with_interaction_log
       with_log_file with_logs with_history with_ticks with_draws
       with_max_parallel
       id description type priority assigned_agent status metadata subtasks
       dependencies messages started_at completed_at result
       set_assigned_agent set_status set_metadata set_subtasks
       set_dependencies set_messages set_started_at set_completed_at
       set_result new_task] in *.

(** The task as the handler sees it: marked in progress, with its start
    time. *)
Lemma enter_returns (task : ref) (o : Orchestrator) :
  fst (execute_task_async_enter task o) = Return (awaited_outcome task o).
Proof.
  unfold awaited_outcome, execute_task_async_enter. run_ops. proj.
  match goal with
  | |- context [match ?c with Some _ => _ | None => _ end] => destruct c
  end; reflexivity.
Qed.

Section EnterFrame.
Variables (task : ref) (o : Orchestrator).
Let o' := snd (execute_task_async_enter task o).

Ltac enter_frame :=
  subst o'; unfold execute_task_async_enter; run_ops; proj;
  match goal with
  | |- context [match ?c with Some _ => _ | None => _ end] => destruct c
  end; proj; rewrite ?fn_lookup_insert; try reflexivity.

Lemma enter_heap_task :
  heap o' task
  = set_started_at (Some (utcnow o (ticks o)))
      (set_status "in_progress" (heap o task)).
Proof. enter_frame. Qed.

Lemma enter_heap_other (r : ref) : r <> task -> heap o' r = heap o r.
Proof. intros Hr. enter_frame; rewrite !fn_lookup_insert_ne by auto; reflexivity. Qed.

Lemma enter_completed_tasks : completed_tasks o' = completed_tasks o.
Proof. enter_frame. Qed.

Lemma enter_active_tasks : active_tasks o' = active_tasks o.
Proof. enter_frame. Qed.

Lemma enter_agent_callbacks : agent_callbacks o' = agent_callbacks o.
Proof. enter_frame. Qed.

Lemma enter_max_parallel : max_parallel o' = max_parallel o.
Proof. enter_frame. Qed.

Lemma enter_learning_enabled : learning_enabled o' = learning_enabled o.
Proof. enter_frame. Qed.

Lemma enter_history :
  history o'
  = (history o ++ [{| sw_task := task; sw_old := status (heap o task);
                      sw_new := "in_progress" |}])%list.
Proof. enter_frame. Qed.

Lemma enter_ticks : ticks o' = S (ticks o).
Proof. enter_frame. Qed.
End EnterFrame.

Section ResumeFrame.
Variables (task : ref) (o : Orchestrator).

Ltac resume_frame :=
  unfold execute_task_async_resume, _log_interaction, _save_interaction_log;
  run_ops; proj;
  try match goal with
  | |- context [if learning_enabled o then _ else _] =>
      let E := fresh "E" in
      destruct (learning_enabled o) eqn:E; proj; rewrite ?E
  end; proj; rewrite ?fn_lookup_insert; try reflexivity.

(** The handler raised [e]. *)
Section Raised.
Variable e : string.
Let o' := snd (execute_task_async_resume task (Raise e) o).

Lemma resume_raise_outcome :
  fst (execute_task_async_resume task (Raise e) o) = Raise e.
Proof. resume_frame. Qed.

Lemma resume_raise_heap_task :
  heap o' task
  = set_result (Some {[ "error" := PyStr e ]})
      (set_status "failed" (heap o task)).
Proof. subst o'. resume_frame. Qed.

Lemma resume_raise_heap_other (r : ref) :
  r <> task -> heap o' r = heap o r.
Proof.
  intros Hr. subst o'. resume_frame.
  rewrite !fn_lookup_insert_ne by auto. reflexivity.
Qed.

Lemma resume_raise_completed_tasks : completed_tasks o' = completed_tasks o.
Proof. subst o'. resume_frame. Qed.

Lemma resume_raise_active_tasks : active_tasks o' = active_tasks o.
Proof. subst o'. resume_frame. Qed.

Lemma resume_raise_agent_callbacks : agent_callbacks o' = agent_callbacks o.
Proof. subst o'. resume_frame. Qed.

Lemma resume_raise_max_parallel : max_parallel o' = max_parallel o.
Proof. subst o'. resume_frame. Qed.

Lemma resume_raise_history :
  history o'
  = (history o ++ [{| sw_task := task; sw_old := status (heap o task);
                      sw_new := "failed" |}])%list.
Proof. subst o'. resume_frame. Qed.

Lemma resume_raise_logs :
  logs o'
  = (logs o ++ [(LogError,
       ("Task " ++ id (heap o task) ++ " failed: " ++ e)%string)])%list.
Proof. subst o'. resume_frame. Qed.
End Raised.

(** The handler returned [r] (or there was none and [r] is the default). *)
Section Returned.
Variable r : dict.
Let o' := snd (execute_task_async_resume task (Return r) o).

Lemma resume_return_outcome :
  fst (execute_task_async_resume task (Return r) o) = Return r.
Proof. resume_frame. Qed.

Lemma resume_return_heap_task :
  heap o' task
  = set_result (Some r)
      (set_completed_at (Some (utcnow o (ticks o)))
         (set_status "completed" (heap o task))).
Proof. subst o'. resume_frame. Qed.

Lemma resume_return_heap_other (r' : ref) :
  r' <> task -> heap o' r' = heap o r'.
Proof.
  intros Hr. subst o'. resume_frame;
  rewrite !fn_lookup_insert_ne by auto; reflexivity.
Qed.

Lemma resume_return_completed_tasks :
  completed_tasks o' = {[ id (heap o task) ]} ∪ completed_tasks o.
Proof. subst o'. resume_frame. Qed.

Lemma resume_return_active_tasks : active_tasks o' = active_tasks o.
Proof. subst o'. resume_frame. Qed.

Lemma resume_return_agent_callbacks : agent_callbacks o' = agent_callbacks o.
Proof. subst o'. resume_frame. Qed.

Lemma resume_return_max_parallel : max_parallel o' = max_parallel o.
Proof. subst o'. resume_frame. Qed.

Lemma resume_return_history :
  history o'
  = (history o ++ [{| sw_task := task; sw_old := status (heap o task);
                      sw_new := "completed" |}])%list.
Proof. subst o'. resume_frame. Qed.
End Returned.
End ResumeFrame.

(** [execute_task_async] is its two halves, joined at the [await]. *)
Lemma execute_task_async_eq (task : ref) (o : Orchestrator) :
  execute_task_async task o
  = execute_task_async_resume task (awaited_outcome task o)
      (snd (execute_task_async_enter task o)).
Proof.
  unfold execute_task_async, bind.
  pose proof (enter_returns task o) as H.
  destruct (execute_task_async_enter task o) as [[aw|e] o1]; simpl in *;
    [injection H as <-; reflexivity | discriminate].
Qed.

(** What a failing execution leaves behind. *)
Lemma execute_task_async_raise (task : ref) (o : Orchestrator) (e : string) :
  awaited_outcome task o = Raise e ->
  let o' := snd (execute_task_async task o) in
  fst (execute_task_async task o) = Raise e
  /\ heap o' task
     = set_result (Some {[ "error" := PyStr e ]})
         (set_status "failed"
            (set_started_at (Some (utcnow o (ticks o)))
               (set_status "in_progress" (heap o task))))
  /\ (forall r, r <> task -> heap o' r = heap o r)
  /\ completed_tasks o' = completed_tasks o
  /\ active_tasks o' = active_tasks o
  /\ agent_callbacks o' = agent_callbacks o
  /\ history o'
     = (history o
        ++ [{| sw_task := task; sw_old := status (heap o task);
               sw_new := "in_progress" |};
            {| sw_task := task; sw_old := "in_progress";
               sw_new := "failed" |}])%list.
Proof.
  intros He. cbv zeta. rewrite execute_task_async_eq, He.
  rewrite resume_raise_outcome, resume_raise_heap_task,
    resume_raise_completed_tasks, resume_raise_active_tasks,
    resume_raise_agent_callbacks, resume_raise_history.
  rewrite enter_heap_task, enter_completed_tasks, enter_active_tasks,
    enter_agent_callbacks, enter_history.
  repeat split; try reflexivity.
  - intros r Hr. rewrite resume_raise_heap_other, enter_heap_other by exact Hr.
    reflexivity.
  - rewrite <- app_assoc. reflexivity.
Qed.

(** What a successful execution leaves behind. *)
Lemma execute_task_async_return (task : ref) (o : Orchestrator) (r : dict) :
  awaited_outcome task o = Return r ->
  let o' := snd (execute_task_async task o) in
  fst (execute_task_async task o) = Return r
  /\ heap o' task
     = set_result (Some r)
         (set_completed_at (Some (utcnow o (S (ticks o))))
            (set_status "completed"
               (set_started_at (Some (utcnow o (ticks o)))
                  (set_status "in_progress" (heap o task)))))
  /\ (forall r', r' <> task -> heap o' r' = heap o r')
  /\ completed_tasks o' = {[ id (heap o task) ]} ∪ completed_tasks o
  /\ active_tasks o' = active_tasks o
  /\ agent_callbacks o' = agent_callbacks o
  /\ history o'
     = (history o
        ++ [{| sw_task := task; sw_old := status (heap o task);
               sw_new := "in_progress" |};
            {| sw_task := task; sw_old := "in_progress";
               sw_new := "completed" |}])%list.
Proof.
  intros He. cbv zeta. rewrite execute_task_async_eq, He.
  rewrite resume_return_outcome, resume_return_heap_task,
    resume_return_completed_tasks, resume_return_active_tasks,
    resume_return_agent_callbacks, resume_return_history.
  rewrite enter_heap_task, enter_completed_tasks, enter_active_tasks,
    enter_agent_callbacks, enter_history, enter_ticks.
  repeat split; try reflexivity.
  - f_equal. f_equal. f_equal.
    unfold execute_task_async_enter. run_ops. proj.
    match goal with
    | |- context [match ?c with Some _ => _ | None => _ end] => destruct c
    end; reflexivity.
  - intros r' Hr. rewrite resume_return_heap_other, enter_heap_other by exact Hr.
    reflexivity.
  - rewrite <- app_assoc. reflexivity.
Qed.

(** The failing handler is what the backend task of [orchestrator_failing]
    awaits. *)
Lemma failing_awaited : awaited_outcome 0 orchestrator_failing = Raise "Test error".
Proof. reflexivity. Qed.

(** C10, as stated, fails for a task that is executed again: a task that
    completed once keeps that [completed_at] when a later execution fails,
    so the failed task has both timestamps and [_calculate_duration] returns
    a number (a negative one here: the old completion precedes the new
    start). *)
Lemma failed_task_with_duration :
  let o1 := snd (execute_task_async 0 orchestrator_ab) in
  let o2 := snd (register_agent_callback BACKEND_MASTER failing_handler o1) in
  let o3 := snd (execute_task_async 0 o2) in
  status (heap o1 0) = "completed"
  /\ awaited_outcome 0 o2 = Raise "Test error"
  /\ status (heap o3 0) = "failed"
  /\ completed_at (heap o3 0) = Some 1%Z
  /\ _calculate_duration (heap o3 0) = Some (-1)%Z.
Proof. cbv zeta. repeat split; reflexivity. Qed.

(** C10, amended: when the handler raises, the failure path sets the status
    to "failed" and the result to the error descriptor, [started_at] being
    set already; it leaves [completed_at] and the completed set as they were.
    For a task whose [completed_at] was [None] when the execution began it
    is still [None], and [_calculate_duration] returns [None]. *)
Theorem execute_task_async_failure_frame (task : ref) (o : Orchestrator)
    (e : string) :
  awaited_outcome task o = Raise e ->
  let o' := snd (execute_task_async task o) in
  status (heap o' task) = "failed"
  /\ result (heap o' task) = Some {[ "error" := PyStr e ]}
  /\ started_at (heap o' task) = Some (utcnow o (ticks o))
  /\ completed_at (heap o' task) = completed_at (heap o task)
  /\ completed_tasks o' = completed_tasks o
  /\ (completed_at (heap o task) = None ->
        completed_at (heap o' task) = None
        /\ _calculate_duration (heap o' task) = None).
Proof.
  intros He.
  destruct (execute_task_async_raise task o e He) as (_ & H2 & _ & H4 & _).
  cbv zeta in *. rewrite H2. proj. repeat split; auto.
  unfold _calculate_duration. proj. rewrite H. reflexivity.
Qed.

Lemma execute_task_async_failure_frame_witness :
  status (heap (snd (execute_task_async 0 orchestrator_failing)) 0) = "failed"
  /\ _calculate_duration (heap (snd (execute_task_async 0 orchestrator_failing)) 0)
     = None.
Proof.
  destruct (execute_task_async_failure_frame 0 orchestrator_failing "Test error"
              failing_awaited) as (H1 & _ & _ & _ & _ & H6).
  split; [exact H1|]. apply H6. reflexivity.
Defined.

(** ** Status changes *)

Lemma writes_since_app (o o' : Orchestrator) (l : list StatusWrite) :
  history o' = (history o ++ l)%list -> writes_since o o' = l.
Proof. unfold writes_since. intros ->. apply drop_app_length. Qed.

Lemma update_task_status_known (task_id s : string) (o : Orchestrator) (r : ref) :
  active_tasks o !! task_id = Some r ->
  let o' := snd (update_task_status task_id s o) in
  fst (update_task_status task_id s o) = Return (Some r)
  /\ heap o' r = set_status s (heap o r)
  /\ (forall r', r' <> r -> heap o' r' = heap o r')
  /\ active_tasks o' = active_tasks o
  /\ history o'
     = (history o ++ [{| sw_task := r; sw_old := status (heap o r);
                         sw_new := s |}])%list.
Proof.
  intros Hr. unfold update_task_status. run_ops. proj. rewrite Hr. proj.
  rewrite fn_lookup_insert. repeat split; try reflexivity.
  intros r' Hne. rewrite fn_lookup_insert_ne by auto. reflexivity.
Qed.

Lemma update_task_status_unknown (task_id s : string) (o : Orchestrator) :
  active_tasks o !! task_id = None ->
  update_task_status task_id s o = (Return None, o).
Proof.
  intros Hr. unfold update_task_status. run_ops. proj. rewrite Hr. reflexivity.
Qed.

(** C7, as stated, fails.  [update_task_status] assigns the status it is
    given, whatever the current one: on a task created by [create_task] it
    moves "pending" to "completed" at once and then "completed", a terminal
    status, back to "pending"; neither is a transition of the machine. *)
Lemma update_task_status_leaves_machine :
  let o1 := snd (create_task "Architecture task" "feature" "high" ∅ orchestrator0) in
  let o2 := snd (update_task_status "00000000" "completed" o1) in
  let o3 := snd (update_task_status "00000000" "pending" o2) in
  active_tasks o1 !! "00000000" = Some 0
  /\ writes_since o1 o2
     = [{| sw_task := 0; sw_old := "pending"; sw_new := "completed" |}]
  /\ writes_since o2 o3
     = [{| sw_task := 0; sw_old := "completed"; sw_new := "pending" |}]
  /\ status (heap o3 0) = "pending"
  /\ terminal "completed"
  /\ ~ transition "pending" "completed"
  /\ ~ transition "completed" "pending"
  /\ ~ (forall task_id s o,
          Forall (fun w => transition (sw_old w) (sw_new w))
            (writes_since o (snd (update_task_status task_id s o)))).
Proof.
  cbv zeta.
  assert (Hpc : ~ transition "pending" "completed") by (intros H; inversion H).
  assert (Hcp : ~ transition "completed" "pending") by (intros H; inversion H).
  split; [reflexivity|]. split; [reflexivity|]. split; [reflexivity|].
  split; [reflexivity|]. split; [left; reflexivity|].
  split; [exact Hpc|]. split; [exact Hcp|].
  intros H.
  specialize (H "00000000" "completed"
    (snd (create_task "Architecture task" "feature" "high" ∅ orchestrator0))).
  change (Forall (fun w => transition (sw_old w) (sw_new w))
            [{| sw_task := 0; sw_old := "pending"; sw_new := "completed" |}]) in H.
  inversion H as [|w l Hw _]. exact (Hpc Hw).
Qed.

(** C7, amended: the orchestrator has no state machine that guards the
    status.  [update_task_status] on an active id writes the status it is
    given over the current one, whatever the two are, and does nothing for
    an unknown id.  [execute_task_async] writes "in_progress" over whatever
    status the task has and then, from "in_progress", "completed" when the
    handler returns and "failed" when it raises. *)
Theorem status_writes :
  (forall task_id s o r, active_tasks o !! task_id = Some r ->
     let o' := snd (update_task_status task_id s o) in
     status (heap o' r) = s
     /\ writes_since o o'
        = [{| sw_task := r; sw_old := status (heap o r); sw_new := s |}])
  /\ (forall task_id s o, active_tasks o !! task_id = None ->
        update_task_status task_id s o = (Return None, o))
  /\ (forall task o r, awaited_outcome task o = Return r ->
        let o' := snd (execute_task_async task o) in
        status (heap o' task) = "completed"
        /\ writes_since o o'
           = [{| sw_task := task; sw_old := status (heap o task);
                 sw_new := "in_progress" |};
              {| sw_task := task; sw_old := "in_progress";
                 sw_new := "completed" |}])
  /\ (forall task o e, awaited_outcome task o = Raise e ->
        let o' := snd (execute_task_async task o) in
        status (heap o' task) = "failed"
        /\ writes_since o o'
           = [{| sw_task := task; sw_old := status (heap o task);
                 sw_new := "in_progress" |};
              {| sw_task := task; sw_old := "in_progress";
                 sw_new := "failed" |}]).
Proof.
  split; [|split; [|split]].
  - intros task_id s o r Hr.
    destruct (update_task_status_known task_id s o r Hr) as (_ & H2 & _ & _ & H5).
    cbv zeta in *. rewrite H2. split; [reflexivity|].
    apply writes_since_app. exact H5.
  - exact update_task_status_unknown.
  - intros task o r Hr.
    destruct (execute_task_async_return task o r Hr) as (_ & H2 & _ & _ & _ & _ & H7).
    cbv zeta in *. rewrite H2. split; [reflexivity|].
    apply writes_since_app. exact H7.
  - intros task o e He.
    destruct (execute_task_async_raise task o e He) as (_ & H2 & _ & _ & _ & _ & H7).
    cbv zeta in *. rewrite H2. split; [reflexivity|].
    apply writes_since_app. exact H7.
Qed.

Lemma status_writes_witness :
  status (heap (snd (execute_task_async 0 orchestrator_failing)) 0) = "failed"
  /\ writes_since orchestrator_failing (snd (execute_task_async 0 orchestrator_failing))
     = [{| sw_task := 0; sw_old := "pending"; sw_new := "in_progress" |};
        {| sw_task := 0; sw_old := "in_progress"; sw_new := "failed" |}].
Proof.
  destruct status_writes as (_ & _ & _ & H).
  exact (H 0 orchestrator_failing "Test error" failing_awaited).
Defined.

(** ** Messages *)

Lemma handoff_active (message : AgentMessage) (o : Orchestrator)
    (task_id : string) (r : ref) :
  content message !! "task_id" = Some (PyStr task_id) ->
  task_id <> "" ->
  active_tasks o !! task_id = Some r ->
  let o' := snd (_handle_handoff message o) in
  fst (_handle_handoff message o) = Return tt
  /\ heap o' r
     = set_messages (messages (heap o r) ++ [message])
         (set_assigned_agent (Some (to_agent message)) (heap o r))
  /\ (forall r', r' <> r -> heap o' r' = heap o r')
  /\ active_tasks o' = active_tasks o
  /\ logs o'
     = (logs o ++ [(LogInfo, ("Task " ++ task_id ++ " handed off to "
                              ++ agent_value (to_agent message))%string)])%list.
Proof.
  intros Hc Hne Hr. unfold _handle_handoff. cbv zeta. rewrite Hc. cbn [from_option Datatypes.id].
  assert (Ht : truthy_val (PyStr task_id) = true).
  { simpl. destruct (String.eqb_spec task_id ""); [contradiction|reflexivity]. }
  rewrite Ht. cbn [negb orb is_str str_val]. run_ops. proj. rewrite Hr. proj.
  rewrite !fn_lookup_insert. repeat split; try reflexivity.
  intros r' Hr'. rewrite !fn_lookup_insert_ne by auto. reflexivity.
Qed.

Lemma handoff_invalid (message : AgentMessage) (o : Orchestrator) :
  invalid_task_id message ->
  _handle_handoff message o
  = (Return tt,
     with_logs (logs o ++ [(LogWarning, "Invalid task_id in handoff message")]) o).
Proof.
  unfold invalid_task_id, _handle_handoff. intros H. cbv zeta.
  destruct (content message !! "task_id") as [v|]; cbn [from_option Datatypes.id].
  - destruct H as [-> | ->]; rewrite ?orb_true_r; reflexivity.
  - reflexivity.
Qed.

Lemma handoff_inactive (message : AgentMessage) (o : Orchestrator)
    (task_id : string) :
  content message !! "task_id" = Some (PyStr task_id) ->
  task_id <> "" ->
  active_tasks o !! task_id = None ->
  _handle_handoff message o = (Return tt, o).
Proof.
  intros Hc Hne Hr. unfold _handle_handoff. cbv zeta. rewrite Hc. cbn [from_option Datatypes.id].
  assert (Ht : truthy_val (PyStr task_id) = true).
  { simpl. destruct (String.eqb_spec task_id ""); [contradiction|reflexivity]. }
  rewrite Ht. cbn [negb orb is_str str_val]. run_ops. proj. rewrite Hr.
  reflexivity.
Qed.

Lemma handoff_returns (message : AgentMessage) (o : Orchestrator) :
  fst (_handle_handoff message o) = Return tt.
Proof.
  unfold _handle_handoff. cbv zeta.
  destruct (negb _ || negb _); [reflexivity|].
  run_ops. proj. destruct (active_tasks o !! _); reflexivity.
Qed.

Lemma process_loop_returns (n : nat) :
  forall acc o, exists ms, fst (process_loop n acc o) = Return ms.
Proof.
  induction n as [|n IH]; intros acc o; simpl.
  - eexists. reflexivity.
  - unfold bind at 1. unfold gets at 1.
    destruct (message_queue o) as [|message rest]; [eexists; reflexivity|].
    unfold bind at 1. unfold modify at 1. unfold bind at 1.
    set (o1 := with_message_queue rest o).
    assert (Hh : exists o2,
      (match message_type message with
       | HANDOFF => _handle_handoff message
       | QUERY => _handle_query message
       | _ => ret tt
       end) o1 = (Return tt, o2)).
    { destruct (message_type message); try (eexists; reflexivity).
      pose proof (handoff_returns message o1) as H.
      destruct (_handle_handoff message o1) as [x o2]. simpl in H. subst x.
      eexists. reflexivity. }
    destruct Hh as [o2 ->]. apply IH.
Qed.

Lemma process_messages_returns (timeout : option nat) (o : Orchestrator) :
  exists ms, fst (process_messages timeout o) = Return ms.
Proof.
  destruct timeout as [n|]; unfold process_messages.
  - apply process_loop_returns.
  - unfold bind, gets. apply process_loop_returns.
Qed.

(** A handoff at the head of the queue is handled by [_handle_handoff]
    before the loop goes on. *)
Lemma process_loop_handoff (n : nat) (acc rest : list AgentMessage)
    (message : AgentMessage) (o : Orchestrator) :
  message_queue o = message :: rest ->
  message_type message = HANDOFF ->
  process_loop (S n) acc o
  = process_loop n (acc ++ [message])
      (snd (_handle_handoff message (with_message_queue rest o))).
Proof.
  intros Hq Ht. simpl. unfold bind at 1. unfold gets at 1. rewrite Hq.
  unfold bind at 1. unfold modify at 1. unfold bind at 1. rewrite Ht.
  pose proof (handoff_returns message (with_message_queue rest o)) as H.
  destruct (_handle_handoff message (with_message_queue rest o)) as [x o2].
  simpl in H. subst x. reflexivity.
Qed.

(** C8, as stated, fails for a handoff whose task id is a string that is
    not in the active set: [_handle_handoff] has no branch for it and
    emits nothing.  For the handoff of "ghost" to a new orchestrator the
    state, log included, is unchanged, also when it is taken from the
    queue by [process_messages]. *)
Lemma handoff_unknown_is_silent :
  _handle_handoff handoff_unknown orchestrator0 = (Return tt, orchestrator0)
  /\ logs (snd (process_messages None
                  (with_message_queue [handoff_unknown] orchestrator0)))
     = logs orchestrator0
  /\ ~ (forall message o task_id,
          content message !! "task_id" = Some (PyStr task_id) ->
          active_tasks o !! task_id = None ->
          logs (snd (_handle_handoff message o)) <> logs o).
Proof.
  split; [reflexivity|]. split; [reflexivity|].
  intros H. apply (H handoff_unknown orchestrator0 "ghost"); reflexivity.
Qed.

(** C8, amended: a handoff that [process_messages] takes from the queue is
    handled by [_handle_handoff].  When its payload carries the id of a
    task in the active set, the task's assigned agent becomes the message's
    to-agent and the message is appended to the task's message log.  When
    the task id is missing, falsy or not a string, the state is unchanged
    but for a warning in the log.  When it is a string that is not in the
    active set, the state is unchanged and nothing is logged.  Neither
    [_handle_handoff] nor [process_messages] raises. *)
Theorem handoff_handling :
  (forall n acc rest message o,
     message_queue o = message :: rest -> message_type message = HANDOFF ->
     process_loop (S n) acc o
     = process_loop n (acc ++ [message])
         (snd (_handle_handoff message (with_message_queue rest o))))
  /\ (forall message o task_id r,
        content message !! "task_id" = Some (PyStr task_id) ->
        task_id <> "" ->
        active_tasks o !! task_id = Some r ->
        let o' := snd (_handle_handoff message o) in
        assigned_agent (heap o' r) = Some (to_agent message)
        /\ messages (heap o' r) = (messages (heap o r) ++ [message])%list
        /\ active_tasks o' = active_tasks o)
  /\ (forall message o, invalid_task_id message ->
        _handle_handoff message o
        = (Return tt,
           with_logs (logs o ++ [(LogWarning, "Invalid task_id in handoff message")]) o))
  /\ (forall message o task_id,
        content message !! "task_id" = Some (PyStr task_id) ->
        task_id <> "" ->
        active_tasks o !! task_id = None ->
        _handle_handoff message o = (Return tt, o))
  /\ (forall message o, fst (_handle_handoff message o) = Return tt)
  /\ (forall timeout o, exists ms, fst (process_messages timeout o) = Return ms).
Proof.
  split; [exact process_loop_handoff|].
  split.
  { intros message o task_id r Hc Hne Hr.
    destruct (handoff_active message o task_id r Hc Hne Hr) as (_ & H2 & _ & H4 & _).
    cbv zeta in *. rewrite H2. repeat split; auto. }
  split; [exact handoff_invalid|].
  split; [exact handoff_inactive|].
  split; [exact handoff_returns|exact process_messages_returns].
Qed.

Lemma handoff_handling_witness :
  let o1 := snd (create_task "Architecture task" "feature" "high" ∅ orchestrator0) in
  let o2 := snd (_handle_handoff handoff_known o1) in
  assigned_agent (heap o1 0) = Some LEAD_ARCHITECT
  /\ assigned_agent (heap o2 0) = Some QA_SENTINEL
  /\ messages (heap o2 0) = [handoff_known].
Proof.
  cbv zeta. split; [reflexivity|].
  destruct handoff_handling as (_ & H & _).
  destruct (H handoff_known
              (snd (create_task "Architecture task" "feature" "high" ∅ orchestrator0))
              "00000000" 0) as (H1 & H2 & _);
    [reflexivity | discriminate | reflexivity |].
  split; [exact H1 | exact H2].
Defined.

(** ** Decomposition *)

Lemma suffix_arch_impl (s : string) : s ++ "-arch" <> s ++ "-impl".
Proof. intros H. apply append_inj_l in H. discriminate H. Qed.

Lemma suffix_arch_test (s : string) : s ++ "-arch" <> s ++ "-test".
Proof. intros H. apply append_inj_l in H. discriminate H. Qed.

Lemma suffix_impl_test (s : string) : s ++ "-impl" <> s ++ "-test".
Proof. intros H. apply append_inj_l in H. discriminate H. Qed.

(** Setting the subtasks of one object changes no id, dependency list or
    assigned agent in the store. *)
Lemma set_subtasks_frame (h : ref -> Task) (task r : ref) (l : list ref) :
  id ((<[task := set_subtasks l (h task)]> h) r) = id (h r)
  /\ dependencies ((<[task := set_subtasks l (h task)]> h) r) = dependencies (h r)
  /\ assigned_agent ((<[task := set_subtasks l (h task)]> h) r)
     = assigned_agent (h r).
Proof.
  destruct (decide (task = r)) as [->|Hne].
  - rewrite fn_lookup_insert. repeat split; reflexivity.
  - rewrite fn_lookup_insert_ne by exact Hne. repeat split; reflexivity.
Qed.

(** C9: for a task of type "feature", [decompose_task] makes three new
    tasks with the ids "<id>-arch", "<id>-impl" and "<id>-test", of which
    the second depends on the first and the third on the second, assigned to
    the architect, backend and QA pools; it returns them in this order, makes
    them the task's subtasks and enters all three in the active set under
    their ids.  For a task of any other type it returns no subtask, sets the
    task's subtasks to the empty list and leaves the active set alone. *)
Theorem decompose_task_subtasks (task : ref) (o : Orchestrator) :
  let t := heap o task in
  let o' := snd (decompose_task task o) in
  (type t = "feature" ->
     exists arch impl test,
       fst (decompose_task task o) = Return [arch; impl; test]
       /\ subtasks (heap o' task) = [arch; impl; test]
       /\ id (heap o' arch) = id t ++ "-arch"
       /\ id (heap o' impl) = id t ++ "-impl"
       /\ id (heap o' test) = id t ++ "-test"
       /\ dependencies (heap o' arch) = []
       /\ dependencies (heap o' impl) = [id t ++ "-arch"]
       /\ dependencies (heap o' test) = [id t ++ "-impl"]
       /\ assigned_agent (heap o' arch) = Some LEAD_ARCHITECT
       /\ assigned_agent (heap o' impl) = Some BACKEND_MASTER
       /\ assigned_agent (heap o' test) = Some QA_SENTINEL
       /\ active_tasks o' !! (id t ++ "-arch") = Some arch
       /\ active_tasks o' !! (id t ++ "-impl") = Some impl
       /\ active_tasks o' !! (id t ++ "-test") = Some test)
  /\ (type t <> "feature" ->
        fst (decompose_task task o) = Return []
        /\ subtasks (heap o' task) = []
        /\ active_tasks o' = active_tasks o).
Proof.
  cbv zeta. unfold decompose_task. run_ops. proj. split.
  - intros Hty. rewrite Hty. cbn [String.eqb Ascii.eqb Bool.eqb]. proj.
    exists (next_ref o), (S (next_ref o)), (S (S (next_ref o))).
    cbn [register_subtasks]. run_ops. proj.
    set (a := next_ref o).
    assert (Hab : a <> S a) by lia.
    assert (Hac : a <> S (S a)) by lia.
    assert (Hbc : S a <> S (S a)) by lia.
    match goal with
    | |- context [<[task := set_subtasks ?l (?h task)]> ?h] =>
        destruct (set_subtasks_frame h task a l) as (Ia & Da & Aa);
        destruct (set_subtasks_frame h task (S a) l) as (Ib & Db & Ab);
        destruct (set_subtasks_frame h task (S (S a)) l) as (Ic & Dc & Ac);
        rewrite ?Ia, ?Da, ?Aa, ?Ib, ?Db, ?Ab, ?Ic, ?Dc, ?Ac;
        clear Ia Da Aa Ib Db Ab Ic Dc Ac
    end.
    repeat match goal with
    | |- context [(<[?k := ?v]> ?h) ?r] =>
        first [ rewrite (fn_lookup_insert h k v)
              | rewrite (fn_lookup_insert_ne h k r v) by lia ]
    end.
    proj.
    repeat (split; [reflexivity|]).
    split; [|split].
    + rewrite lookup_insert_ne by (apply not_eq_sym, suffix_arch_test).
      rewrite lookup_insert_ne by (apply not_eq_sym, suffix_arch_impl).
      apply lookup_insert_eq.
    + rewrite lookup_insert_ne by (apply not_eq_sym, suffix_impl_test).
      apply lookup_insert_eq.
    + apply lookup_insert_eq.
  - intros Hty.
    destruct (String.eqb_spec (type (heap o task)) "feature") as [E|_];
      [contradiction|].
    proj. cbn [register_subtasks]. run_ops. proj.
    rewrite fn_lookup_insert. repeat split; reflexivity.
Qed.

Lemma decompose_task_subtasks_witness :
  exists arch impl test,
    fst (decompose_task 0 orchestrator_ab) = Return [arch; impl; test]
    /\ id (heap (snd (decompose_task 0 orchestrator_ab)) impl) = "a-impl"
    /\ dependencies (heap (snd (decompose_task 0 orchestrator_ab)) test)
       = ["a-impl"].
Proof.
  destruct (decompose_task_subtasks 0 orchestrator_ab) as [H _].
  destruct (H eq_refl)
    as (arch & impl & test & H1 & _ & _ & H4 & _ & _ & _ & H8 & _).
  exists arch, impl, test. repeat split; assumption.
Defined.

(* ===================================================================== *)
(** ** Batches *)

(** *** Counting over the coroutines *)

Lemma length_filter_insert (P : phase -> bool) (cs : list phase) (i : nat)
    (p q : phase) :
  cs !! i = Some p ->
  length (List.filter P (<[i := q]> cs)) + (if P p then 1 else 0)
  = length (List.filter P cs) + (if P q then 1 else 0).
Proof.
  revert i. induction cs as [|c cs IH]; intros [|i] H; try discriminate.
  - injection H as ->. simpl. destruct (P p), (P q); simpl; lia.
  - simpl. specialize (IH i H). destruct (P c); simpl; lia.
Qed.

Lemma work_insert (cs : list phase) (i : nat) (p q : phase) :
  cs !! i = Some p ->
  foldr (fun p n => steps_left p + n) 0 (<[i := q]> cs) + steps_left p
  = foldr (fun p n => steps_left p + n) 0 cs + steps_left q.
Proof.
  revert i. induction cs as [|c cs IH]; intros [|i] H; try discriminate.
  - injection H as ->. simpl. lia.
  - simpl. specialize (IH i H). simpl in IH. lia.
Qed.

Lemma filter_running_holder (cs : list phase) : running cs <= holders cs.
Proof.
  unfold running, holders. induction cs as [|c cs IH]; [reflexivity|].
  destruct c; simpl; lia.
Qed.

(** *** The steps of a coroutine *)

Inductive step_kind (tasks : list ref) (i : nat) (b b' : Batch) : Prop :=
| step_acquire task :
    tasks !! i = Some task -> coros b !! i = Some Waiting ->
    semaphore b = S (semaphore b') -> orch b' = orch b ->
    coros b' = <[i := Holding]> (coros b) ->
    step_kind tasks i b b'
| step_sleep task :
    tasks !! i = Some task -> coros b !! i = Some Holding ->
    can_start (heap (orch b) task) (completed_tasks (orch b)) = false ->
    b' = b ->
    step_kind tasks i b b'
| step_start task :
    tasks !! i = Some task -> coros b !! i = Some Holding ->
    can_start (heap (orch b) task) (completed_tasks (orch b)) = true ->
    orch b' = snd (execute_task_async_enter task (orch b)) ->
    semaphore b' = semaphore b ->
    coros b' = <[i := Running (awaited_outcome task (orch b))]> (coros b) ->
    step_kind tasks i b b'
| step_finish task awaited :
    tasks !! i = Some task -> coros b !! i = Some (Running awaited) ->
    orch b' = snd (execute_task_async_resume task awaited (orch b)) ->
    semaphore b' = S (semaphore b) ->
    coros b' = <[i := Done (fst (execute_task_async_resume task awaited (orch b)))]>
                 (coros b) ->
    step_kind tasks i b b'.

Lemma step_inv (tasks : list ref) (i : nat) (b b' : Batch) :
  step tasks i b = Some b' -> step_kind tasks i b b'.
Proof.
  unfold step. intros H.
  destruct (tasks !! i) as [task|] eqn:Ht; [|discriminate].
  destruct (coros b !! i) as [[| |awaited|res]|] eqn:Hc; try discriminate.
  - destruct (semaphore b) as [|n] eqn:Hs; [discriminate|].
    injection H as <-. apply step_acquire with (task := task); simpl; auto.
  - destruct (can_start _ _) eqn:Hcs.
    + pose proof (enter_returns task (orch b)) as Hr.
      destruct (execute_task_async_enter task (orch b)) as [[aw|e] o'] eqn:He;
        simpl in Hr; [|discriminate].
      injection Hr as Hr. injection H as <-.
      apply step_start with (task := task); simpl; auto.
      * rewrite He. reflexivity.
      * rewrite Hr. reflexivity.
    + injection H as <-. apply step_sleep with (task := task); auto.
  - destruct (execute_task_async_resume task awaited (orch b)) as [res o'] eqn:He.
    injection H as <-.
    apply step_finish with (task := task) (awaited := awaited); simpl; auto;
      rewrite He; reflexivity.
Qed.

(** A property that holds when the batch starts and that every step
    preserves holds after every schedule. *)
Lemma run_invariant (tasks : list ref) (P : Batch -> Prop) :
  (forall b i b', P b -> step tasks i b = Some b' -> P b') ->
  forall schedule b, P b -> P (run tasks schedule b).
Proof.
  intros Hstep schedule. unfold run.
  induction schedule as [|i schedule IH]; intros b Hb; simpl; [exact Hb|].
  apply IH. destruct (step tasks i b) as [b'|] eqn:Hs; simpl; eauto.
Qed.

Lemma run_app (tasks : list ref) (s1 s2 : list nat) (b : Batch) :
  run tasks (s1 ++ s2) b = run tasks s2 (run tasks s1 b).
Proof. unfold run. apply fold_left_app. Qed.

(** *** The semaphore *)

Lemma holders_replicate_waiting (n : nat) : holders (replicate n Waiting) = 0.
Proof. unfold holders. induction n as [|n IH]; simpl; auto. Qed.

(** Every step keeps the slots: those free plus those held. *)
Lemma step_slots (tasks : list ref) (i : nat) (b b' : Batch) :
  step tasks i b = Some b' ->
  semaphore b' + holders (coros b') = semaphore b + holders (coros b).
Proof.
  intros H. apply step_inv in H. unfold holders.
  destruct H as [task Ht Hc Hs Ho Hcs | task Ht Hc Hcan -> | task Ht Hc Hcan Ho Hs Hcs
                | task aw Ht Hc Ho Hs Hcs]; try reflexivity; rewrite Hcs, Hs.
  - pose proof (length_filter_insert is_holder _ i _ Holding Hc) as E.
    simpl in E. lia.
  - pose proof (length_filter_insert is_holder _ i _
                  (Running (awaited_outcome task (orch b))) Hc) as E.
    simpl in E. lia.
  - pose proof (length_filter_insert is_holder _ i _
                  (Done (fst (execute_task_async_resume task aw (orch b)))) Hc) as E.
    simpl in E. lia.
Qed.

(** *** The dependency gate *)

Lemma can_start_spec (t : Task) (s : gset string) :
  can_start t s = true <-> forall d, In d (dependencies t) -> d ∈ s.
Proof.
  unfold can_start. rewrite forallb_forall. split; intros H d Hd.
  - specialize (H d Hd). apply bool_decide_eq_true in H. exact H.
  - apply bool_decide_eq_true. apply H, Hd.
Qed.

Lemma can_start_mono (t t' : Task) (s s' : gset string) :
  dependencies t' = dependencies t -> s ⊆ s' ->
  can_start t s = true -> can_start t' s' = true.
Proof.
  rewrite !can_start_spec. intros -> Hs H d Hd. apply Hs, H, Hd.
Qed.

Lemma lookup_insert_cases (cs : list phase) (i j : nat) (q p : phase) :
  (<[i := q]> cs) !! j = Some p ->
  (j = i /\ p = q) \/ (j <> i /\ cs !! j = Some p).
Proof.
  intros H. destruct (decide (i = j)) as [->|Hne].
  - left. split; [reflexivity|].
    assert (Hlt : j < length cs).
    { apply lookup_lt_Some in H. rewrite length_insert in H. exact H. }
    rewrite list_lookup_insert_eq in H by exact Hlt. congruence.
  - right. rewrite list_lookup_insert_ne in H by exact Hne. auto.
Qed.

(** What a step does to the store, the completed set and the history. *)
Lemma step_frame (tasks : list ref) (i : nat) (b b' : Batch) :
  step tasks i b = Some b' ->
  (forall r, id (heap (orch b') r) = id (heap (orch b) r)
             /\ dependencies (heap (orch b') r) = dependencies (heap (orch b) r))
  /\ completed_tasks (orch b) ⊆ completed_tasks (orch b')
  /\ (exists l, history (orch b') = (history (orch b) ++ l)%list)
  /\ max_parallel (orch b') = max_parallel (orch b).
Proof.
  intros H. apply step_inv in H.
  destruct H as [task Ht Hc Hs Ho Hcs | task Ht Hc Hcan -> | task Ht Hc Hcan Ho Hs Hcs
                | task aw Ht Hc Ho Hs Hcs].
  - rewrite Ho. repeat split; auto. exists []. now rewrite app_nil_r.
  - repeat split; auto. exists []. now rewrite app_nil_r.
  - rewrite Ho. split; [|split; [|split]].
    + intros r. destruct (decide (r = task)) as [->|Hne].
      * rewrite enter_heap_task. split; reflexivity.
      * rewrite enter_heap_other by exact Hne. split; reflexivity.
    + rewrite enter_completed_tasks. reflexivity.
    + rewrite enter_history. eexists. reflexivity.
    + apply enter_max_parallel.
  - rewrite Ho. destruct aw as [r|e]; (split; [|split; [|split]]).
    + intros r'. destruct (decide (r' = task)) as [->|Hne].
      * rewrite resume_return_heap_task. split; reflexivity.
      * rewrite resume_return_heap_other by exact Hne. split; reflexivity.
    + rewrite resume_return_completed_tasks. set_solver.
    + rewrite resume_return_history. eexists. reflexivity.
    + apply resume_return_max_parallel.
    + intros r'. destruct (decide (r' = task)) as [->|Hne].
      * rewrite resume_raise_heap_task. split; reflexivity.
      * rewrite resume_raise_heap_other by exact Hne. split; reflexivity.
    + rewrite resume_raise_completed_tasks. reflexivity.
    + rewrite resume_raise_history. eexists. reflexivity.
    + apply resume_raise_max_parallel.
Qed.

Lemma gate_invariant_start (tasks : list ref) (o : Orchestrator) :
  gate_invariant tasks o (start_batch tasks o).
Proof.
  unfold gate_invariant, same_ids, gated, completed_by. simpl.
  repeat split; auto.
  - intros i task p _ Hp Hs. apply lookup_replicate in Hp as [-> _].
    discriminate Hs.
Qed.

Lemma gate_invariant_step (tasks : list ref) (o : Orchestrator)
    (b b' : Batch) (i : nat) :
  gate_invariant tasks o b -> step tasks i b = Some b' ->
  gate_invariant tasks o b'.
Proof.
  intros (Hids & Hsub & Hgate & Hby) Hstep.
  destruct (step_frame tasks i b b' Hstep) as (Fids & Fsub & [l Fhist] & _).
  assert (Hids' : same_ids o b').
  { intros r. destruct (Fids r) as [E1 E2]. rewrite E1, E2. apply Hids. }
  assert (Hsub' : completed_tasks o ⊆ completed_tasks (orch b'))
    by (transitivity (completed_tasks (orch b)); assumption).
  split; [exact Hids'|]. split; [exact Hsub'|].
  apply step_inv in Hstep.
  destruct Hstep as [task Ht Hc Hs Ho Hcs | task Ht Hc Hcan -> | task Ht Hc Hcan Ho Hs Hcs
                    | task aw Ht Hc Ho Hs Hcs].
  - (* a slot is acquired *)
    split.
    + intros j task' p Hj Hp Hst d Hd. rewrite Hcs in Hp.
      apply lookup_insert_cases in Hp as [[-> ->] | [Hne Hp]]; [discriminate|].
      apply Fsub. eapply Hgate; eauto.
    + intros d Hd. rewrite Ho in Hd. destruct (Hby d Hd) as [Hin | (j & task' & r & old & Hj & Hp & Hid & Hh)];
        [left; exact Hin|].
      right. exists j, task', r, old. repeat split; auto.
      * rewrite Hcs. rewrite list_lookup_insert_ne; [exact Hp|].
        intros ->. congruence.
      * rewrite Fhist. apply in_or_app. left. exact Hh.
  - (* the coroutine sleeps *)
    split; assumption.
  - (* the handler is called *)
    assert (Hcomp : completed_tasks (orch b') = completed_tasks (orch b)).
    { rewrite Ho. apply enter_completed_tasks. }
    split.
    + intros j task' p Hj Hp Hst d Hd. rewrite Hcs in Hp. rewrite Hcomp.
      apply lookup_insert_cases in Hp as [[-> ->] | [Hne Hp]].
      * assert (task' = task) as -> by congruence.
        apply can_start_spec with (d := d) in Hcan; [exact Hcan|].
        destruct (Hids task) as [_ ->]. exact Hd.
      * eapply Hgate; eauto.
    + intros d Hd. rewrite Hcomp in Hd.
      destruct (Hby d Hd) as [Hin | (j & task' & r & old & Hj & Hp & Hid & Hh)];
        [left; exact Hin|].
      right. exists j, task', r, old. repeat split; auto.
      * rewrite Hcs. rewrite list_lookup_insert_ne; [exact Hp|].
        intros ->. congruence.
      * rewrite Fhist. apply in_or_app. left. exact Hh.
  - (* the handler has finished *)
    split.
    + intros j task' p Hj Hp Hst d Hd. rewrite Hcs in Hp.
      apply lookup_insert_cases in Hp as [[-> ->] | [Hne Hp]].
      * assert (task' = task) as -> by congruence.
        apply Fsub. eapply (Hgate i task (Running aw)); eauto.
      * apply Fsub. eapply Hgate; eauto.
    + intros d Hd.
      assert (Hold : d ∈ completed_tasks (orch b) ->
                d ∈ completed_tasks o
                \/ exists j task' r old,
                     tasks !! j = Some task'
                     /\ coros b' !! j = Some (Done (Return r))
                     /\ id (heap o task') = d
                     /\ In {| sw_task := task'; sw_old := old; sw_new := "completed" |}
                          (history (orch b'))).
      { intros Hd'.
        destruct (Hby d Hd') as [Hin | (j & task' & r & old & Hj & Hp & Hid & Hh)];
          [left; exact Hin|].
        right. exists j, task', r, old. repeat split; auto.
        - rewrite Hcs. rewrite list_lookup_insert_ne; [exact Hp|].
          intros ->. congruence.
        - rewrite Fhist. apply in_or_app. left. exact Hh. }
      rewrite Ho in Hd. destruct aw as [r|e].
      * rewrite resume_return_completed_tasks in Hd.
        apply elem_of_union in Hd as [Hd | Hd]; [|exact (Hold Hd)].
        apply elem_of_singleton in Hd. subst d.
        right. exists i, task, r, (status (heap (orch b) task)).
        split; [exact Ht|]. split.
        { rewrite Hcs. rewrite resume_return_outcome.
          apply list_lookup_insert_eq. apply lookup_lt_Some in Hc. exact Hc. }
        split; [symmetry; apply Hids|].
        rewrite Ho, resume_return_history. apply in_or_app. right. left. reflexivity.
      * rewrite resume_raise_completed_tasks in Hd. exact (Hold Hd).
Qed.

Lemma gate_invariant_run (tasks : list ref) (o : Orchestrator)
    (schedule : list nat) :
  gate_invariant tasks o (run tasks schedule (start_batch tasks o)).
Proof.
  apply run_invariant.
  - intros b i b' Hb Hs. exact (gate_invariant_step tasks o b b' i Hb Hs).
  - apply gate_invariant_start.
Qed.

(** With orchestration enabled, [execute_parallel] is the run of the
    coroutines followed by the collection of their results. *)
Lemma execute_parallel_enabled (schedule : list nat) (tasks : list ref)
    (o : Orchestrator) :
  orchestration_enabled o = true ->
  execute_parallel schedule tasks o
  = match gathered (coros (run tasks schedule (start_batch tasks o))) with
    | Some raw_results =>
        Some (collect raw_results []
                (orch (run tasks schedule (start_batch tasks o))))
    | None => None
    end.
Proof. intros H. unfold execute_parallel. rewrite H. reflexivity. Qed.

(** C1, as stated, fails for a task that fails after its id has been
    completed once.  In [orchestrator_rerun] task "a" has completed in an
    earlier run and its handler now raises; "b" depends on "a".  In the batch
    of the two, "a" fails, and then the handler of "b" is called and "b"
    completes: the id "a" is still in the completed set, from which nothing
    is ever taken out. *)
Lemma failed_task_satisfies_dependent :
  orchestration_enabled orchestrator_rerun = true
  /\ dependencies (heap orchestrator_rerun 1) = [id (heap orchestrator_rerun 0)]
  /\ coros (run [0; 1] [0; 0; 0; 1; 1; 1] (start_batch [0; 1] orchestrator_rerun))
     = [Done (Raise "Test error"); Done (Return default_result)]
  /\ writes_since orchestrator_rerun
       (orch (run [0; 1] [0; 0; 0; 1; 1; 1] (start_batch [0; 1] orchestrator_rerun)))
     = [ {| sw_task := 0; sw_old := "completed"; sw_new := "in_progress" |};
         {| sw_task := 0; sw_old := "in_progress"; sw_new := "failed" |};
         {| sw_task := 1; sw_old := "pending"; sw_new := "in_progress" |};
         {| sw_task := 1; sw_old := "in_progress"; sw_new := "completed" |} ]
  /\ fst <$> execute_parallel [0; 0; 0; 1; 1; 1] [0; 1] orchestrator_rerun
     = Some (Return [ {[ "error" := PyStr "Test error";
                         "status" := PyStr "failed" ]};
                      default_result ]).
Proof.
  split; [reflexivity|]. split; [reflexivity|].
  split; [vm_compute; reflexivity|]. split; vm_compute; reflexivity.
Qed.

(** C1, amended: in a batch run with orchestration enabled, whatever the
    schedule of the coroutines:
    - a task whose handler has been called (it is running or has finished)
      has every id of its dependency list in the completed set, and the step
      that calls the handler is taken only in a state in which [can_start]
      holds;
    - an id in the completed set was there when the batch started or is the
      id of a task of the batch whose coroutine returned normally, having
      written the status "completed";
    - the step in which a coroutine ends with an exception leaves the
      completed set as it was, and no step takes an id out of the set;
    - when a task has raised, its id was not completed when the batch started
      and no other task of the batch has this id, the id is not completed
      and no task that depends on it has had its handler called.
    A task whose id was completed before keeps satisfying its dependents
    when it fails. *)
Theorem dependency_gate (tasks : list ref) (o : Orchestrator)
    (schedule : list nat) :
  let b := run tasks schedule (start_batch tasks o) in
  gated tasks o b
  /\ (forall i task b' awaited,
        tasks !! i = Some task -> step tasks i b = Some b' ->
        coros b !! i = Some Holding -> coros b' !! i = Some (Running awaited) ->
        forall d, In d (dependencies (heap (orch b) task)) ->
                  d ∈ completed_tasks (orch b))
  /\ completed_by tasks o b
  /\ (forall i b' e,
        step tasks i b = Some b' -> coros b' !! i = Some (Done (Raise e)) ->
        completed_tasks (orch b') = completed_tasks (orch b))
  /\ completed_tasks o ⊆ completed_tasks (orch b)
  /\ (forall j task e,
        tasks !! j = Some task -> coros b !! j = Some (Done (Raise e)) ->
        id (heap o task) ∉ completed_tasks o ->
        only_provider tasks o j (id (heap o task)) ->
        (id (heap o task) ∉ completed_tasks (orch b))
        /\ forall i t p,
             tasks !! i = Some t ->
             In (id (heap o task)) (dependencies (heap o t)) ->
             coros b !! i = Some p -> is_started p = false).
Proof.
  cbv zeta.
  destruct (gate_invariant_run tasks o schedule) as (_ & Hsub & Hgate & Hby).
  split; [exact Hgate|]. split; [|split; [exact Hby|split; [|split; [exact Hsub|]]]].
  - intros i task b' awaited Ht Hstep Hc Hc' d Hd.
    apply step_inv in Hstep.
    destruct Hstep as [task' Ht' Hc1 Hs Ho Hcs | task' Ht' Hc1 Hcan -> | task' Ht' Hc1 Hcan Ho Hs Hcs
                      | task' aw Ht' Hc1 Ho Hs Hcs]; try congruence.
    assert (task' = task) as -> by congruence.
    apply can_start_spec with (d := d) in Hcan; assumption.
  - intros i b' e Hstep Hc'.
    apply step_inv in Hstep.
    destruct Hstep as [task' Ht' Hc1 Hs Ho Hcs | task' Ht' Hc1 Hcan -> | task' Ht' Hc1 Hcan Ho Hs Hcs
                      | task' aw Ht' Hc1 Ho Hs Hcs].
    + rewrite Ho. reflexivity.
    + reflexivity.
    + rewrite Ho. apply enter_completed_tasks.
    + rewrite Hcs in Hc'.
      rewrite list_lookup_insert_eq in Hc' by (apply lookup_lt_Some in Hc1; exact Hc1).
      destruct aw as [r|e'].
      * rewrite resume_return_outcome in Hc'. discriminate Hc'.
      * rewrite Ho. apply resume_raise_completed_tasks.
  - intros j task e Hj Hc Hnot Huniq.
    assert (Hd : id (heap o task)
                 ∉ completed_tasks (orch (run tasks schedule (start_batch tasks o)))).
    { intros Hin.
      apply Hby in Hin as [Hin | (k & task' & r & old & Hk & Hck & Hid & _)];
        [contradiction|].
      rewrite (Huniq k task' Hk Hid) in Hck. congruence. }
    split; [exact Hd|].
    intros i t p Hi Hdep Hp. destruct (is_started p) eqn:Hs; [|reflexivity].
    exfalso. apply Hd. exact (Hgate i t p Hi Hp Hs _ Hdep).
Qed.

(** In the batch [[b; a]] of [orchestrator_ab], once the coroutine of "b"
    is past its gate, "a" is in the completed set. *)
Lemma dependency_gate_witness :
  "a" ∈ completed_tasks
          (orch (run [1; 0] [0; 1; 0; 1; 1; 0; 0] (start_batch [1; 0] orchestrator_ab))).
Proof.
  destruct (dependency_gate [1; 0] orchestrator_ab [0; 1; 0; 1; 1; 0; 0]) as (Hg & _).
  apply (Hg 0 1 (Done (Return default_result))).
  - reflexivity.
  - vm_compute. reflexivity.
  - reflexivity.
  - left. reflexivity.
Defined.

(** *** Collecting the results *)

Lemma gathered_length (cs : list phase) (raw : list (outcome dict)) :
  gathered cs = Some raw -> length raw = length cs.
Proof.
  revert raw. induction cs as [|[| |aw|res] cs IH]; intros raw H; simpl in H;
    try discriminate.
  - injection H as <-. reflexivity.
  - destruct (gathered cs) as [raw'|]; [|discriminate].
    injection H as <-. simpl. f_equal. apply IH. reflexivity.
Qed.

Lemma gathered_lookup (cs : list phase) (raw : list (outcome dict)) (i : nat) :
  gathered cs = Some raw -> cs !! i = Done <$> raw !! i.
Proof.
  revert raw i. induction cs as [|[| |aw|res] cs IH]; intros raw i H; simpl in H;
    try discriminate.
  - injection H as <-. reflexivity.
  - destruct (gathered cs) as [raw'|]; [|discriminate].
    injection H as <-. destruct i as [|i]; [reflexivity|].
    simpl. apply IH. reflexivity.
Qed.

Lemma gathered_none (cs : list phase) :
  gathered cs = None -> exists i p, cs !! i = Some p /\ is_done p = false.
Proof.
  induction cs as [|p cs IH]; simpl; [discriminate|].
  destruct p as [| |aw|res]; try (intros _; exists 0; eexists; split; reflexivity).
  destruct (gathered cs) as [raw|]; [discriminate|].
  intros _. destruct (IH eq_refl) as (i & p & Hi & Hp).
  exists (S i), p. split; assumption.
Qed.

Lemma gathered_work (cs : list phase) :
  foldr (fun p n => steps_left p + n) 0 cs = 0 -> exists raw, gathered cs = Some raw.
Proof.
  induction cs as [|p cs IH]; simpl; intros H; [eexists; reflexivity|].
  destruct p as [| |aw|res]; simpl in H; try lia.
  destruct (IH H) as [raw ->]. eexists. reflexivity.
Qed.

Lemma collect_returns (raw : list (outcome dict)) :
  forall acc o,
    fst (collect raw acc o) = Return (acc ++ map final_item raw)%list.
Proof.
  induction raw as [|[d|e] raw IH]; intros acc o; simpl.
  - rewrite app_nil_r. reflexivity.
  - rewrite IH. rewrite <- app_assoc. reflexivity.
  - unfold bind, logger, modify. rewrite IH. rewrite <- app_assoc. reflexivity.
Qed.

(** *** Progress *)

Lemma batch_invariant_start (tasks : list ref) (o : Orchestrator) :
  batch_invariant tasks o (start_batch tasks o).
Proof.
  unfold batch_invariant, same_ids. simpl.
  rewrite holders_replicate_waiting, length_replicate.
  repeat split; auto; lia.
Qed.

Lemma step_length (tasks : list ref) (i : nat) (b b' : Batch) :
  step tasks i b = Some b' -> length (coros b') = length (coros b).
Proof.
  intros H. apply step_inv in H.
  destruct H as [task Ht Hc Hs Ho Hcs | task Ht Hc Hcan -> | task Ht Hc Hcan Ho Hs Hcs
                | task aw Ht Hc Ho Hs Hcs]; try reflexivity;
    rewrite Hcs; apply length_insert.
Qed.

Lemma batch_invariant_step (tasks : list ref) (o : Orchestrator)
    (b b' : Batch) (i : nat) :
  batch_invariant tasks o b -> step tasks i b = Some b' ->
  batch_invariant tasks o b'.
Proof.
  intros (Hslots & Hlen & Hids & Hsub) Hstep.
  destruct (step_frame tasks i b b' Hstep) as (Fids & Fsub & _ & _).
  repeat split.
  - rewrite (step_slots tasks i b b' Hstep). exact Hslots.
  - rewrite (step_length tasks i b b' Hstep). exact Hlen.
  - destruct (Fids r) as [E _]. rewrite E. apply Hids.
  - destruct (Fids r) as [_ E]. rewrite E. apply Hids.
  - transitivity (completed_tasks (orch b)); assumption.
Qed.

Lemma batch_invariant_run (tasks : list ref) (o : Orchestrator)
    (schedule : list nat) :
  batch_invariant tasks o (run tasks schedule (start_batch tasks o)).
Proof.
  apply run_invariant.
  - intros b i b' Hb Hs. exact (batch_invariant_step tasks o b b' i Hb Hs).
  - apply batch_invariant_start.
Qed.

Lemma no_holder (cs : list phase) :
  holders cs = 0 ->
  forall i p, cs !! i = Some p -> is_holder p = false.
Proof.
  unfold holders. induction cs as [|c cs IH]; intros H i p Hi; [discriminate|].
  simpl in H. destruct (is_holder c) eqn:Hc; [discriminate|].
  destruct i as [|i]; [injection Hi as <-; exact Hc|].
  exact (IH H i p Hi).
Qed.

Lemma some_holder (cs : list phase) :
  holders cs <> 0 -> exists i p, cs !! i = Some p /\ is_holder p = true.
Proof.
  unfold holders. induction cs as [|c cs IH]; intros H; [contradiction|].
  simpl in H. destruct (is_holder c) eqn:Hc.
  - exists 0, c. split; [reflexivity|exact Hc].
  - destruct (IH H) as (i & p & Hi & Hp). exists (S i), p. split; assumption.
Qed.

Lemma step_waiting (tasks : list ref) (i : nat) (b : Batch) (task : ref) (n : nat) :
  tasks !! i = Some task -> coros b !! i = Some Waiting -> semaphore b = S n ->
  step tasks i b
  = Some {| orch := orch b; semaphore := n;
            coros := <[i := Holding]> (coros b) |}.
Proof. intros Ht Hc Hs. unfold step. rewrite Ht, Hc, Hs. reflexivity. Qed.

Lemma step_holding (tasks : list ref) (i : nat) (b : Batch) (task : ref) :
  tasks !! i = Some task -> coros b !! i = Some Holding ->
  can_start (heap (orch b) task) (completed_tasks (orch b)) = true ->
  step tasks i b
  = Some {| orch := snd (execute_task_async_enter task (orch b));
            semaphore := semaphore b;
            coros := <[i := Running (awaited_outcome task (orch b))]> (coros b) |}.
Proof.
  intros Ht Hc Hcan. unfold step. rewrite Ht, Hc, Hcan.
  pose proof (enter_returns task (orch b)) as Hr.
  destruct (execute_task_async_enter task (orch b)) as [[aw|e] o'];
    simpl in Hr; [|discriminate].
  injection Hr as ->. reflexivity.
Qed.

Lemma step_running (tasks : list ref) (i : nat) (b : Batch) (task : ref)
    (awaited : outcome dict) :
  tasks !! i = Some task -> coros b !! i = Some (Running awaited) ->
  step tasks i b
  = Some {| orch := snd (execute_task_async_resume task awaited (orch b));
            semaphore := S (semaphore b);
            coros := <[i := Done (fst (execute_task_async_resume task awaited (orch b)))]>
                       (coros b) |}.
Proof.
  intros Ht Hc. unfold step. rewrite Ht, Hc.
  destruct (execute_task_async_resume task awaited (orch b)). reflexivity.
Qed.

(** When every dependency is already completed and there is a slot, an
    unfinished batch always has a coroutine that can take a step, and the
    step brings the batch nearer to its end. *)
Lemma progress (tasks : list ref) (o : Orchestrator) (b : Batch) :
  1 <= max_parallel o ->
  Forall (fun task => can_start (heap o task) (completed_tasks o) = true) tasks ->
  batch_invariant tasks o b ->
  gathered (coros b) = None ->
  exists i b', step tasks i b = Some b' /\ S (work_left b') = work_left b.
Proof.
  intros Hn Hdeps (Hslots & Hlen & Hids & Hsub) Hnone.
  assert (Htask : forall i p, coros b !! i = Some p -> exists task, tasks !! i = Some task).
  { intros i p Hi. apply lookup_lt_Some in Hi. rewrite Hlen in Hi.
    apply lookup_lt_is_Some in Hi. exact Hi. }
  destruct (decide (holders (coros b) = 0)) as [Hz | Hnz].
  - destruct (gathered_none _ Hnone) as (i & p & Hi & Hp).
    pose proof (no_holder _ Hz i p Hi) as Hh.
    destruct p as [| |aw|res]; try discriminate.
    destruct (Htask i _ Hi) as [task Ht].
    destruct (semaphore b) as [|n] eqn:Hs; [lia|].
    exists i. eexists. split; [apply (step_waiting tasks i b task n Ht Hi Hs)|].
    unfold work_left. simpl coros.
    pose proof (work_insert (coros b) i Waiting Holding Hi) as E. simpl in E. lia.
  - destruct (some_holder _ Hnz) as (i & p & Hi & Hp).
    destruct (Htask i _ Hi) as [task Ht].
    destruct p as [| |aw|res]; try discriminate.
    + assert (Hcan : can_start (heap (orch b) task) (completed_tasks (orch b)) = true).
      { apply can_start_mono with (t := heap o task) (s := completed_tasks o).
        - apply Hids.
        - exact Hsub.
        - rewrite Forall_lookup in Hdeps. exact (Hdeps i task Ht). }
      exists i. eexists. split; [apply (step_holding tasks i b task Ht Hi Hcan)|].
      unfold work_left. simpl coros.
      pose proof (work_insert (coros b) i Holding
                    (Running (awaited_outcome task (orch b))) Hi) as E.
      simpl in E. lia.
    + exists i. eexists. split; [apply (step_running tasks i b task aw Ht Hi)|].
      unfold work_left. simpl coros.
      pose proof (work_insert (coros b) i (Running aw)
                    (Done (fst (execute_task_async_resume task aw (orch b)))) Hi) as E.
      simpl in E. lia.
Qed.

(** Under the same conditions the batch can be brought to its end from every
    state it reaches, in as many steps as there is work left. *)
Lemma completion (tasks : list ref) (o : Orchestrator) :
  1 <= max_parallel o ->
  Forall (fun task => can_start (heap o task) (completed_tasks o) = true) tasks ->
  forall n b, batch_invariant tasks o b -> work_left b = n ->
    exists schedule raw,
      length schedule = n
      /\ gathered (coros (run tasks schedule b)) = Some raw.
Proof.
  intros Hn Hdeps. induction n as [|n IH]; intros b Hb Hw.
  - destruct (gathered_work _ Hw) as [raw Hraw]. exists [], raw. auto.
  - destruct (gathered (coros b)) as [raw|] eqn:Hg.
    + exfalso. clear IH. revert Hw. unfold work_left.
      generalize dependent raw. generalize (coros b) as cs.
      induction cs as [|[| |aw|res] cs IHcs]; intros raw Hg Hw; simpl in *;
        try discriminate.
      destruct (gathered cs) as [raw'|]; [|discriminate]. eauto.
    + destruct (progress tasks o b Hn Hdeps Hb Hg) as (i & b' & Hs & Hw').
      destruct (IH b' (batch_invariant_step tasks o b b' i Hb Hs)) as (s & raw & Hl & Hr);
        [lia|].
      exists (i :: s), raw. split; [simpl; lia|].
      unfold run in *. simpl. rewrite Hs. exact Hr.
Qed.

Lemma step_work (tasks : list ref) (i : nat) (b b' : Batch) :
  step tasks i b = Some b' ->
  b' = b \/ S (work_left b') = work_left b.
Proof.
  intros H. apply step_inv in H. unfold work_left.
  destruct H as [task Ht Hc Hs Ho Hcs | task Ht Hc Hcan -> | task Ht Hc Hcan Ho Hs Hcs
                | task aw Ht Hc Ho Hs Hcs]; [right|left; reflexivity|right|right];
    rewrite Hcs.
  - pose proof (work_insert (coros b) i Waiting Holding Hc) as E. simpl in E. lia.
  - pose proof (work_insert (coros b) i Holding
                  (Running (awaited_outcome task (orch b))) Hc) as E.
    simpl in E. lia.
  - pose proof (work_insert (coros b) i (Running aw)
                  (Done (fst (execute_task_async_resume task aw (orch b)))) Hc) as E.
    simpl in E. lia.
Qed.

Lemma run_work (tasks : list ref) (schedule : list nat) (b : Batch) :
  work_left (run tasks schedule b) <= work_left b.
Proof.
  apply (run_invariant tasks (fun b' => work_left b' <= work_left b)); [|lia].
  intros b1 i b2 Hb1 Hs. destruct (step_work tasks i b1 b2 Hs) as [-> | E]; lia.
Qed.

Lemma work_left_start (tasks : list ref) (o : Orchestrator) :
  work_left (start_batch tasks o) = 3 * length tasks.
Proof.
  unfold work_left. simpl. induction (length tasks) as [|n IH]; simpl; lia.
Qed.

(** With every dependency completed beforehand no coroutine ever sleeps:
    each step it takes is progress. *)
Lemma step_no_sleep (tasks : list ref) (o : Orchestrator) (b b' : Batch) (i : nat) :
  Forall (fun task => can_start (heap o task) (completed_tasks o) = true) tasks ->
  batch_invariant tasks o b ->
  step tasks i b = Some b' -> S (work_left b') = work_left b.
Proof.
  intros Hdeps (Hslots & Hlen & Hids & Hsub) Hs.
  pose proof Hs as Hk. apply step_inv in Hk.
  destruct Hk as [task Ht Hc Hsem Ho Hcs | task Ht Hc Hcan -> | task Ht Hc Hcan Ho Hsem Hcs
                 | task aw Ht Hc Ho Hsem Hcs].
  2:{ exfalso. rewrite Forall_lookup in Hdeps.
      pose proof (can_start_mono (heap o task) (heap (orch b) task)
                    (completed_tasks o) (completed_tasks (orch b))
                    (proj2 (Hids task)) Hsub (Hdeps i task Ht)) as E.
      congruence. }
  all: unfold work_left; rewrite Hcs.
  - pose proof (work_insert (coros b) i Waiting Holding Hc) as E. simpl in E. lia.
  - pose proof (work_insert (coros b) i Holding
                  (Running (awaited_outcome task (orch b))) Hc) as E.
    simpl in E. lia.
  - pose proof (work_insert (coros b) i (Running aw)
                  (Done (fst (execute_task_async_resume task aw (orch b)))) Hc) as E.
    simpl in E. lia.
Qed.

(** *** A failed dependency *)

Lemma awaited_outcome_callback (task : ref) (o : Orchestrator) (a : AgentType)
    (cb : Callable) :
  assigned_agent (heap o task) = Some a ->
  agent_callbacks o a = Some cb ->
  awaited_outcome task o
  = cb (set_started_at (Some (utcnow o (ticks o)))
          (set_status "in_progress" (heap o task))).
Proof.
  intros Ha Hcb. unfold awaited_outcome, execute_task_async_enter. run_ops. proj.
  rewrite fn_lookup_insert. proj. rewrite fn_lookup_insert. proj.
  rewrite Ha, Hcb. reflexivity.
Qed.

Lemma stuck_start : stuck (start_batch [0; 1] orchestrator_failing).
Proof. unfold stuck. simpl. repeat split; auto. Qed.

Lemma stuck_step (i : nat) (b b' : Batch) :
  stuck b -> step [0; 1] i b = Some b' -> stuck b'.
Proof.
  intros (Hcb & Hag & Hdep & Hcomp & H0 & H1) Hs.
  apply step_inv in Hs.
  assert (Hi : forall task, [0; 1] !! i = Some task ->
                 (i = 0 /\ task = 0) \/ (i = 1 /\ task = 1)).
  { intros task Ht. destruct i as [|[|i]]; simpl in Ht; try discriminate;
      injection Ht as <-; auto. }
  destruct Hs as [task Ht Hc Hsem Ho Hcs | task Ht Hc Hcan -> | task Ht Hc Hcan Ho Hsem Hcs
                 | task aw Ht Hc Ho Hsem Hcs].
  - (* a slot is acquired *)
    unfold stuck. rewrite Ho, Hcs. repeat split; auto.
    + destruct (Hi task Ht) as [[-> ->] | [-> ->]].
      * right. left. apply list_lookup_insert_eq. apply lookup_lt_Some in Hc. exact Hc.
      * rewrite list_lookup_insert_ne by discriminate. exact H0.
    + destruct (Hi task Ht) as [[-> ->] | [-> ->]].
      * rewrite list_lookup_insert_ne by discriminate. exact H1.
      * right. apply list_lookup_insert_eq. apply lookup_lt_Some in Hc. exact Hc.
  - (* the coroutine sleeps *)
    unfold stuck. auto 10.
  - (* the handler is called: this can only be the first task *)
    destruct (Hi task Ht) as [[-> ->] | [-> ->]].
    + unfold stuck. rewrite Ho, Hcs.
      rewrite enter_agent_callbacks, enter_heap_task, enter_completed_tasks.
      rewrite enter_heap_other by discriminate.
      rewrite (awaited_outcome_callback 0 (orch b) _ _ Hag Hcb).
      repeat split; auto.
      * right. right. left. apply list_lookup_insert_eq.
        apply lookup_lt_Some in Hc. exact Hc.
      * rewrite list_lookup_insert_ne by discriminate. exact H1.
    + exfalso. unfold can_start in Hcan. rewrite Hdep, Hcomp in Hcan.
      simpl in Hcan. discriminate Hcan.
  - (* the handler has finished: this can only be the first task, failing *)
    destruct (Hi task Ht) as [[-> ->] | [-> ->]].
    + assert (aw = Raise "Test error") as ->
        by (destruct H0 as [H0 | [H0 | [H0 | H0]]]; congruence).
      unfold stuck. rewrite Ho, Hcs.
      rewrite resume_raise_agent_callbacks, resume_raise_heap_task,
        resume_raise_completed_tasks, resume_raise_outcome.
      rewrite resume_raise_heap_other by discriminate.
      repeat split; auto.
      * right. right. right. apply list_lookup_insert_eq.
        apply lookup_lt_Some in Hc. exact Hc.
      * rewrite list_lookup_insert_ne by discriminate. exact H1.
    + exfalso. destruct H1 as [H1 | H1]; congruence.
Qed.

Lemma stuck_not_gathered (b : Batch) : stuck b -> gathered (coros b) = None.
Proof.
  intros (_ & _ & _ & _ & _ & H1).
  destruct (gathered (coros b)) as [raw|] eqn:Hg; [|reflexivity].
  pose proof (gathered_lookup _ _ 1 Hg) as E.
  destruct (raw !! 1); simpl in E; destruct H1 as [H1 | H1]; congruence.
Qed.

(** *** Batches with dependencies inside the batch *)

Lemma step_handlers (tasks : list ref) (i : nat) (b b' : Batch) :
  step tasks i b = Some b' ->
  agent_callbacks (orch b') = agent_callbacks (orch b)
  /\ forall r, assigned_agent (heap (orch b') r) = assigned_agent (heap (orch b) r).
Proof.
  intros H. apply step_inv in H.
  destruct H as [task Ht Hc Hs Ho Hcs | task Ht Hc Hcan -> | task Ht Hc Hcan Ho Hs Hcs
                | task aw Ht Hc Ho Hs Hcs].
  - rewrite Ho. split; reflexivity.
  - split; reflexivity.
  - rewrite Ho. split; [apply enter_agent_callbacks|].
    intros r. destruct (decide (r = task)) as [->|Hne].
    + rewrite enter_heap_task. reflexivity.
    + rewrite enter_heap_other by exact Hne. reflexivity.
  - rewrite Ho. destruct aw as [d|e].
    + split; [apply resume_return_agent_callbacks|].
      intros r. destruct (decide (r = task)) as [->|Hne].
      * rewrite resume_return_heap_task. reflexivity.
      * rewrite resume_return_heap_other by exact Hne. reflexivity.
    + split; [apply resume_raise_agent_callbacks|].
      intros r. destruct (decide (r = task)) as [->|Hne].
      * rewrite resume_raise_heap_task. reflexivity.
      * rewrite resume_raise_heap_other by exact Hne. reflexivity.
Qed.

Lemma awaited_outcome_returns (task : ref) (o : Orchestrator) :
  never_raises o task -> exists r, awaited_outcome task o = Return r.
Proof.
  intros H. unfold awaited_outcome, execute_task_async_enter. run_ops. proj.
  rewrite fn_lookup_insert. proj. rewrite fn_lookup_insert. proj.
  destruct (assigned_agent (heap o task)) as [a|] eqn:Ha;
    [|eexists; reflexivity].
  destruct (agent_callbacks o a) as [cb|] eqn:Hcb; [|eexists; reflexivity].
  proj. apply (H a cb Ha Hcb).
Qed.

Lemma never_raises_kept (o : Orchestrator) (b : Batch) (task : ref) :
  handlers_kept o b -> never_raises o task -> never_raises (orch b) task.
Proof.
  intros [Hcb Hag] H a cb Ha Hc. rewrite Hag in Ha. rewrite Hcb in Hc.
  exact (H a cb Ha Hc).
Qed.

Lemma live_start (tasks : list ref) (o : Orchestrator) :
  live tasks o (start_batch tasks o).
Proof.
  split; [apply batch_invariant_start|]. split; [split; reflexivity|].
  intros j task p _ _ Hp. simpl in Hp.
  apply lookup_replicate in Hp as [-> _]. exact I.
Qed.

Lemma live_step (tasks : list ref) (o : Orchestrator) (b b' : Batch) (i : nat) :
  live tasks o b -> step tasks i b = Some b' -> live tasks o b'.
Proof.
  intros (Hb & Hk & Hp) Hstep.
  pose proof (batch_invariant_step tasks o b b' i Hb Hstep) as Hb'.
  destruct (step_handlers tasks i b b' Hstep) as [Fcb Fag].
  destruct (step_frame tasks i b b' Hstep) as (_ & Fsub & _).
  assert (Hk' : handlers_kept o b').
  { destruct Hk as [Hcb Hag]. split; [rewrite Fcb; exact Hcb|].
    intros r. rewrite Fag. apply Hag. }
  split; [exact Hb'|]. split; [exact Hk'|].
  destruct Hb as (_ & _ & Hids & _).
  apply step_inv in Hstep.
  destruct Hstep as [task Ht Hc Hs Ho Hcs | task Ht Hc Hcan -> | task Ht Hc Hcan Ho Hs Hcs
                    | task aw Ht Hc Ho Hs Hcs].
  - intros j t p Hj Hn Hpj. rewrite Hcs in Hpj.
    destruct (decide (j = i)) as [->|Hne].
    + rewrite list_lookup_insert_eq in Hpj by (apply lookup_lt_Some in Hc; exact Hc).
      injection Hpj as <-. exact I.
    + rewrite list_lookup_insert_ne in Hpj by auto.
      rewrite Ho. exact (Hp j t p Hj Hn Hpj).
  - exact Hp.
  - intros j t p Hj Hn Hpj. rewrite Hcs in Hpj.
    destruct (decide (j = i)) as [->|Hne].
    + rewrite list_lookup_insert_eq in Hpj by (apply lookup_lt_Some in Hc; exact Hc).
      injection Hpj as <-. rewrite Ht in Hj. injection Hj as <-.
      apply awaited_outcome_returns. apply (never_raises_kept o b); assumption.
    + rewrite list_lookup_insert_ne in Hpj by auto.
      pose proof (Hp j t p Hj Hn Hpj) as H.
      destruct p as [| |aw'|res]; try exact H.
      destruct H as [H1 H2]. split; [exact H1|]. apply Fsub. exact H2.
  - intros j t p Hj Hn Hpj. rewrite Hcs in Hpj.
    destruct (decide (j = i)) as [->|Hne].
    + rewrite list_lookup_insert_eq in Hpj by (apply lookup_lt_Some in Hc; exact Hc).
      injection Hpj as <-. rewrite Ht in Hj. injection Hj as <-.
      destruct (Hp i task (Running aw) Ht Hn Hc) as [r ->].
      rewrite resume_return_outcome. split; [exists r; reflexivity|].
      rewrite Ho, resume_return_completed_tasks.
      apply elem_of_union_l, elem_of_singleton.
      destruct (Hids task) as [E _]. symmetry. exact E.
    + rewrite list_lookup_insert_ne in Hpj by auto.
      pose proof (Hp j t p Hj Hn Hpj) as H.
      destruct p as [| |aw'|res]; try exact H.
      destruct H as [H1 H2]. split; [exact H1|]. apply Fsub. exact H2.
Qed.

Lemma live_run (tasks : list ref) (o : Orchestrator) (schedule : list nat) :
  live tasks o (run tasks schedule (start_batch tasks o)).
Proof.
  apply run_invariant.
  - intros b i b' Hb Hs. exact (live_step tasks o b b' i Hb Hs).
  - apply live_start.
Qed.

Lemma ready_step (tasks : list ref) (b : Batch) (i : nat) :
  ready tasks b i = true ->
  exists b', step tasks i b = Some b' /\ S (work_left b') = work_left b.
Proof.
  unfold ready. intros H.
  destruct (tasks !! i) as [task|] eqn:Ht; [|discriminate].
  destruct (coros b !! i) as [[| |aw|res]|] eqn:Hc; try discriminate.
  - destruct (semaphore b) as [|n] eqn:Hs; [discriminate|].
    eexists. split; [apply (step_waiting tasks i b task n Ht Hc Hs)|].
    unfold work_left. simpl coros.
    pose proof (work_insert (coros b) i Waiting Holding Hc) as E. simpl in E. lia.
  - eexists. split; [apply (step_holding tasks i b task Ht Hc H)|].
    unfold work_left. simpl coros.
    pose proof (work_insert (coros b) i Holding
                  (Running (awaited_outcome task (orch b))) Hc) as E.
    simpl in E. lia.
  - eexists. split; [apply (step_running tasks i b task aw Ht Hc)|].
    unfold work_left. simpl coros.
    pose proof (work_insert (coros b) i (Running aw)
                  (Done (fst (execute_task_async_resume task aw (orch b)))) Hc) as E.
    simpl in E. lia.
Qed.

Lemma find_ready (tasks : list ref) (b : Batch) :
  (exists i, ready tasks b i = true) \/ (forall i, ready tasks b i = false).
Proof.
  destruct (existsb (ready tasks b) (seq 0 (length tasks))) eqn:E.
  - apply existsb_exists in E as (i & _ & Hi). left. exists i. exact Hi.
  - right. intros i. destruct (ready tasks b i) eqn:Hr; [|reflexivity].
    assert (Hex : existsb (ready tasks b) (seq 0 (length tasks)) = true).
    { apply existsb_exists. exists i. split; [|exact Hr].
      apply in_seq. split; [lia|]. simpl.
      unfold ready in Hr. destruct (tasks !! i) as [task|] eqn:Ht; [|discriminate].
      apply lookup_lt_Some in Ht. exact Ht. }
    congruence.
Qed.

Lemma can_start_false (t : Task) (s : gset string) :
  can_start t s = false -> exists d, In d (dependencies t) /\ d ∉ s.
Proof.
  unfold can_start. induction (dependencies t) as [|d l IH]; simpl; [discriminate|].
  intros H. apply andb_false_iff in H as [H | H].
  - exists d. split; [left; reflexivity|].
    apply bool_decide_eq_false in H. exact H.
  - destruct (IH H) as (d' & Hin & Hd'). exists d'. split; [right; exact Hin|exact Hd'].
Qed.

Lemma holders_le_outstanding (o : Orchestrator) (cs : list phase) :
  forall tasks,
    length cs = length tasks ->
    (forall i p task, cs !! i = Some p -> tasks !! i = Some task ->
       is_holder p = true -> outstanding o task = true) ->
    holders cs <= length (List.filter (outstanding o) tasks).
Proof.
  unfold holders. induction cs as [|c cs IH]; intros [|task tasks] Hlen H;
    simpl in *; try lia.
  assert (Hrest : length (List.filter is_holder cs)
                  <= length (List.filter (outstanding o) tasks)).
  { apply IH; [lia|]. intros i p t Hi Ht Hp. exact (H (S i) p t Hi Ht Hp). }
  destruct (is_holder c) eqn:Hc.
  - rewrite (H 0 c task eq_refl eq_refl Hc). simpl. lia.
  - destruct (outstanding o task); simpl; lia.
Qed.

(** With fewer tasks waiting for a dependency than there are slots, and
    dependencies that tasks of the batch provide in an order without circle,
    an unfinished batch always has a coroutine that can take a step other
    than a sleep. *)
Lemma progress_ranked (tasks : list ref) (o : Orchestrator) (rank : nat -> nat)
    (b : Batch) :
  length (List.filter (outstanding o) tasks) < max_parallel o ->
  provided tasks o rank ->
  live tasks o b ->
  gathered (coros b) = None ->
  exists i b', step tasks i b = Some b' /\ S (work_left b') = work_left b.
Proof.
  intros Hm Hprov ((Hslots & Hlen & Hids & Hsub) & Hk & Hp) Hnone.
  destruct (find_ready tasks b) as [[i Hi] | Hno].
  { exists i. apply ready_step, Hi. }
  exfalso.
  assert (Htask : forall i p, coros b !! i = Some p -> exists task, tasks !! i = Some task).
  { intros i p Hi. apply lookup_lt_Some in Hi. rewrite Hlen in Hi.
    apply lookup_lt_is_Some in Hi. exact Hi. }
  assert (Hrun : forall i aw, coros b !! i <> Some (Running aw)).
  { intros i aw Hi. destruct (Htask i _ Hi) as [task Ht].
    specialize (Hno i). unfold ready in Hno. rewrite Ht, Hi in Hno. discriminate. }
  assert (Hhold : forall i task, tasks !! i = Some task -> coros b !! i = Some Holding ->
            can_start (heap (orch b) task) (completed_tasks (orch b)) = false).
  { intros i task Ht Hi. specialize (Hno i). unfold ready in Hno.
    rewrite Ht, Hi in Hno. exact Hno. }
  assert (Hsem : semaphore b <> 0).
  { assert (holders (coros b) <= length (List.filter (outstanding o) tasks)); [|lia].
    apply holders_le_outstanding; [exact Hlen|].
    intros i p task Hi Ht Hh. destruct p as [| |aw|res]; try discriminate.
    - unfold outstanding.
      destruct (can_start (heap o task) (completed_tasks o)) eqn:Hcan; [|reflexivity].
      pose proof (can_start_mono (heap o task) (heap (orch b) task)
                    (completed_tasks o) (completed_tasks (orch b))
                    (proj2 (Hids task)) Hsub Hcan) as E.
      rewrite (Hhold i task Ht Hi) in E. discriminate E.
    - exfalso. exact (Hrun i aw Hi). }
  assert (Hwait : forall i, coros b !! i <> Some Waiting).
  { intros i Hi. destruct (Htask i _ Hi) as [task Ht].
    specialize (Hno i). unfold ready in Hno. rewrite Ht, Hi in Hno.
    apply negb_false_iff, Nat.eqb_eq in Hno. contradiction. }
  assert (Hdone : forall n i p, rank i < n -> coros b !! i = Some p ->
            exists res, p = Done res).
  { induction n as [|n IH]; intros i p Hr Hi; [lia|].
    destruct p as [| |aw|res].
    - exfalso. exact (Hwait i Hi).
    - exfalso. destruct (Htask i _ Hi) as [task Ht].
      destruct (can_start_false _ _ (Hhold i task Ht Hi)) as (d & Hd & Hnot).
      destruct (Hids task) as [_ Edeps]. rewrite Edeps in Hd.
      destruct (Hprov i task d Ht Hd) as [Hin | (j & task_j & Hj & Hid & Hlt & Hnr)].
      + apply Hnot, Hsub, Hin.
      + assert (Hjl : j < length (coros b))
          by (rewrite Hlen; apply lookup_lt_Some in Hj; exact Hj).
        destruct (lookup_lt_is_Some_2 _ _ Hjl) as [pj Hpj].
        destruct (IH j pj ltac:(lia) Hpj) as [res ->].
        destruct (Hp j task_j (Done res) Hj Hnr Hpj) as [_ Hc].
        apply Hnot. rewrite <- Hid. exact Hc.
    - exfalso. exact (Hrun i aw Hi).
    - exists res. reflexivity. }
  destruct (gathered_none _ Hnone) as (i & p & Hi & Hpd).
  destruct (Hdone (S (rank i)) i p ltac:(lia) Hi) as [res ->]. discriminate Hpd.
Qed.

Lemma gathered_work_zero (cs : list phase) (raw : list (outcome dict)) :
  gathered cs = Some raw -> foldr (fun p n => steps_left p + n) 0 cs = 0.
Proof.
  revert raw. induction cs as [|[| |aw|res] cs IH]; intros raw H; simpl in *;
    try discriminate; [reflexivity|].
  destruct (gathered cs) as [raw'|]; [|discriminate]. eauto.
Qed.

Lemma completion_ranked (tasks : list ref) (o : Orchestrator) (rank : nat -> nat) :
  length (List.filter (outstanding o) tasks) < max_parallel o ->
  provided tasks o rank ->
  forall n b, live tasks o b -> work_left b = n ->
    exists schedule raw,
      length schedule = n
      /\ gathered (coros (run tasks schedule b)) = Some raw.
Proof.
  intros Hm Hprov. induction n as [|n IH]; intros b Hb Hw.
  - destruct (gathered_work _ Hw) as [raw Hraw]. exists [], raw. auto.
  - destruct (gathered (coros b)) as [raw|] eqn:Hg.
    + exfalso. apply gathered_work_zero in Hg. unfold work_left in Hw. lia.
    + destruct (progress_ranked tasks o rank b Hm Hprov Hb Hg) as (i & b' & Hs & Hw').
      destruct (IH b' (live_step tasks o b b' i Hb Hs)) as (s & raw & Hl & Hr);
        [lia|].
      exists (i :: s), raw. split; [simpl; lia|].
      unfold run in *. simpl. rewrite Hs. exact Hr.
Qed.

(** *** A dependency whose only task has failed *)

Lemma starved_step (tasks : list ref) (o : Orchestrator) (i j : nat)
    (t : ref) (d e : string) (b b' : Batch) (k : nat) :
  tasks !! i = Some t ->
  In d (dependencies (heap o t)) ->
  only_provider tasks o j d ->
  starved o i j d e b -> step tasks k b = Some b' -> starved o i j d e b'.
Proof.
  intros Hi Hd Huniq (Hids & Hnot & Hj & Hph) Hstep.
  destruct (step_frame tasks k b b' Hstep) as (Fids & _).
  assert (Hids' : same_ids o b').
  { intros r. destruct (Fids r) as [E1 E2]. rewrite E1, E2. apply Hids. }
  split; [exact Hids'|].
  assert (Hkj : k <> j).
  { intros ->. unfold step in Hstep. rewrite Hj in Hstep.
    destruct (tasks !! j); discriminate Hstep. }
  apply step_inv in Hstep.
  destruct Hstep as [task Ht Hc Hsem Ho Hcs | task Ht Hc Hcan -> | task Ht Hc Hcan Ho Hsem Hcs
                    | task aw Ht Hc Ho Hsem Hcs].
  - rewrite Ho, Hcs. split; [exact Hnot|].
    rewrite list_lookup_insert_ne by exact Hkj. split; [exact Hj|].
    destruct (decide (k = i)) as [->|Hne].
    + right. apply list_lookup_insert_eq. apply lookup_lt_Some in Hc. exact Hc.
    + rewrite list_lookup_insert_ne by exact Hne. exact Hph.
  - repeat split; assumption.
  - assert (Hne : k <> i).
    { intros ->. rewrite Hi in Ht. injection Ht as <-.
      apply can_start_spec with (d := d) in Hcan; [contradiction|].
      destruct (Hids t) as [_ E]. rewrite E. exact Hd. }
    rewrite Ho, Hcs, enter_completed_tasks. split; [exact Hnot|].
    rewrite !list_lookup_insert_ne by auto. split; assumption.
  - assert (Hne : k <> i) by (intros ->; destruct Hph as [H | H]; congruence).
    rewrite Ho, Hcs. split.
    + destruct aw as [r|e'].
      * rewrite resume_return_completed_tasks.
        intros Hin. apply elem_of_union in Hin as [Hin | Hin]; [|contradiction].
        apply elem_of_singleton in Hin.
        apply Hkj. apply (Huniq k task Ht).
        destruct (Hids task) as [E _]. rewrite <- E. symmetry. exact Hin.
      * rewrite resume_raise_completed_tasks. exact Hnot.
    + rewrite !list_lookup_insert_ne by auto. split; assumption.
Qed.

(** Once the only task that could complete a dependency has raised, the id
    is not completed and the tasks that depend on it have not started. *)
Lemma failed_provider (tasks : list ref) (o : Orchestrator)
    (schedule : list nat) (j : nat) (d e : string) :
  d ∉ completed_tasks o ->
  only_provider tasks o j d ->
  coros (run tasks schedule (start_batch tasks o)) !! j = Some (Done (Raise e)) ->
  (d ∉ completed_tasks (orch (run tasks schedule (start_batch tasks o))))
  /\ forall i t p,
       tasks !! i = Some t -> In d (dependencies (heap o t)) ->
       coros (run tasks schedule (start_batch tasks o)) !! i = Some p ->
       is_started p = false.
Proof.
  intros Hnot Huniq Hj.
  destruct (gate_invariant_run tasks o schedule) as (_ & _ & Hgate & Hby).
  assert (Hd : d ∉ completed_tasks (orch (run tasks schedule (start_batch tasks o)))).
  { intros Hin. apply Hby in Hin as [Hin | (k & task & r & old & Hk & Hc & Hid & _)];
      [contradiction|].
    rewrite (Huniq k task Hk Hid) in Hc. congruence. }
  split; [exact Hd|].
  intros i t p Hi Hdep Hp. destruct (is_started p) eqn:Hs; [|reflexivity].
  exfalso. apply Hd. exact (Hgate i t p Hi Hp Hs d Hdep).
Qed.

Lemma failed_provider_blocks (tasks : list ref) (o : Orchestrator)
    (schedule : list nat) (i j : nat) (t : ref) (d e : string) :
  tasks !! i = Some t ->
  In d (dependencies (heap o t)) ->
  d ∉ completed_tasks o ->
  only_provider tasks o j d ->
  coros (run tasks schedule (start_batch tasks o)) !! j = Some (Done (Raise e)) ->
  forall schedule',
    gathered (coros (run tasks (schedule ++ schedule') (start_batch tasks o)))
    = None.
Proof.
  intros Hi Hdep Hnot Huniq Hj schedule'.
  destruct (failed_provider tasks o schedule j d e Hnot Huniq Hj) as [Hd Hns].
  destruct (batch_invariant_run tasks o schedule) as (_ & Hlen & Hids & _).
  set (b := run tasks schedule (start_batch tasks o)) in *.
  assert (Hst : starved o i j d e b).
  { split; [exact Hids|]. split; [exact Hd|]. split; [exact Hj|].
    assert (Hil : i < length (coros b))
      by (rewrite Hlen; apply lookup_lt_Some in Hi; exact Hi).
    destruct (lookup_lt_is_Some_2 _ _ Hil) as [p Hp].
    pose proof (Hns i t p Hi Hdep Hp) as Hs.
    destruct p as [| |aw|res]; try discriminate Hs; auto. }
  rewrite run_app. fold b.
  assert (H : starved o i j d e (run tasks schedule' b)).
  { apply run_invariant; [|exact Hst].
    intros b1 k b2 Hb1 Hs.
    exact (starved_step tasks o i j t d e b1 b2 k Hi Hdep Huniq Hb1 Hs). }
  destruct H as (_ & _ & _ & Hph).
  destruct (gathered (coros (run tasks schedule' b))) as [raw|] eqn:Hg; [|reflexivity].
  pose proof (gathered_lookup _ _ i Hg) as E.
  destruct (raw !! i); simpl in E; destruct Hph as [H | H]; congruence.
Qed.

(** C4, as stated, fails when a dependency fails.  On [orchestrator_failing]
    the handler of task "a" raises and task "b" depends on "a": under no
    schedule of the coroutines does [execute_parallel] return for the batch
    of the two; the coroutine of "b" stays in its dependency loop. *)
Lemma failed_dependency_blocks :
  orchestration_enabled orchestrator_failing = true
  /\ awaited_outcome 0 orchestrator_failing = Raise "Test error"
  /\ dependencies (heap orchestrator_failing 1) = [id (heap orchestrator_failing 0)]
  /\ ~ (exists schedule r,
          execute_parallel schedule [0; 1] orchestrator_failing = Some r).
Proof.
  split; [reflexivity|]. split; [reflexivity|]. split; [reflexivity|].
  intros (schedule & r & H).
  rewrite execute_parallel_enabled in H by reflexivity.
  rewrite stuck_not_gathered in H; [discriminate|].
  apply (run_invariant [0; 1] stuck).
  - intros b i b' Hb Hs. exact (stuck_step i b b' Hb Hs).
  - exact stuck_start.
Qed.

(** C4, amended: with orchestration enabled, when [execute_parallel]
    returns it returns a list with one entry per input task, in input order:
    the result of the task's coroutine, or the descriptor [{"error": message,
    "status": "failed"}] when the coroutine raised; a failure aborts nothing.
    The call does return
    - when [max_parallel] is at least 1 and every dependency of every task
      is in the completed set when the batch starts: no coroutine ever
      sleeps then;
    - more generally, when fewer tasks than there are slots have a
      dependency that is not completed when the batch starts, and each such
      dependency is the id of a task of the batch whose handler does not
      raise, the dependencies going down along some rank of the tasks:
    from every state the run reaches, at most three steps per task bring
    the batch to its end.
    Nothing detects a dependency that cannot be completed any more: once the
    only task of the batch with the id of a dependency that was not completed
    has raised, the tasks that depend on it stay in their loop and the call
    does not return under any continuation of the schedule. *)
Theorem execute_parallel_results (tasks : list ref) (o : Orchestrator) :
  orchestration_enabled o = true ->
  (forall schedule res o',
     execute_parallel schedule tasks o = Some (res, o') ->
     exists raw,
       gathered (coros (run tasks schedule (start_batch tasks o))) = Some raw
       /\ res = Return (map final_item raw)
       /\ length (map final_item raw) = length tasks
       /\ forall i, coros (run tasks schedule (start_batch tasks o)) !! i
                    = Done <$> raw !! i)
  /\ (1 <= max_parallel o ->
      Forall (fun task => can_start (heap o task) (completed_tasks o) = true) tasks ->
      (forall schedule, exists schedule' results o',
         length schedule' <= 3 * length tasks
         /\ execute_parallel (schedule ++ schedule') tasks o
            = Some (Return results, o')
         /\ length results = length tasks)
      /\ (forall schedule i b',
            step tasks i (run tasks schedule (start_batch tasks o)) = Some b' ->
            S (work_left b') = work_left (run tasks schedule (start_batch tasks o))))
  /\ (forall rank,
        length (List.filter (outstanding o) tasks) < max_parallel o ->
        provided tasks o rank ->
        forall schedule, exists schedule' results o',
          length schedule' <= 3 * length tasks
          /\ execute_parallel (schedule ++ schedule') tasks o
             = Some (Return results, o')
          /\ length results = length tasks)
  /\ (forall schedule i j t d e,
        tasks !! i = Some t -> In d (dependencies (heap o t)) ->
        d ∉ completed_tasks o -> only_provider tasks o j d ->
        coros (run tasks schedule (start_batch tasks o)) !! j
        = Some (Done (Raise e)) ->
        forall schedule', execute_parallel (schedule ++ schedule') tasks o = None).
Proof.
  intros Hen.
  assert (Hfinish : forall schedule schedule' raw,
            gathered (coros (run tasks schedule'
                               (run tasks schedule (start_batch tasks o))))
            = Some raw ->
            exists results o',
              execute_parallel (schedule ++ schedule') tasks o
              = Some (Return results, o')
              /\ length results = length tasks).
  { intros schedule schedule' raw Hg.
    exists (map final_item raw),
      (snd (collect raw [] (orch (run tasks schedule'
                                    (run tasks schedule (start_batch tasks o)))))).
    split.
    - rewrite execute_parallel_enabled by exact Hen.
      rewrite run_app, Hg. f_equal.
      pose proof (collect_returns raw []
                    (orch (run tasks schedule'
                             (run tasks schedule (start_batch tasks o))))) as Hc.
      destruct (collect raw [] _) as [x y]. simpl in *. subst x. reflexivity.
    - rewrite length_map, (gathered_length _ _ Hg).
      pose proof (batch_invariant_run tasks o (schedule ++ schedule')) as (_ & Hl & _).
      rewrite run_app in Hl. exact Hl. }
  assert (Hbound : forall schedule,
            work_left (run tasks schedule (start_batch tasks o)) <= 3 * length tasks).
  { intros schedule.
    pose proof (run_work tasks schedule (start_batch tasks o)) as Hw.
    rewrite work_left_start in Hw. exact Hw. }
  split; [|split; [|split]].
  - intros schedule res o' H. rewrite execute_parallel_enabled in H by exact Hen.
    destruct (gathered (coros (run tasks schedule (start_batch tasks o))))
      as [raw|] eqn:Hg; [|discriminate].
    exists raw. split; [reflexivity|].
    pose proof (collect_returns raw [] (orch (run tasks schedule (start_batch tasks o)))) as Hc.
    injection H as H. rewrite H in Hc. simpl in Hc.
    split; [exact Hc|]. split.
    + rewrite length_map, (gathered_length _ _ Hg).
      destruct (batch_invariant_run tasks o schedule) as (_ & Hlen & _). exact Hlen.
    + intros i. apply gathered_lookup. exact Hg.
  - intros Hn Hdeps. split.
    + intros schedule.
      destruct (completion tasks o Hn Hdeps _ _
                  (batch_invariant_run tasks o schedule) eq_refl)
        as (schedule' & raw & Hlen & Hg).
      destruct (Hfinish schedule schedule' raw Hg) as (results & o' & H1 & H2).
      exists schedule', results, o'.
      split; [rewrite Hlen; apply Hbound|]. split; assumption.
    + intros schedule i b' Hs.
      exact (step_no_sleep tasks o _ b' i Hdeps
               (batch_invariant_run tasks o schedule) Hs).
  - intros rank Hm Hprov schedule.
    destruct (completion_ranked tasks o rank Hm Hprov _ _
                (live_run tasks o schedule) eq_refl)
      as (schedule' & raw & Hlen & Hg).
    destruct (Hfinish schedule schedule' raw Hg) as (results & o' & H1 & H2).
    exists schedule', results, o'.
    split; [rewrite Hlen; apply Hbound|]. split; assumption.
  - intros schedule i j t d e Hi Hd Hnot Huniq Hj schedule'.
    rewrite execute_parallel_enabled by exact Hen.
    rewrite (failed_provider_blocks tasks o schedule i j t d e Hi Hd Hnot Huniq Hj).
    reflexivity.
Qed.

(** Three instances: the failing task alone; the scenario of the
    specification, "b" before "a" on which it depends, with three slots,
    after "b" has taken a slot; and "a" failing with "b" depending on it. *)
Lemma execute_parallel_results_witness :
  (exists schedule' results o',
     length schedule' <= 3
     /\ execute_parallel ([] ++ schedule') [0] orchestrator_failing
        = Some (Return results, o')
     /\ length results = 1)
  /\ (exists schedule' results o',
        length schedule' <= 6
        /\ execute_parallel ([0] ++ schedule') [1; 0] orchestrator_ab
           = Some (Return results, o')
        /\ length results = 2)
  /\ execute_parallel ([0; 0; 0] ++ [1; 1; 1]) [0; 1] orchestrator_failing = None.
Proof.
  split; [|split].
  - destruct (execute_parallel_results [0] orchestrator_failing eq_refl)
      as (_ & H & _).
    assert (H1 : 1 <= max_parallel orchestrator_failing) by (vm_compute; lia).
    assert (H2 : Forall (fun task => can_start (heap orchestrator_failing task)
                                       (completed_tasks orchestrator_failing) = true) [0])
      by (constructor; [reflexivity|constructor]).
    destruct (H H1 H2) as [H3 _]. exact (H3 []).
  - destruct (execute_parallel_results [1; 0] orchestrator_ab eq_refl)
      as (_ & _ & H & _).
    apply (H (fun i => 1 - i)).
    + vm_compute. lia.
    + intros [|[|i]] task d Hi Hd; simpl in Hi; try discriminate Hi;
        injection Hi as <-.
      * right. exists 1, 0. destruct Hd as [<- | []].
        split; [reflexivity|]. split; [reflexivity|]. split; [simpl; lia|].
        intros a cb _ Hcb. discriminate Hcb.
      * destruct Hd.
  - destruct (execute_parallel_results [0; 1] orchestrator_failing eq_refl)
      as (_ & _ & _ & H).
    apply (H [0; 0; 0] 1 0 1 "a" "Test error").
    + reflexivity.
    + left. reflexivity.
    + vm_compute. intros E. discriminate E.
    + intros [|[|k]] task Hk Hid; simpl in Hk; try discriminate Hk;
        [reflexivity|].
      injection Hk as <-. vm_compute in Hid. discriminate Hid.
    + vm_compute. reflexivity.
Defined.

(** The failing task alone, under the schedule that lets its coroutine take
    its three steps: the batch returns the failure descriptor. *)
Example failing_task_is_reported :
  fst <$> execute_parallel [0; 0; 0] [0] orchestrator_failing
  = Some (Return [ {[ "error" := PyStr "Test error"; "status" := PyStr "failed" ]} ]).
Proof. reflexivity. Qed.

(** The scenario of the specification: "b" depends on "a", both handlers
    return, the batch is [[b; a]] and there are three slots.  Under the
    schedule below both complete, "a" first. *)
Example batch_b_a_completes :
  let r := execute_parallel [0; 1; 0; 1; 1; 0; 0] [1; 0] orchestrator_ab in
  fst <$> r = Some (Return [default_result; default_result])
  /\ (history ∘ snd) <$> r
     = Some [ {| sw_task := 0; sw_old := "pending"; sw_new := "in_progress" |};
              {| sw_task := 0; sw_old := "in_progress"; sw_new := "completed" |};
              {| sw_task := 1; sw_old := "pending"; sw_new := "in_progress" |};
              {| sw_task := 1; sw_old := "in_progress"; sw_new := "completed" |} ].
Proof. cbv zeta. split; reflexivity. Qed.

(** *** Orchestration disabled *)

(** [max_parallel] plays no part in the execution of a task. *)
Lemma execute_task_async_max_parallel (n : nat) (task : ref) (o : Orchestrator) :
  execute_task_async task (with_max_parallel n o)
  = (fst (execute_task_async task o),
     with_max_parallel n (snd (execute_task_async task o))).
Proof.
  unfold execute_task_async, execute_task_async_enter, execute_task_async_resume,
    _log_interaction, _save_interaction_log.
  run_ops. proj. rewrite !fn_lookup_insert. proj.
  destruct (match assigned_agent (heap o task) with
            | Some a => agent_callbacks o a
            | None => None
            end) as [cb|]; proj.
  - destruct (cb _) as [r|e]; proj.
    + destruct (learning_enabled o) eqn:E; proj; rewrite ?E; reflexivity.
    + reflexivity.
  - destruct (learning_enabled o) eqn:E; proj; rewrite ?E; reflexivity.
Qed.

Lemma execute_sequentially_max_parallel (n : nat) (tasks : list ref) :
  forall acc o,
    execute_sequentially tasks acc (with_max_parallel n o)
    = (fst (execute_sequentially tasks acc o),
       with_max_parallel n (snd (execute_sequentially tasks acc o))).
Proof.
  induction tasks as [|task rest IH]; intros acc o; simpl; [reflexivity|].
  unfold bind. rewrite execute_task_async_max_parallel.
  destruct (execute_task_async task o) as [[r|e] o1]; simpl; [apply IH|reflexivity].
Qed.

(** The tasks are run one after the other, in input order, up to the first
    one that fails. *)
Lemma execute_sequentially_trace (tasks : list ref) :
  forall acc o, exists k h,
    history (snd (execute_sequentially tasks acc o)) = (history o ++ h)%list
    /\ sequential_trace (take k tasks) h
    /\ k <= length tasks
    /\ (forall results,
          fst (execute_sequentially tasks acc o) = Return results ->
          k = length tasks /\ length results = length acc + length tasks).
Proof.
  induction tasks as [|task rest IH]; intros acc o; simpl.
  - exists 0, []. rewrite app_nil_r. repeat split; auto.
    + constructor.
    + injection H as <-. lia.
  - unfold bind.
    destruct (awaited_outcome task o) as [r|e] eqn:Haw.
    + destruct (execute_task_async_return task o r Haw) as (H1 & _ & _ & _ & _ & _ & H7).
      cbv zeta in H7.
      destruct (execute_task_async task o) as [x o1]. simpl in H1, H7. subst x.
      destruct (IH (acc ++ [r])%list o1) as (k & h & Hh & Htr & Hk & Hres).
      exists (S k), ({| sw_task := task; sw_old := status (heap o task);
                        sw_new := "in_progress" |}
                     :: {| sw_task := task; sw_old := "in_progress";
                           sw_new := "completed" |} :: h).
      split; [rewrite Hh, H7, <- app_assoc; reflexivity|].
      split; [simpl; constructor; auto|].
      split; [lia|].
      intros results Hr. destruct (Hres results Hr) as [-> Hl].
      rewrite length_app in Hl. simpl in Hl. lia.
    + destruct (execute_task_async_raise task o e Haw) as (H1 & _ & _ & _ & _ & _ & H7).
      cbv zeta in H7.
      destruct (execute_task_async task o) as [x o1]. simpl in H1, H7. subst x.
      exists 1, [{| sw_task := task; sw_old := status (heap o task);
                    sw_new := "in_progress" |};
                 {| sw_task := task; sw_old := "in_progress";
                    sw_new := "failed" |}].
      split; [exact H7|]. simpl.
      split; [rewrite take_0; constructor; [auto|constructor]|].
      split; [lia|]. intros results Hr. discriminate Hr.
Qed.

(** *** The loop of the disabled path *)

Lemma handlers_return_awaited (task : ref) (o : Orchestrator) :
  handlers_return o -> exists r, awaited_outcome task o = Return r.
Proof.
  intros H. apply awaited_outcome_returns. intros a cb _ Hcb t.
  exact (H a cb t Hcb).
Qed.

Lemma execute_sequentially_in_order (tasks : list ref) :
  forall acc o, exists k h,
    history (snd (execute_sequentially tasks acc o)) = (history o ++ h)%list
    /\ sequential_trace (take k tasks) h
    /\ k <= length tasks
    /\ (forall results,
          fst (execute_sequentially tasks acc o) = Return results ->
          k = length tasks /\ length results = length acc + length tasks)
    /\ in_order tasks o acc h (fst (execute_sequentially tasks acc o))
    /\ (handlers_return o ->
        exists results, fst (execute_sequentially tasks acc o) = Return results)
    /\ (forall e,
          fst (execute_sequentially tasks acc o) = Raise e ->
          1 <= k
          /\ exists task,
               tasks !! (k - 1) = Some task
               /\ status (heap (snd (execute_sequentially tasks acc o)) task)
                  = "failed"
               /\ result (heap (snd (execute_sequentially tasks acc o)) task)
                  = Some {[ "error" := PyStr e ]})
    /\ (forall r, r ∉ take k tasks ->
          heap (snd (execute_sequentially tasks acc o)) r = heap o r).
Proof.
  induction tasks as [|task rest IH]; intros acc o.
  - exists 0, []. simpl. rewrite app_nil_r.
    split; [reflexivity|]. split; [constructor|]. split; [lia|].
    split; [intros results H; injection H as <-; lia|].
    split; [constructor|]. split; [intros _; eexists; reflexivity|].
    split; [intros e H; discriminate H|]. reflexivity.
  - change (execute_sequentially (task :: rest) acc o)
      with (match execute_task_async task o with
            | (Return r, o1) => execute_sequentially rest (acc ++ [r])%list o1
            | (Raise e, o1) => (Raise e, o1)
            end).
    destruct (awaited_outcome task o) as [r|e] eqn:Haw.
    + destruct (execute_task_async_return task o r Haw)
        as (H1 & H2 & H3 & _ & _ & H6 & H7).
      cbv zeta in H2, H3, H6, H7.
      pose proof (in_order_return task rest o acc r) as Hio.
      destruct (execute_task_async task o) as [x o1].
      simpl in H1, H2, H3, H6, H7. cbn [snd] in Hio. subst x.
      destruct (IH (acc ++ [r])%list o1)
        as (k & h & Hh & Htr & Hk & Hres & Hin & Hret & Hraise & Hframe).
      exists (S k), ({| sw_task := task; sw_old := status (heap o task);
                        sw_new := "in_progress" |}
                     :: {| sw_task := task; sw_old := "in_progress";
                           sw_new := "completed" |} :: h).
      split; [rewrite Hh, H7, <- app_assoc; reflexivity|].
      split; [simpl; constructor; auto|].
      split; [simpl; lia|].
      split.
      { intros results Hr. destruct (Hres results Hr) as [-> Hl].
        rewrite length_app in Hl. simpl in *. lia. }
      split; [apply Hio; [exact Haw|exact Hin]|].
      split.
      { intros Hall. apply Hret. intros a cb t Hcb. rewrite H6 in Hcb.
        exact (Hall a cb t Hcb). }
      split.
      { intros e He. destruct (Hraise e He) as (Hk1 & t & Ht & Hs & Hr).
        split; [lia|]. exists t. split; [|split; assumption].
        destruct k as [|k]; [lia|]. simpl in *. rewrite Nat.sub_0_r in Ht.
        exact Ht. }
      intros r0 Hr0. simpl in Hr0. apply not_elem_of_cons in Hr0 as [Hne Hr0].
      rewrite (Hframe r0 Hr0). apply H3, Hne.
    + destruct (execute_task_async_raise task o e Haw)
        as (H1 & H2 & H3 & _ & _ & _ & H7).
      cbv zeta in H2, H3, H7.
      destruct (execute_task_async task o) as [x o1].
      simpl in H1, H2, H3, H7. subst x.
      exists 1, [{| sw_task := task; sw_old := status (heap o task);
                    sw_new := "in_progress" |};
                 {| sw_task := task; sw_old := "in_progress";
                    sw_new := "failed" |}].
      split; [exact H7|]. simpl.
      split; [rewrite take_0; constructor; [auto|constructor]|].
      split; [lia|].
      split; [intros results Hr; discriminate Hr|].
      split; [constructor; exact Haw|].
      split.
      { intros Hall. destruct (handlers_return_awaited task o Hall) as [r Hr].
        congruence. }
      split.
      { intros e' He. injection He as <-. split; [lia|].
        exists task. split; [reflexivity|]. rewrite H2. split; reflexivity. }
      intros r0 Hr0. rewrite take_0 in Hr0.
      apply not_elem_of_cons in Hr0 as [Hne _]. apply H3, Hne.
Qed.

(** C6: with orchestration disabled, [execute_parallel] runs the tasks one
    after the other in input order, as [in_order] describes: a task whose
    handler returns is marked in progress and then completed and the next
    task is run after that; the first task whose handler raises is marked in
    progress and then failed, the call raises its exception and the tasks
    after it are not touched.  So the status writes are, task by task in
    input order, "in_progress" followed at once by "completed" or "failed"
    for the same task.  When every handler returns the call returns, after
    running every task, with one result per task.  Neither the schedule of
    the event loop nor [max_parallel] has any part in it. *)
Theorem sequential_when_disabled (schedule : list nat) (tasks : list ref)
    (o : Orchestrator) :
  orchestration_enabled o = false ->
  exists res o' k h,
    execute_parallel schedule tasks o = Some (res, o')
    /\ history o' = (history o ++ h)%list
    /\ sequential_trace (take k tasks) h
    /\ k <= length tasks
    /\ (forall results, res = Return results ->
          k = length tasks /\ length results = length tasks)
    /\ (forall n schedule',
          execute_parallel schedule' tasks (with_max_parallel n o)
          = Some (res, with_max_parallel n o'))
    /\ in_order tasks
         (snd (logger LogWarning "Orchestration disabled, executing sequentially" o))
         [] h res
    /\ (handlers_return o -> exists results, res = Return results)
    /\ (forall e, res = Raise e ->
          1 <= k
          /\ exists task,
               tasks !! (k - 1) = Some task
               /\ status (heap o' task) = "failed"
               /\ result (heap o' task) = Some {[ "error" := PyStr e ]})
    /\ (forall r, r ∉ take k tasks -> heap o' r = heap o r).
Proof.
  intros Hoff. unfold execute_parallel. rewrite Hoff. cbn [negb].
  unfold bind at 1. unfold logger at 1. unfold modify at 1.
  change (snd (logger LogWarning "Orchestration disabled, executing sequentially" o))
    with (with_logs (logs o ++ [(LogWarning,
            "Orchestration disabled, executing sequentially")]) o).
  set (o1 := with_logs (logs o ++ [(LogWarning,
               "Orchestration disabled, executing sequentially")]) o).
  destruct (execute_sequentially_in_order tasks [] o1)
    as (k & h & Hh & Htr & Hk & Hres & Hin & Hret & Hraise & Hframe).
  exists (fst (execute_sequentially tasks [] o1)),
         (snd (execute_sequentially tasks [] o1)), k, h.
  split; [rewrite <- surjective_pairing; reflexivity|].
  split; [exact Hh|]. split; [exact Htr|]. split; [exact Hk|]. split.
  { intros results Hr. destruct (Hres results Hr) as [-> Hl]. simpl in Hl. auto. }
  split.
  { intros n schedule'. proj. rewrite Hoff. cbn [negb].
    unfold bind at 1. unfold logger at 1. unfold modify at 1. proj.
    change (with_logs _ (with_max_parallel n o)) with (with_max_parallel n o1).
    rewrite execute_sequentially_max_parallel. reflexivity. }
  split; [exact Hin|]. split; [exact Hret|]. split; [exact Hraise|exact Hframe].
Qed.

(** The batch [["a"; "b"]] without handlers: the call returns, and the
    status writes are those of "a" followed by those of "b". *)
Lemma sequential_when_disabled_witness :
  exists results o' k h,
    execute_parallel [] [0; 1] orchestrator_sequential = Some (Return results, o')
    /\ history o' = (history orchestrator_sequential ++ h)%list
    /\ sequential_trace (take k [0; 1]) h
    /\ k = 2.
Proof.
  destruct (sequential_when_disabled [] [0; 1] orchestrator_sequential eq_refl)
    as (res & o' & k & h & H1 & H2 & H3 & _ & H5 & _ & _ & H8 & _).
  destruct (H8 (fun a cb t Hcb => ltac:(discriminate Hcb))) as [results ->].
  exists results, o', k, h.
  split; [exact H1|]. split; [exact H2|]. split; [exact H3|].
  exact (proj1 (H5 results eq_refl)).
Defined.

(** With orchestration disabled the dependencies are not looked at either:
    "b", which depends on "a", is run first when it comes first. *)
Example sequential_ignores_dependencies :
  (history ∘ snd) <$> execute_parallel [] [1; 0] orchestrator_sequential
  = Some [ {| sw_task := 1; sw_old := "pending"; sw_new := "in_progress" |};
           {| sw_task := 1; sw_old := "in_progress"; sw_new := "completed" |};
           {| sw_task := 0; sw_old := "pending"; sw_new := "in_progress" |};
           {| sw_task := 0; sw_old := "in_progress"; sw_new := "completed" |} ].
Proof. reflexivity. Qed.

(** With orchestration disabled nothing catches the exception of a handler:
    the first task of the batch fails, the call raises, and the second task is
    never touched. *)
Example sequential_failure_aborts :
  fst <$> execute_parallel [] [0; 1] orchestrator_failing_sequential
  = Some (Raise "Test error")
  /\ (history ∘ snd) <$> execute_parallel [] [0; 1] orchestrator_failing_sequential
     = Some [ {| sw_task := 0; sw_old := "pending"; sw_new := "in_progress" |};
              {| sw_task := 0; sw_old := "in_progress"; sw_new := "failed" |} ].
Proof. split; vm_compute; reflexivity. Qed.

(** C2: with orchestration enabled, under
    [asyncio.Semaphore(max_parallel)], after every schedule of the coroutines
    of [execute_parallel], the free slots and the coroutines that hold one
    add up to [max_parallel]; so at most [max_parallel] tasks are running
    (handler called and not finished).  A step that releases a slot is the
    step of a coroutine that was suspended in its handler and is finished
    after it: the slot is released only once the handler has completed.
    With orchestration disabled there is no semaphore: the tasks are run one
    at a time, each marked in progress and then completed or failed before
    the next is touched, whatever [max_parallel] is. *)
Theorem semaphore_bound (tasks : list ref) (o : Orchestrator)
    (schedule : list nat) :
  let b := run tasks schedule (start_batch tasks o) in
  (orchestration_enabled o = true ->
     execute_parallel schedule tasks o
     = match gathered (coros b) with
       | Some raw_results => Some (collect raw_results [] (orch b))
       | None => None
       end)
  /\ semaphore b + holders (coros b) = max_parallel o
  /\ running (coros b) <= max_parallel o
  /\ (forall i b', step tasks i b = Some b' ->
        semaphore b < semaphore b' ->
        exists awaited res,
          coros b !! i = Some (Running awaited)
          /\ coros b' !! i = Some (Done res))
  /\ (orchestration_enabled o = false ->
      exists res o' k h,
        execute_parallel schedule tasks o = Some (res, o')
        /\ history o' = (history o ++ h)%list
        /\ sequential_trace (take k tasks) h).
Proof.
  cbv zeta.
  assert (Hinv : semaphore (run tasks schedule (start_batch tasks o))
                 + holders (coros (run tasks schedule (start_batch tasks o)))
                 = max_parallel o).
  { apply (run_invariant tasks
             (fun b => semaphore b + holders (coros b) = max_parallel o)).
    - intros b i b' Hb Hs. rewrite (step_slots tasks i b b' Hs). exact Hb.
    - simpl. rewrite holders_replicate_waiting. lia. }
  split; [apply execute_parallel_enabled|].
  split; [exact Hinv|]. split; [|split].
  - pose proof (filter_running_holder
                  (coros (run tasks schedule (start_batch tasks o)))). lia.
  - intros i b' Hs Hlt. apply step_inv in Hs.
    destruct Hs as [task Ht Hc Hs Ho Hcs | task Ht Hc Hcan -> | task Ht Hc Hcan Ho Hs Hcs
                   | task aw Ht Hc Ho Hs Hcs]; try lia.
    exists aw, (fst (execute_task_async_resume task aw
                       (orch (run tasks schedule (start_batch tasks o))))).
    split; [exact Hc|]. rewrite Hcs. apply list_lookup_insert_eq.
    apply lookup_lt_Some in Hc. exact Hc.
  - intros Hoff. unfold execute_parallel. rewrite Hoff. cbn [negb].
    unfold bind at 1. unfold logger at 1. unfold modify at 1.
    set (o1 := with_logs (logs o ++ [(LogWarning,
                 "Orchestration disabled, executing sequentially")]) o).
    destruct (execute_sequentially_trace tasks [] o1) as (k & h & Hh & Htr & _).
    exists (fst (execute_sequentially tasks [] o1)),
           (snd (execute_sequentially tasks [] o1)), k, h.
    split; [rewrite <- surjective_pairing; reflexivity|].
    split; [exact Hh|exact Htr].
Qed.

(** One slot, the batch [["a"; "b"]]: "a" has taken the slot and its
    handler is awaited, "b" waits for the slot. *)
Lemma semaphore_bound_witness :
  coros (run [0; 1] [0; 1; 0; 1] (start_batch [0; 1] orchestrator_single))
  = [Running (Return default_result); Waiting]
  /\ semaphore (run [0; 1] [0; 1; 0; 1] (start_batch [0; 1] orchestrator_single))
     + holders (coros (run [0; 1] [0; 1; 0; 1]
                         (start_batch [0; 1] orchestrator_single)))
     = 1
  /\ running (coros (run [0; 1] [0; 1; 0; 1]
                       (start_batch [0; 1] orchestrator_single)))
     <= 1.
Proof.
  split; [vm_compute; reflexivity|].
  destruct (semaphore_bound [0; 1] orchestrator_single [0; 1; 0; 1])
    as (_ & H1 & H2 & _).
  split; [exact H1 | exact H2].
Defined.

(** *** A handler that raises *)

(** C3, as stated, fails: the [except] clause of [execute_task_async] ends
    in [raise], so the exception of the handler leaves the entry point.
    For the backend task of [orchestrator_failing], whose handler raises
    "Test error", the call raises "Test error"; and with orchestration
    disabled [execute_parallel] raises it as well. *)
Lemma execute_task_async_reraises :
  fst (execute_task_async 0 orchestrator_failing) = Raise "Test error"
  /\ fst <$> execute_parallel [] [0] orchestrator_failing_sequential
     = Some (Raise "Test error")
  /\ ~ (forall task o e, awaited_outcome task o = Raise e ->
          exists r, fst (execute_task_async task o) = Return r).
Proof.
  split; [reflexivity|]. split; [vm_compute; reflexivity|].
  intros H. destruct (H 0 orchestrator_failing _ failing_awaited) as [r Hr].
  vm_compute in Hr. discriminate Hr.
Qed.

(** A batch of one task whose handler raises: the coroutine can only end
    with that exception. *)
Lemma single_failing_batch (task : ref) (o : Orchestrator) (e : string)
    (schedule : list nat) :
  awaited_outcome task o = Raise e ->
  let b := run [task] schedule (start_batch [task] o) in
  (orch b = o /\ (coros b = [Waiting] \/ coros b = [Holding]))
  \/ coros b = [Running (Raise e)]
  \/ coros b = [Done (Raise e)].
Proof.
  intros He. cbv zeta.
  apply (run_invariant [task]
           (fun b => (orch b = o /\ (coros b = [Waiting] \/ coros b = [Holding]))
                     \/ coros b = [Running (Raise e)]
                     \/ coros b = [Done (Raise e)])).
  - intros b i b' Hb Hs. apply step_inv in Hs.
    assert (Hi : forall t, [task] !! i = Some t -> i = 0 /\ t = task).
    { intros t Ht. destruct i as [|i]; simpl in Ht; [|discriminate].
      injection Ht as <-. auto. }
    destruct Hs as [t Ht Hc Hsem Ho Hcs | t Ht Hc Hcan -> | t Ht Hc Hcan Ho Hsem Hcs
                   | t aw Ht Hc Ho Hsem Hcs]; [| exact Hb | |];
      destruct (Hi t Ht) as [-> ->]; rewrite Hcs; clear Hcs.
    + destruct Hb as [[Eo [Ec | Ec]] | [Ec | Ec]]; rewrite Ec in *;
        try discriminate.
      left. split; [congruence|]. right. reflexivity.
    + destruct Hb as [[Eo [Ec | Ec]] | [Ec | Ec]]; rewrite Ec in *;
        try discriminate.
      right. left. rewrite Eo, He. reflexivity.
    + destruct Hb as [[Eo [Ec | Ec]] | [Ec | Ec]]; rewrite Ec in *;
        try discriminate.
      simpl in Hc. injection Hc as <-. right. right.
      rewrite resume_raise_outcome. reflexivity.
  - left. split; [reflexivity|]. left. reflexivity.
Qed.

(** C3, amended: when the handler of a task raises, [execute_task_async]
    catches the exception, logs it, marks the task failed with the error
    descriptor [{"error": message}], and raises the same exception again to
    its caller.  The orchestrator stays usable: the active set, the
    completed set and the registered handlers are as before, and a later
    call whose handler returns yields that result and marks its task
    completed.  It is [execute_parallel], with orchestration enabled, that
    keeps the exception from its caller: whenever it returns for the batch of
    this task alone, it returns the entry [{"error": message, "status":
    "failed"}]. *)
Theorem execute_task_async_failure (task : ref) (o : Orchestrator) (e : string) :
  awaited_outcome task o = Raise e ->
  let o' := snd (execute_task_async task o) in
  fst (execute_task_async task o) = Raise e
  /\ status (heap o' task) = "failed"
  /\ result (heap o' task) = Some {[ "error" := PyStr e ]}
  /\ In (LogError, "Task " ++ id (heap o task) ++ " failed: " ++ e) (logs o')
  /\ active_tasks o' = active_tasks o
  /\ completed_tasks o' = completed_tasks o
  /\ agent_callbacks o' = agent_callbacks o
  /\ (forall task2 r, awaited_outcome task2 o' = Return r ->
        fst (execute_task_async task2 o') = Return r
        /\ status (heap (snd (execute_task_async task2 o')) task2) = "completed")
  /\ (orchestration_enabled o = true ->
      forall schedule res o'',
        execute_parallel schedule [task] o = Some (res, o'') ->
        res = Return [ {[ "error" := PyStr e; "status" := PyStr "failed" ]} ]).
Proof.
  intros He.
  destruct (execute_task_async_raise task o e He) as (H1 & H2 & _ & H4 & H5 & H6 & _).
  cbv zeta in *. repeat split; auto.
  - rewrite H2. reflexivity.
  - rewrite H2. reflexivity.
  - rewrite execute_task_async_eq, He, resume_raise_logs.
    apply in_or_app. right. left. do 2 f_equal.
    rewrite enter_heap_task. reflexivity.
  - destruct (execute_task_async_return task2 _ r H) as (? & _). assumption.
  - destruct (execute_task_async_return task2 _ r H) as (_ & -> & _). reflexivity.
  - intros Hen schedule res o'' Hex.
    rewrite execute_parallel_enabled in Hex by exact Hen.
    pose proof (single_failing_batch task o e schedule He) as Hb. cbv zeta in Hb.
    destruct Hb as [[_ [Ec | Ec]] | [Ec | Ec]]; rewrite Ec in Hex; simpl in Hex;
      try discriminate.
    injection Hex as Hres _. symmetry. exact Hres.
Qed.

Lemma execute_task_async_failure_witness :
  fst (execute_task_async 0 orchestrator_failing) = Raise "Test error"
  /\ status (heap (snd (execute_task_async 0 orchestrator_failing)) 0) = "failed".
Proof.
  destruct (execute_task_async_failure 0 orchestrator_failing "Test error"
              failing_awaited) as (H1 & H2 & _).
  split; assumption.
Defined.

(* ===================================================================== *)
(** * Further properties of the orchestrator *)

(** ** The agent table *)

Lemma agent_of_value_spec (s : string) (a : AgentType) :
  agent_of_value s = Some a <-> s = agent_value a.
Proof.
  unfold agent_of_value. split.
  - repeat match goal with
    | |- context [String.eqb s ?v] => destruct (String.eqb_spec s v); [subst|]
    end; intros [= <-]; reflexivity.
  - intros ->. destruct a; reflexivity.
Qed.

Lemma names_agent_spec (a : AgentType) (c : AgentConfig) :
  names_agent a c = true <-> agent_of_value (default "" (cfg_name c)) = Some a.
Proof.
  unfold names_agent. rewrite agent_of_value_spec. apply String.eqb_eq.
Qed.

Lemma find_snoc {A} (P : A -> bool) (l : list A) (x : A) :
  find P (l ++ [x])
  = match find P l with
    | Some y => Some y
    | None => if P x then Some x else None
    end.
Proof.
  induction l as [|y l IH]; simpl; [reflexivity|].
  destruct (P y); [reflexivity|exact IH].
Qed.

(** The table after the loop: for each agent, the last entry that names it,
    or what the table held before. *)
Lemma load_agent_configs_lookup (config_agents : list AgentConfig) :
  forall agent_map log a,
    fst (load_agent_configs config_agents agent_map log) a
    = match find (names_agent a) (rev config_agents) with
      | Some c => Some (agent_info_of c)
      | None => agent_map a
      end.
Proof.
  induction config_agents as [|c rest IH]; intros agent_map log a; simpl;
    [reflexivity|].
  rewrite find_snoc.
  destruct (agent_of_value (default "" (cfg_name c))) as [b|] eqn:Hb.
  - rewrite IH. destruct (find (names_agent a) (rev rest)); [reflexivity|].
    destruct (decide (b = a)) as [->|Hne].
    + apply names_agent_spec in Hb. rewrite Hb, fn_lookup_insert. reflexivity.
    + rewrite fn_lookup_insert_ne by exact Hne.
      destruct (names_agent a c) eqn:Hn; [|reflexivity].
      apply names_agent_spec in Hn. congruence.
  - rewrite IH. destruct (find (names_agent a) (rev rest)); [reflexivity|].
    destruct (names_agent a c) eqn:Hn; [|reflexivity].
    apply names_agent_spec in Hn. congruence.
Qed.

(** The log after the loop: one warning for each invalid entry, in order. *)
Lemma load_agent_configs_log (config_agents : list AgentConfig) :
  forall agent_map log,
    snd (load_agent_configs config_agents agent_map log)
    = (log ++ map skip_warning
                (List.filter (fun c => bool_decide (invalid_config c)) config_agents))%list.
Proof.
  induction config_agents as [|c rest IH]; intros agent_map log; simpl.
  - rewrite app_nil_r. reflexivity.
  - unfold invalid_config at 1.
    destruct (agent_of_value (default "" (cfg_name c))) as [b|] eqn:Hb.
    + rewrite IH. rewrite bool_decide_eq_false_2 by discriminate. reflexivity.
    + rewrite IH. rewrite bool_decide_eq_true_2 by reflexivity.
      simpl. rewrite <- app_assoc. reflexivity.
Qed.

Lemma table_size_zero (agents : AgentTable) :
  table_size agents = 0 <-> forall a, agents a = None.
Proof.
  unfold table_size, agent_types. split.
  - intros H a. simpl in H.
    repeat match type of H with
    | context [bool_decide (is_Some (agents ?x))] =>
        let E := fresh "E" in
        destruct (agents x) eqn:E;
        [rewrite bool_decide_eq_true_2 in H by eauto; simpl in H; discriminate H
        |rewrite bool_decide_eq_false_2 in H by (intros [? ?]; discriminate)]
    end.
    destruct a; assumption.
  - intros H. simpl. rewrite !H.
    rewrite !bool_decide_eq_false_2 by (intros [? ?]; discriminate). reflexivity.
Qed.

Lemma find_none_invalid (a : AgentType) (l : list AgentConfig) :
  (forall c, In c l -> invalid_config c) -> find (names_agent a) l = None.
Proof.
  intros H. induction l as [|c l IH]; simpl; [reflexivity|].
  destruct (names_agent a c) eqn:Hn.
  - apply names_agent_spec in Hn. specialize (H c (or_introl eq_refl)).
    unfold invalid_config in H. congruence.
  - apply IH. intros c' Hc'. apply H. right. exact Hc'.
Qed.

Lemma filter_all {A} (P : A -> bool) (l : list A) :
  (forall x, In x l -> P x = true) -> List.filter P l = l.
Proof.
  intros H. induction l as [|x l IH]; simpl; [reflexivity|].
  rewrite (H x (or_introl eq_refl)). f_equal. apply IH.
  intros y Hy. apply H. right. exact Hy.
Qed.

Lemma fallback_table (config_agents : list AgentConfig) :
  (forall c, In c config_agents -> invalid_config c) ->
  forall a, fst (_load_available_agents config_agents) a = default_agents a.
Proof.
  intros Hinv a. unfold _load_available_agents.
  pose proof (load_agent_configs_lookup config_agents (fun _ => None) []) as Hl.
  destruct (load_agent_configs config_agents (fun _ => None) []) as [m log].
  simpl in Hl.
  assert (Hz : table_size m = 0).
  { apply table_size_zero. intros b. rewrite Hl.
    rewrite find_none_invalid; [reflexivity|].
    intros c Hc. apply Hinv. apply in_rev. exact Hc. }
  rewrite Hz. rewrite andb_false_r. reflexivity.
Qed.

Lemma configured_table (config_agents : list AgentConfig) (c0 : AgentConfig) :
  In c0 config_agents -> ~ invalid_config c0 ->
  forall a, fst (_load_available_agents config_agents) a
            = agent_info_of <$> find (names_agent a) (rev config_agents).
Proof.
  intros Hin Hvalid a. unfold _load_available_agents.
  pose proof (load_agent_configs_lookup config_agents (fun _ => None) []) as Hl.
  destruct (load_agent_configs config_agents (fun _ => None) []) as [m log].
  simpl in Hl.
  assert (Hlen : Nat.eqb (length config_agents) 0 = false)
    by (destruct config_agents; [contradiction|reflexivity]).
  assert (Hnz : Nat.eqb (table_size m) 0 = false).
  { apply Nat.eqb_neq. rewrite table_size_zero. intros Hnone.
    unfold invalid_config in Hvalid.
    destruct (agent_of_value (default "" (cfg_name c0))) as [b|] eqn:Hb;
      [|contradiction].
    specialize (Hnone b). rewrite Hl in Hnone.
    destruct (find (names_agent b) (rev config_agents)) eqn:Hf; [discriminate|].
    apply in_rev in Hin. pose proof (find_none _ _ Hf c0 Hin) as Hn.
    apply names_agent_spec in Hb. congruence. }
  rewrite Hlen, Hnz. simpl. rewrite Hl. destruct (find _ _); reflexivity.
Qed.

Lemma recommended_returns (context : string) (o : Orchestrator) :
  fst (get_recommended_agent context o) = Return (recommended context).
Proof.
  unfold get_recommended_agent. rewrite assign_agent_returns.
  unfold route, recommended. proj. destruct (first_match _ _); reflexivity.
Qed.

(** X1: when the configuration lists no agent, or only entries whose name is
    not the value of an [AgentType], the table is the built-in one with its
    six agents; each invalid entry is logged as skipped, in order, and
    nothing is raised. *)
Theorem load_agents_fallback (config_agents : list AgentConfig) :
  (forall c, In c config_agents -> invalid_config c) ->
  (forall a, fst (_load_available_agents config_agents) a = default_agents a)
  /\ (forall a, is_Some (fst (_load_available_agents config_agents) a))
  /\ snd (_load_available_agents config_agents)
     = (map skip_warning config_agents
        ++ [(LogInfo, "Using default agent configuration")])%list.
Proof.
  intros Hinv. unfold _load_available_agents.
  pose proof (load_agent_configs_lookup config_agents (fun _ => None) []) as Hl.
  pose proof (load_agent_configs_log config_agents (fun _ => None) []) as Hlog.
  destruct (load_agent_configs config_agents (fun _ => None) []) as [m log].
  simpl in Hl, Hlog.
  assert (Hz : table_size m = 0).
  { apply table_size_zero. intros a. rewrite Hl.
    rewrite find_none_invalid; [reflexivity|].
    intros c Hc. apply Hinv. apply in_rev. exact Hc. }
  rewrite Hz. rewrite andb_false_r. simpl.
  split; [reflexivity|]. split; [intros a; eexists; reflexivity|].
  rewrite Hlog. rewrite filter_all; [reflexivity|].
  intros c Hc. apply bool_decide_eq_true_2. apply Hinv, Hc.
Qed.

Lemma load_agents_fallback_witness :
  fst (_load_available_agents
         [ {| cfg_name := Some "nobody"; cfg_role := None;
              cfg_capabilities := None; cfg_skill_file := None |} ])
      CLI_ARTISAN
  = default_agents CLI_ARTISAN.
Proof.
  apply load_agents_fallback. intros c [<- | []]. reflexivity.
Defined.

(** X2: when the configuration names at least one agent, the table holds the
    configured agents and no other: an agent is in the table exactly when
    an entry names it, with the record of the last such entry; the
    built-in record of an agent that is not configured is not used. *)
Theorem load_agents_configured (config_agents : list AgentConfig)
    (c0 : AgentConfig) :
  In c0 config_agents -> ~ invalid_config c0 ->
  (forall a, fst (_load_available_agents config_agents) a
             = agent_info_of <$> find (names_agent a) (rev config_agents))
  /\ snd (_load_available_agents config_agents)
     = (map skip_warning
          (List.filter (fun c => bool_decide (invalid_config c)) config_agents)
        ++ [(LogInfo,
             ("Loaded "
              ++ PyStr.of_nat (table_size (fst (_load_available_agents config_agents)))
              ++ " agents from config.json")%string)])%list.
Proof.
  intros Hin Hvalid. unfold _load_available_agents.
  pose proof (load_agent_configs_lookup config_agents (fun _ => None) []) as Hl.
  pose proof (load_agent_configs_log config_agents (fun _ => None) []) as Hlog.
  destruct (load_agent_configs config_agents (fun _ => None) []) as [m log].
  simpl in Hl, Hlog.
  assert (Hlen : Nat.eqb (length config_agents) 0 = false)
    by (destruct config_agents; [contradiction|reflexivity]).
  assert (Hnz : Nat.eqb (table_size m) 0 = false).
  { apply Nat.eqb_neq. rewrite table_size_zero. intros Hnone.
    unfold invalid_config in Hvalid.
    destruct (agent_of_value (default "" (cfg_name c0))) as [a|] eqn:Ha;
      [|contradiction].
    specialize (Hnone a). rewrite Hl in Hnone.
    destruct (find (names_agent a) (rev config_agents)) eqn:Hf; [discriminate|].
    apply in_rev in Hin. pose proof (find_none _ _ Hf c0 Hin) as Hn.
    apply names_agent_spec in Ha. congruence. }
  rewrite Hlen, Hnz. simpl. split.
  - intros a. rewrite Hl. destruct (find _ _); reflexivity.
  - rewrite Hlog. reflexivity.
Qed.

Lemma load_agents_configured_witness :
  fst (_load_available_agents config_qa_only) QA_SENTINEL
  = Some {| info_name := "Quality"; info_expertise := [];
            info_skill_file := ".claude/skills/agents/qa-sentinel.md" |}
  /\ fst (_load_available_agents config_qa_only) LEAD_ARCHITECT = None.
Proof.
  destruct (load_agents_configured config_qa_only
              {| cfg_name := Some "qa-sentinel"; cfg_role := Some "Quality";
                 cfg_capabilities := None; cfg_skill_file := None |})
    as [H _]; [left; reflexivity | discriminate |].
  split; rewrite H; reflexivity.
Defined.

(** X3: [get_recommended_agent]: the recommendation is the first keyword rule
    that matches the lower-cased context; the type "query" of the temporary
    task never decides, so without a keyword the architect is named and the
    warning of [assign_agent] is logged.  Nothing else changes. *)
Theorem get_recommended_agent_keywords (context : string) (o : Orchestrator) :
  fst (get_recommended_agent context o) = Return (recommended context)
  /\ snd (get_recommended_agent context o)
     = match first_match keyword_rules (Str.lower context) with
       | Some _ => o
       | None =>
           with_logs (logs o ++ [(LogWarning,
             ("Could not determine agent for task: " ++ context
              ++ ", using LEAD_ARCHITECT")%string)]) o
       end.
Proof.
  unfold get_recommended_agent. split.
  - rewrite assign_agent_returns. unfold route, recommended. proj.
    destruct (first_match _ _); reflexivity.
  - unfold assign_agent. cbn [first_match keyword_rules]. proj.
    repeat match goal with
    | |- context [if Str.any_in ?k ?d then _ else _] => destruct (Str.any_in k d)
    end; reflexivity.
Qed.

(** X4: [suggest_agent]: with no valid agent in the configuration the name is
    that of the recommended agent in the built-in table, never "Unknown
    Agent"; with a valid agent in the configuration it is the name of the
    last entry for the recommended agent, and "Unknown Agent" when no entry
    names that agent. *)
Theorem suggest_agent_name (config_agents : list AgentConfig)
    (description0 : string) (o : Orchestrator) :
  ((forall c, In c config_agents -> invalid_config c) ->
     Some (suggest_agent config_agents description0 o)
     = info_name <$> default_agents (recommended description0)
     /\ suggest_agent config_agents description0 o <> "Unknown Agent")
  /\ (forall c0, In c0 config_agents -> ~ invalid_config c0 ->
        suggest_agent config_agents description0 o
        = match find (names_agent (recommended description0)) (rev config_agents) with
          | Some c => info_name (agent_info_of c)
          | None => "Unknown Agent"
          end).
Proof.
  unfold suggest_agent. rewrite recommended_returns.
  split.
  - intros Hinv. rewrite (fallback_table config_agents Hinv).
    split; [|destruct (recommended description0); discriminate].
    destruct (recommended description0); reflexivity.
  - intros c0 Hin Hv. rewrite (configured_table config_agents c0 Hin Hv).
    destruct (find _ _); reflexivity.
Qed.

Lemma suggest_agent_name_witness :
  suggest_agent config_qa_only "Write the tests" orchestrator0 = "Quality"
  /\ suggest_agent config_qa_only "Design the schema" orchestrator0 = "Unknown Agent".
Proof.
  destruct (suggest_agent_name config_qa_only "Write the tests" orchestrator0) as [_ H1].
  destruct (suggest_agent_name config_qa_only "Design the schema" orchestrator0) as [_ H2].
  split.
  - rewrite (H1 {| cfg_name := Some "qa-sentinel"; cfg_role := Some "Quality";
                   cfg_capabilities := None; cfg_skill_file := None |});
      [reflexivity | left; reflexivity | discriminate].
  - rewrite (H2 {| cfg_name := Some "qa-sentinel"; cfg_role := Some "Quality";
                   cfg_capabilities := None; cfg_skill_file := None |});
      [reflexivity | left; reflexivity | discriminate].
Defined.

(** ** [list_tasks] *)

Lemma ascii_compare_lt_trans (x y z : ascii) :
  Ascii.compare x y = Lt -> Ascii.compare y z = Lt -> Ascii.compare x z = Lt.
Proof.
  unfold Ascii.compare. rewrite !N.compare_lt_iff. lia.
Qed.

Lemma string_compare_refl (a : string) : String.compare a a = Eq.
Proof.
  induction a as [|x a IH]; simpl; [reflexivity|].
  unfold Ascii.compare. rewrite N.compare_refl. exact IH.
Qed.

Lemma string_compare_lt_trans (a : string) :
  forall b c, String.compare a b = Lt -> String.compare b c = Lt ->
              String.compare a c = Lt.
Proof.
  induction a as [|x a IH]; intros [|y b] [|z c]; simpl; try discriminate; auto.
  destruct (Ascii.compare x y) eqn:Hxy; try discriminate;
  destruct (Ascii.compare y z) eqn:Hyz; try discriminate; intros H1 H2.
  - apply Ascii.compare_eq_iff in Hxy, Hyz. subst.
    unfold Ascii.compare. rewrite N.compare_refl. eauto.
  - apply Ascii.compare_eq_iff in Hxy. subst. rewrite Hyz. reflexivity.
  - apply Ascii.compare_eq_iff in Hyz. subst. rewrite Hxy. reflexivity.
  - rewrite (ascii_compare_lt_trans x y z Hxy Hyz). reflexivity.
Qed.

(** "Not smaller" on strings is transitive. *)
Lemma string_ge_trans (a b c : string) :
  String.ltb a b = false -> String.ltb b c = false -> String.ltb a c = false.
Proof.
  unfold String.ltb. intros Hab Hbc.
  destruct (String.compare a c) eqn:Hac; try reflexivity. exfalso.
  destruct (String.compare a b) eqn:Eab; try discriminate.
  - apply String.compare_eq_iff in Eab. subst. rewrite Hac in Hbc. discriminate.
  - assert (Hba : String.compare b a = Lt)
      by (rewrite String.compare_antisym, Eab; reflexivity).
    rewrite (string_compare_lt_trans b a c Hba Hac) in Hbc. discriminate.
Qed.

Lemma string_ltb_irrefl (a : string) : String.ltb a a = false.
Proof. unfold String.ltb. rewrite string_compare_refl. reflexivity. Qed.

Lemma string_ltb_asym (a b : string) :
  String.ltb a b = true -> String.ltb b a = false.
Proof.
  unfold String.ltb. rewrite (String.compare_antisym b a).
  destruct (String.compare a b); simpl; congruence.
Qed.

Lemma insert_by_priority_perm (h : ref -> Task) (t : ref) (l : list ref) :
  Permutation (insert_by_priority h t l) (t :: l).
Proof.
  induction l as [|u l IH]; simpl; [reflexivity|].
  destruct (String.ltb _ _); [|reflexivity].
  rewrite IH. apply perm_swap.
Qed.

Lemma sorted_by_priority_perm (h : ref -> Task) (l : list ref) :
  Permutation (sorted_by_priority h l) l.
Proof.
  unfold sorted_by_priority. induction l as [|t l IH]; simpl; [reflexivity|].
  rewrite insert_by_priority_perm. constructor. exact IH.
Qed.

Lemma insert_by_priority_sorted (h : ref -> Task) (t : ref) (l : list ref) :
  Sorted.StronglySorted (priority_ge h) l ->
  Sorted.StronglySorted (priority_ge h) (insert_by_priority h t l).
Proof.
  induction l as [|u l IH]; simpl; intros Hs.
  - constructor; constructor.
  - apply Sorted.StronglySorted_inv in Hs as [Hl Hu].
    destruct (String.ltb (priority (h t)) (priority (h u))) eqn:Hlt.
    + constructor; [apply IH, Hl|].
      rewrite Forall_forall. intros x Hx.
      apply list_elem_of_In in Hx.
      apply (Permutation_in _ (insert_by_priority_perm h t l)) in Hx.
      destruct Hx as [<- | Hx].
      * unfold priority_ge. apply string_ltb_asym. exact Hlt.
      * rewrite Forall_forall in Hu. apply Hu. apply list_elem_of_In. exact Hx.
    + constructor; [constructor; assumption|].
      constructor; [exact Hlt|].
      rewrite Forall_forall in Hu |- *. intros x Hx. unfold priority_ge in *.
      apply string_ge_trans with (b := priority (h u)); auto.
Qed.

Lemma sorted_by_priority_sorted (h : ref -> Task) (l : list ref) :
  Sorted.StronglySorted (priority_ge h) (sorted_by_priority h l).
Proof.
  unfold sorted_by_priority. induction l as [|t l IH]; simpl.
  - constructor.
  - apply insert_by_priority_sorted, IH.
Qed.

Lemma list_tasks_filter (values : list ref) (status0 : option string)
    (o : Orchestrator) :
  list_tasks values status0 o
  = sorted_by_priority (heap o) (List.filter (status_matches status0 o) values).
Proof.
  unfold list_tasks, status_matches. destruct status0 as [s|].
  - destruct (String.eqb s ""); simpl; [|reflexivity].
    rewrite filter_all; auto.
  - rewrite filter_all; auto.
Qed.

(** Sorting keeps the tasks of one priority in the order they had. *)
Lemma sorted_by_priority_stable (h : ref -> Task) (p : string) (l : list ref) :
  List.filter (fun t => String.eqb (priority (h t)) p) (sorted_by_priority h l)
  = List.filter (fun t => String.eqb (priority (h t)) p) l.
Proof.
  unfold sorted_by_priority. induction l as [|t l IH]; simpl; [reflexivity|].
  rewrite <- IH. generalize (foldr (insert_by_priority h) [] l) as s. clear IH.
  induction s as [|u s IHs]; simpl; [reflexivity|].
  destruct (String.ltb (priority (h t)) (priority (h u))) eqn:Hlt; simpl;
    [|reflexivity].
  rewrite IHs.
  destruct (String.eqb_spec (priority (h t)) p) as [Et|Et]; [|reflexivity].
  destruct (String.eqb_spec (priority (h u)) p) as [Eu|Eu]; [|reflexivity].
  rewrite Et, Eu, string_ltb_irrefl in Hlt. discriminate Hlt.
Qed.

Lemma list_tasks_strongly_sorted (values : list ref) (status0 : option string)
    (o : Orchestrator) :
  Sorted.StronglySorted (priority_ge (heap o)) (list_tasks values status0 o).
Proof. rewrite list_tasks_filter. apply sorted_by_priority_sorted. Qed.

(** X5: [list_tasks] returns the tasks that pass the status filter, each as
    often as it is among the values, sorted by decreasing priority string,
    tasks of equal priority in the order of the dictionary.  [None] and the
    empty string filter nothing.  When [values] lists the values of the
    active set, a task is returned exactly when it is an active task that
    passes the filter. *)
Theorem list_tasks_sorted (values : list ref) (status0 : option string)
    (o : Orchestrator) :
  Permutation (list_tasks values status0 o)
    (List.filter (status_matches status0 o) values)
  /\ Sorted.StronglySorted (priority_ge (heap o)) (list_tasks values status0 o)
  /\ (forall p,
        List.filter (fun t => String.eqb (priority (heap o t)) p)
          (list_tasks values status0 o)
        = List.filter (fun t => String.eqb (priority (heap o t)) p)
            (List.filter (status_matches status0 o) values))
  /\ list_tasks values (Some "") o = list_tasks values None o
  /\ (values_of o values ->
      forall t, In t (list_tasks values status0 o)
                <-> (exists task_id, active_tasks o !! task_id = Some t)
                    /\ status_matches status0 o t = true).
Proof.
  rewrite list_tasks_filter.
  split; [apply sorted_by_priority_perm|].
  split; [apply sorted_by_priority_sorted|].
  split; [intros p; apply sorted_by_priority_stable|].
  split; [reflexivity|].
  intros Hv t.
  assert (Hin : In t (sorted_by_priority (heap o)
                        (List.filter (status_matches status0 o) values))
                <-> In t (List.filter (status_matches status0 o) values)).
  { split; apply Permutation_in;
      [|symmetry]; apply sorted_by_priority_perm. }
  rewrite Hin, filter_In.
  assert (Hval : In t values <-> exists task_id, active_tasks o !! task_id = Some t).
  { unfold values_of in Hv. split.
    - intros H. apply (Permutation_in _ Hv) in H.
      apply list_elem_of_In, list_elem_of_fmap in H as ([k v] & -> & Hkv).
      apply elem_of_map_to_list in Hkv. exists k. exact Hkv.
    - intros [k Hk]. apply (Permutation_in _ (Permutation_sym Hv)).
      apply list_elem_of_In, list_elem_of_fmap. exists (k, t). split; [reflexivity|].
      apply elem_of_map_to_list. exact Hk. }
  rewrite Hval. reflexivity.
Qed.

Lemma list_tasks_sorted_witness :
  values_of orchestrator_priorities [0; 1; 2]
  /\ (In 1 (list_tasks [0; 1; 2] (Some "pending") orchestrator_priorities)
      <-> (exists task_id, active_tasks orchestrator_priorities !! task_id = Some 1)
          /\ status_matches (Some "pending") orchestrator_priorities 1 = true).
Proof.
  assert (Hv : values_of orchestrator_priorities [0; 1; 2]).
  { unfold values_of.
    replace (snd <$> map_to_list (active_tasks orchestrator_priorities))
      with ([1; 2] ++ [0])%list by (vm_compute; reflexivity).
    apply Permutation_cons_append. }
  split; [exact Hv|].
  destruct (list_tasks_sorted [0; 1; 2] (Some "pending") orchestrator_priorities)
    as (_ & _ & _ & _ & H).
  exact (H Hv 1).
Defined.

(** X6: the priorities are compared as strings, so "medium" is the greatest and
    "high" the smallest of the three usual ones: in the list that
    [list_tasks] returns no task of priority "medium" or "low" comes after
    a task of priority "high". *)
Theorem list_tasks_high_last (values : list ref) (status0 : option string)
    (o : Orchestrator) (before after : list ref) (t u : ref) :
  list_tasks values status0 o = (before ++ t :: after)%list ->
  priority (heap o t) = "high" -> In u after ->
  priority (heap o u) <> "medium" /\ priority (heap o u) <> "low".
Proof.
  intros Hl Ht Hu.
  pose proof (list_tasks_strongly_sorted values status0 o) as Hs.
  rewrite Hl in Hs. clear Hl.
  induction before as [|x before IH]; simpl in Hs.
  - apply Sorted.StronglySorted_inv in Hs as [_ Hall].
    rewrite Forall_forall in Hall. apply list_elem_of_In in Hu.
    specialize (Hall u Hu). unfold priority_ge in Hall. rewrite Ht in Hall.
    split; intros E; rewrite E in Hall; discriminate Hall.
  - apply Sorted.StronglySorted_inv in Hs as [Hs _]. exact (IH Hs).
Qed.

Lemma list_tasks_high_last_witness :
  list_tasks [0; 1; 2; 0] None orchestrator_priorities = [1; 2; 0; 0]
  /\ priority (heap orchestrator_priorities 0) <> "medium".
Proof.
  assert (H : list_tasks [0; 1; 2; 0] None orchestrator_priorities
              = ([1; 2] ++ 0 :: [0])%list) by (vm_compute; reflexivity).
  split; [exact H|].
  apply (list_tasks_high_last _ _ _ _ _ 0 0 H); [reflexivity | left; reflexivity].
Defined.

(** ** [create_task] *)

Lemma assign_agent_heap (t : Task) (o : Orchestrator) :
  heap (snd (assign_agent t o)) = heap o
  /\ next_ref (snd (assign_agent t o)) = next_ref o
  /\ active_tasks (snd (assign_agent t o)) = active_tasks o
  /\ completed_tasks (snd (assign_agent t o)) = completed_tasks o
  /\ draws (snd (assign_agent t o)) = draws o
  /\ history (snd (assign_agent t o)) = history o
  /\ message_queue (snd (assign_agent t o)) = message_queue o
  /\ agent_callbacks (snd (assign_agent t o)) = agent_callbacks o.
Proof.
  destruct (assign_agent_state t o) as [-> | ->]; repeat split; reflexivity.
Qed.

Lemma create_task_state (description0 task_type priority0 : string)
    (metadata0 : dict) (o : Orchestrator) :
  let i := uuid4 o (draws o) in
  let t0 := set_metadata metadata0 (new_task i description0 task_type priority0) in
  let o' := snd (create_task description0 task_type priority0 metadata0 o) in
  fst (create_task description0 task_type priority0 metadata0 o)
  = Return (next_ref o)
  /\ (forall r, heap o' r
                = (<[next_ref o := set_assigned_agent (Some (route t0)) t0]>
                     (heap o)) r)
  /\ active_tasks o' = <[i := next_ref o]> (active_tasks o)
  /\ completed_tasks o' = completed_tasks o
  /\ history o' = history o
  /\ next_ref o' = S (next_ref o)
  /\ draws o' = S (draws o)
  /\ agent_callbacks o' = agent_callbacks o
  /\ message_queue o' = message_queue o.
Proof.
  cbv zeta. unfold create_task. run_ops. proj.
  rewrite fn_lookup_insert.
  match goal with
  | |- context [assign_agent ?t ?st] =>
      pose proof (assign_agent_returns t st) as Hret;
      destruct (assign_agent_heap t st) as (Hh & Hn & Ha & Hc & Hd & Hy & Hm & Hcb);
      destruct (assign_agent t st) as [x o2]
  end.
  simpl in Hret, Hh, Hn, Ha, Hc, Hd, Hy, Hm, Hcb. subst x. proj.
  rewrite Hh, Hn, Ha, Hc, Hd, Hy, Hm, Hcb. proj.
  rewrite !fn_lookup_insert.
  repeat split; try reflexivity.
  intros r. destruct (decide (r = next_ref o)) as [->|Hne].
  - rewrite !fn_lookup_insert. reflexivity.
  - rewrite !fn_lookup_insert_ne by auto. reflexivity.
Qed.

(** X7: [create_task] makes a new pending task with the given description,
    type, priority and metadata and the next UUID as its id, assigns it the
    agent that the routing names, and enters it in the active set under its
    id, over a task that had this id.  No other object, no other entry of the
    active set and no completed id is touched; the active set grows by one
    entry exactly when the id was free.  The task can then be addressed by
    its id. *)
Theorem create_task_registers (description0 task_type priority0 : string)
    (metadata0 : dict) (o : Orchestrator) :
  let i := uuid4 o (draws o) in
  let t0 := set_metadata metadata0 (new_task i description0 task_type priority0) in
  let o' := snd (create_task description0 task_type priority0 metadata0 o) in
  fst (create_task description0 task_type priority0 metadata0 o)
  = Return (next_ref o)
  /\ heap o' (next_ref o) = set_assigned_agent (Some (route t0)) t0
  /\ active_tasks o' = <[i := next_ref o]> (active_tasks o)
  /\ (forall r, r <> next_ref o -> heap o' r = heap o r)
  /\ completed_tasks o' = completed_tasks o
  /\ history o' = history o
  /\ next_ref o' = S (next_ref o)
  /\ draws o' = S (draws o)
  /\ (active_tasks o !! i = None ->
      size (active_tasks o') = S (size (active_tasks o)))
  /\ (is_Some (active_tasks o !! i) ->
      size (active_tasks o') = size (active_tasks o))
  /\ (forall s,
        fst (update_task_status i s o') = Return (Some (next_ref o))
        /\ status (heap (snd (update_task_status i s o')) (next_ref o)) = s).
Proof.
  cbv zeta.
  destruct (create_task_state description0 task_type priority0 metadata0 o)
    as (H1 & H2 & H3 & H4 & H5 & H6 & H7 & _).
  cbv zeta in *.
  set (o' := snd (create_task description0 task_type priority0 metadata0 o)) in *.
  rewrite H1, H2, H3, H4, H5, H6, H7. rewrite fn_lookup_insert.
  split; [reflexivity|]. split; [reflexivity|]. split; [reflexivity|].
  split.
  { intros r Hr. rewrite H2, fn_lookup_insert_ne by auto. reflexivity. }
  split; [reflexivity|]. split; [reflexivity|]. split; [reflexivity|].
  split; [reflexivity|].
  split; [apply map_size_insert_None|].
  split.
  { intros Hv. apply map_size_insert_Some. exact Hv. }
  intros s.
  destruct (update_task_status_known (uuid4 o (draws o)) s o' (next_ref o))
    as (U1 & U2 & _).
  { rewrite H3. apply lookup_insert_eq. }
  cbv zeta in U2. split; [exact U1|]. rewrite U2. reflexivity.
Qed.

(** ** Handlers and execution *)

Lemma awaited_outcome_default (task : ref) (o : Orchestrator) :
  match assigned_agent (heap o task) with
  | Some a => agent_callbacks o a = None
  | None => True
  end ->
  awaited_outcome task o = Return default_result.
Proof.
  intros H. unfold awaited_outcome, execute_task_async_enter. run_ops. proj.
  rewrite fn_lookup_insert. proj. rewrite fn_lookup_insert. proj.
  destruct (assigned_agent (heap o task)) as [a|]; [rewrite H|]; reflexivity.
Qed.

Lemma register_agent_callback_state (a : AgentType) (cb : Callable)
    (o : Orchestrator) :
  let o' := snd (register_agent_callback a cb o) in
  heap o' = heap o
  /\ active_tasks o' = active_tasks o
  /\ completed_tasks o' = completed_tasks o
  /\ message_queue o' = message_queue o
  /\ history o' = history o
  /\ utcnow o' = utcnow o
  /\ ticks o' = ticks o
  /\ agent_callbacks o' = <[a := Some cb]> (agent_callbacks o).
Proof. unfold register_agent_callback. run_ops. proj. repeat split. Qed.

(** X8: a handler registered for an agent is the one that runs the tasks of this
    agent from then on, in place of an earlier handler of the agent: it is
    called with the task as it is once marked in progress, start time set,
    and its outcome decides the execution.  When it returns [r],
    [execute_task_async] returns [r] and the task is completed with this
    result; when it raises [e], [execute_task_async] raises [e] and the task
    is failed with the error.  Tasks of the other agents are run as before
    the registration. *)
Theorem registered_callback_runs (a : AgentType) (cb : Callable) (task : ref)
    (o : Orchestrator) :
  let o1 := snd (register_agent_callback a cb o) in
  let started :=
    set_started_at (Some (utcnow o (ticks o)))
      (set_status "in_progress" (heap o task)) in
  let o2 := snd (execute_task_async task o1) in
  (assigned_agent (heap o task) = Some a ->
   awaited_outcome task o1 = cb started
   /\ match cb started with
      | Return r =>
          fst (execute_task_async task o1) = Return r
          /\ status (heap o2 task) = "completed"
          /\ result (heap o2 task) = Some r
          /\ id (heap o task) ∈ completed_tasks o2
      | Raise e =>
          fst (execute_task_async task o1) = Raise e
          /\ status (heap o2 task) = "failed"
          /\ result (heap o2 task) = Some {[ "error" := PyStr e ]}
          /\ completed_tasks o2 = completed_tasks o
      end)
  /\ (assigned_agent (heap o task) <> Some a ->
      awaited_outcome task o1 = awaited_outcome task o).
Proof.
  cbv zeta.
  destruct (register_agent_callback_state a cb o)
    as (Hh & Ha & Hc & _ & _ & Hu & Ht & Hcb).
  cbv zeta in *.
  set (o1 := snd (register_agent_callback a cb o)) in *.
  split.
  - intros Hag.
    assert (Haw : awaited_outcome task o1
                  = cb (set_started_at (Some (utcnow o (ticks o)))
                          (set_status "in_progress" (heap o task)))).
    { rewrite (awaited_outcome_callback task o1 a cb).
      - rewrite Hh, Hu, Ht. reflexivity.
      - rewrite Hh. exact Hag.
      - rewrite Hcb. apply fn_lookup_insert. }
    split; [exact Haw|].
    destruct (cb _) as [r|e] eqn:E.
    + destruct (execute_task_async_return task o1 r Haw)
        as (H1 & H2 & _ & H4 & _).
      cbv zeta in *. rewrite H1, H2, H4, Hh. proj.
      repeat split; try reflexivity.
      apply elem_of_union_l, elem_of_singleton. reflexivity.
    + destruct (execute_task_async_raise task o1 e Haw)
        as (H1 & H2 & _ & H4 & _).
      cbv zeta in *. rewrite H1, H2, H4, Hc. proj.
      repeat split; reflexivity.
  - intros Hag.
    unfold awaited_outcome, execute_task_async_enter. run_ops. proj.
    rewrite !fn_lookup_insert. proj. rewrite ?fn_lookup_insert. proj.
    fold o1. rewrite Hh, Hu, Ht, Hcb.
    destruct (assigned_agent (heap o task)) as [b|]; [|reflexivity].
    rewrite fn_lookup_insert_ne by congruence.
    destruct (agent_callbacks o b); reflexivity.
Qed.

(** X9: without a handler for its agent, and without an agent, a task cannot
    fail: [execute_task_async] returns the default result, the task is
    completed with it and its id joins the completed set. *)
Theorem execute_without_callback (task : ref) (o : Orchestrator) :
  match assigned_agent (heap o task) with
  | Some a => agent_callbacks o a = None
  | None => True
  end ->
  let o' := snd (execute_task_async task o) in
  fst (execute_task_async task o) = Return default_result
  /\ status (heap o' task) = "completed"
  /\ result (heap o' task) = Some default_result
  /\ completed_tasks o' = {[ id (heap o task) ]} ∪ completed_tasks o.
Proof.
  intros H. cbv zeta.
  destruct (execute_task_async_return task o default_result
              (awaited_outcome_default task o H)) as (H1 & H2 & _ & H4 & _).
  cbv zeta in *. rewrite H1, H2, H4. repeat split; reflexivity.
Qed.

Lemma execute_without_callback_witness :
  fst (execute_task_async 0 orchestrator_ab) = Return default_result.
Proof.
  refine (proj1 (execute_without_callback 0 orchestrator_ab _)).
  vm_compute. reflexivity.
Defined.

(** ** Durations and the interaction log *)

Section ExecuteLog.
Variables (task : ref) (o : Orchestrator).

Ltac execute_frame :=
  unfold execute_task_async_enter, execute_task_async_resume,
    _log_interaction, _save_interaction_log;
  run_ops; proj; rewrite ?fn_lookup_insert; proj;
  repeat match goal with
  | |- context [match ?c with Some _ => _ | None => _ end] => destruct c
  end; proj;
  try match goal with
  | |- context [if learning_enabled o then _ else _] =>
      let E := fresh "E" in
      destruct (learning_enabled o) eqn:E; proj; rewrite ?E
  end; proj; rewrite ?fn_lookup_insert; proj; try reflexivity.

Lemma enter_interaction_log :
  interaction_log (snd (execute_task_async_enter task o)) = interaction_log o
  /\ log_file (snd (execute_task_async_enter task o)) = log_file o
  /\ utcnow (snd (execute_task_async_enter task o)) = utcnow o.
Proof. repeat split; execute_frame. Qed.

Lemma resume_raise_interaction_log (e : string) :
  interaction_log (snd (execute_task_async_resume task (Raise e) o))
  = interaction_log o
  /\ log_file (snd (execute_task_async_resume task (Raise e) o)) = log_file o
  /\ ticks (snd (execute_task_async_resume task (Raise e) o)) = ticks o.
Proof. repeat split; execute_frame. Qed.

Lemma resume_return_interaction_log (r : dict) :
  let o' := snd (execute_task_async_resume task (Return r) o) in
  let t := heap o task in
  if learning_enabled o then
    interaction_log o'
    = (interaction_log o ++
       [{| i_timestamp := utcnow o (S (ticks o));
           i_task_id := id t;
           i_task_type := type t;
           i_description := description t;
           i_agent := agent_value <$> assigned_agent t;
           i_status := "completed";
           i_duration :=
             (fun start => (utcnow o (ticks o) - start)%Z) <$> started_at t;
           i_success := true |}])%list
    /\ log_file o' = interaction_log o'
    /\ ticks o' = S (S (ticks o))
  else
    interaction_log o' = interaction_log o
    /\ log_file o' = log_file o
    /\ ticks o' = S (ticks o).
Proof.
  cbv zeta. unfold execute_task_async_resume, _log_interaction,
    _save_interaction_log. run_ops. proj.
  destruct (learning_enabled o) eqn:E; proj; rewrite ?E; proj;
    rewrite ?fn_lookup_insert; proj; [|repeat split; reflexivity].
  unfold _calculate_duration. proj.
  destruct (started_at (heap o task)); repeat split; reflexivity.
Qed.
End ExecuteLog.

(** X10: after [execute_task_async] the duration of the task,
    [_calculate_duration], is the difference of the two clock readings of
    this execution when the handler returned.  When the handler raised,
    [completed_at] is not written: the duration is undefined for a task that
    was never completed, and is counted from the new start to the old
    completion otherwise. *)
Theorem execute_task_async_duration (task : ref) (o : Orchestrator) :
  let o' := snd (execute_task_async task o) in
  let start := utcnow o (ticks o) in
  _calculate_duration (heap o' task)
  = match awaited_outcome task o with
    | Return _ => Some (utcnow o (S (ticks o)) - start)%Z
    | Raise _ =>
        (fun end_ => (end_ - start)%Z) <$> completed_at (heap o task)
    end.
Proof.
  cbv zeta. destruct (awaited_outcome task o) as [r|e] eqn:E.
  - destruct (execute_task_async_return task o r E) as (_ & H2 & _).
    cbv zeta in H2. rewrite H2. reflexivity.
  - destruct (execute_task_async_raise task o e E) as (_ & H2 & _).
    cbv zeta in H2. rewrite H2. unfold _calculate_duration. proj.
    destruct (completed_at (heap o task)); reflexivity.
Qed.

(** X11: with learning enabled, an execution whose handler returns appends one
    interaction to the interaction log: the task's id, type, description and
    agent, status completed, success, the duration of this execution, and
    the third clock reading as its time; the log file then holds the whole
    interaction log.  With learning disabled, and whenever the handler
    raises, the interaction log and the file are left as they were: failed
    executions are not recorded. *)
Theorem execute_task_async_interaction_log (task : ref) (o : Orchestrator) :
  let o' := snd (execute_task_async task o) in
  let t := heap o task in
  match awaited_outcome task o with
  | Return _ =>
      if learning_enabled o then
        interaction_log o'
        = (interaction_log o ++
           [{| i_timestamp := utcnow o (S (S (ticks o)));
               i_task_id := id t;
               i_task_type := type t;
               i_description := description t;
               i_agent := agent_value <$> assigned_agent t;
               i_status := "completed";
               i_duration :=
                 Some (utcnow o (S (ticks o)) - utcnow o (ticks o))%Z;
               i_success := true |}])%list
        /\ log_file o' = interaction_log o'
      else interaction_log o' = interaction_log o /\ log_file o' = log_file o
  | Raise _ => interaction_log o' = interaction_log o /\ log_file o' = log_file o
  end.
Proof.
  cbv zeta. rewrite execute_task_async_eq.
  destruct (enter_interaction_log task o) as (Hi & Hl & Hu).
  pose proof (enter_heap_task task o) as Hh.
  pose proof (enter_ticks task o) as Ht.
  pose proof (enter_learning_enabled task o) as He.
  set (o1 := snd (execute_task_async_enter task o)) in *.
  destruct (awaited_outcome task o) as [r|e].
  - pose proof (resume_return_interaction_log task o1 r) as H.
    cbv zeta in H. rewrite He in H.
    destruct (learning_enabled o).
    + destruct H as (H1 & H2 & _). split; [|exact H2].
      rewrite H1, Hi, Hh, Hu, Ht. reflexivity.
    + destruct H as (H1 & H2 & _). rewrite H1, H2, Hi, Hl. split; reflexivity.
  - destruct (resume_raise_interaction_log task o1 e) as (H1 & H2 & _).
    rewrite H1, H2, Hi, Hl. split; reflexivity.
Qed.

(** ** The message queue *)

(** What handling one message leaves alone. *)
Lemma handled_frame (message : AgentMessage) (o : Orchestrator) :
  let o' := snd (handled message o) in
  fst (handled message o) = Return tt
  /\ message_queue o' = message_queue o
  /\ completed_tasks o' = completed_tasks o
  /\ agent_callbacks o' = agent_callbacks o
  /\ history o' = history o
  /\ utcnow o' = utcnow o
  /\ ticks o' = ticks o
  /\ next_ref o' = next_ref o
  /\ active_tasks o' = active_tasks o
  /\ (message_type message <> HANDOFF -> heap o' = heap o).
Proof.
  unfold handled, _handle_handoff, _handle_query. cbv zeta.
  destruct (message_type message);
    try (run_ops; proj; repeat split; reflexivity).
  destruct (negb _ || negb _).
  - run_ops; proj; repeat split; try reflexivity; try congruence.
  - run_ops. proj. destruct (active_tasks o !! _); proj;
      repeat split; try reflexivity; try congruence.
Qed.

Lemma process_loop_step (n : nat) (acc rest : list AgentMessage)
    (message : AgentMessage) (o : Orchestrator) :
  message_queue o = message :: rest ->
  process_loop (S n) acc o
  = process_loop n (acc ++ [message])
      (snd (handled message (with_message_queue rest o))).
Proof.
  intros Hq. simpl. unfold bind at 1. unfold gets at 1. rewrite Hq.
  unfold bind at 1. unfold modify at 1. unfold bind at 1.
  fold (handled message).
  destruct (handled_frame message (with_message_queue rest o)) as (H & _).
  destruct (handled message (with_message_queue rest o)) as [x o2].
  simpl in H. subst x. reflexivity.
Qed.

Lemma process_loop_empty (n : nat) (acc : list AgentMessage) (o : Orchestrator) :
  message_queue o = [] -> process_loop n acc o = (Return acc, o).
Proof.
  intros Hq. destruct n; [reflexivity|]. simpl. unfold bind, gets. rewrite Hq.
  reflexivity.
Qed.

Lemma process_loop_fifo (n : nat) :
  forall acc o,
    let o' := snd (process_loop n acc o) in
    fst (process_loop n acc o) = Return (acc ++ take n (message_queue o))%list
    /\ message_queue o' = drop n (message_queue o)
    /\ completed_tasks o' = completed_tasks o
    /\ agent_callbacks o' = agent_callbacks o
    /\ history o' = history o
    /\ active_tasks o' = active_tasks o
    /\ (Forall (fun m => message_type m <> HANDOFF) (take n (message_queue o)) ->
        heap o' = heap o).
Proof.
  induction n as [|n IH]; intros acc o; cbv zeta.
  - simpl. rewrite app_nil_r, drop_0. repeat split; reflexivity.
  - destruct (message_queue o) as [|message rest] eqn:Hq.
    + rewrite (process_loop_empty _ _ _ Hq). simpl. rewrite app_nil_r, Hq.
      repeat split; reflexivity.
    + rewrite (process_loop_step n acc rest message o Hq).
      destruct (handled_frame message (with_message_queue rest o))
        as (_ & Hm & Hc & Hcb & Hh & _ & _ & _ & Ha & Hheap).
      cbv zeta in *. proj.
      set (o1 := snd (handled message (with_message_queue rest o))) in *.
      destruct (IH (acc ++ [message])%list o1)
        as (I1 & I2 & I3 & I4 & I5 & I6 & I7).
      cbv zeta in *. rewrite I1, I2, I3, I4, I5, I6, Hm, Hc, Hcb, Hh, Ha.
      rewrite <- app_assoc. simpl.
      repeat split; try reflexivity.
      intros HF. apply Forall_cons in HF as [Hne HF].
      rewrite I7 by (rewrite Hm; exact HF). apply Hheap. exact Hne.
Qed.

Lemma process_messages_none (o : Orchestrator) :
  process_messages None o = process_loop (S (length (message_queue o))) [] o.
Proof. reflexivity. Qed.

(** X12: [process_messages] without a timeout takes every message that is in the
    queue, in the order in which they were sent, returns them in this order
    and leaves the queue empty.  It completes no task, registers no handler
    and writes no status; when no message of the queue is a handoff, no task
    object is changed. *)
Theorem process_messages_drains (o : Orchestrator) :
  let o' := snd (process_messages None o) in
  fst (process_messages None o) = Return (message_queue o)
  /\ message_queue o' = []
  /\ completed_tasks o' = completed_tasks o
  /\ agent_callbacks o' = agent_callbacks o
  /\ active_tasks o' = active_tasks o
  /\ history o' = history o
  /\ (Forall (fun m => message_type m <> HANDOFF) (message_queue o) ->
      heap o' = heap o).
Proof.
  cbv zeta. unfold process_messages, bind, gets.
  destruct (process_loop_fifo (S (length (message_queue o))) [] o)
    as (H1 & H2 & H3 & H4 & H5 & H6 & H7).
  cbv zeta in *.
  rewrite take_ge in H1, H7 by lia. rewrite drop_ge in H2 by lia.
  rewrite H1, H2, H3, H4, H5, H6. repeat split; try reflexivity. exact H7.
Qed.

(** X13: a message that [send_message] builds carries the clock reading and the
    UUID of the call; it is put at the end of the queue, and the next
    [process_messages] delivers it after the messages that were waiting. *)
Theorem send_message_delivered (from_agent0 to_agent0 : AgentType)
    (message_type0 : MessageType) (content0 : dict) (o : Orchestrator) :
  let message :=
    {| from_agent := from_agent0; to_agent := to_agent0;
       message_type := message_type0; content := content0;
       timestamp := utcnow o (ticks o); message_id := uuid4 o (draws o) |} in
  let o1 := snd (send_message from_agent0 to_agent0 message_type0 content0 o) in
  fst (send_message from_agent0 to_agent0 message_type0 content0 o)
  = Return message
  /\ message_queue o1 = (message_queue o ++ [message])%list
  /\ heap o1 = heap o
  /\ active_tasks o1 = active_tasks o
  /\ completed_tasks o1 = completed_tasks o
  /\ fst (process_messages None o1) = Return (message_queue o ++ [message])%list.
Proof.
  cbv zeta. rewrite process_messages_none.
  destruct (process_loop_fifo
    (S (length (message_queue
       (snd (send_message from_agent0 to_agent0 message_type0 content0 o))))) []
    (snd (send_message from_agent0 to_agent0 message_type0 content0 o)))
    as (H & _).
  rewrite take_ge in H by lia. rewrite H.
  unfold send_message. run_ops. proj. repeat split; reflexivity.
Qed.

Lemma hand_over_fold (ms : list AgentMessage) :
  forall t,
    messages (fold_left hand_over ms t) = (messages t ++ ms)%list
    /\ assigned_agent (fold_left hand_over ms t)
       = match last ms with
         | Some m => Some (to_agent m)
         | None => assigned_agent t
         end
    /\ status (fold_left hand_over ms t) = status t
    /\ id (fold_left hand_over ms t) = id t
    /\ dependencies (fold_left hand_over ms t) = dependencies t
    /\ result (fold_left hand_over ms t) = result t.
Proof.
  induction ms as [|m ms IH]; intros t; simpl.
  - rewrite app_nil_r. repeat split; reflexivity.
  - destruct (IH (hand_over t m)) as (H1 & H2 & H3 & H4 & H5 & H6).
    rewrite H1, H2, H3, H4, H5, H6. unfold hand_over. proj.
    rewrite <- app_assoc. simpl.
    repeat split; try reflexivity.
    destruct ms as [|m' ms]; [reflexivity|]. simpl.
    destruct (last (m' :: ms)) eqn:E; [reflexivity|].
    apply last_None in E. discriminate.
Qed.

Lemma process_loop_handoffs (task_id : string) (r : ref) (n : nat) :
  task_id <> "" ->
  forall acc o,
    active_tasks o !! task_id = Some r ->
    Forall (hands_over task_id) (message_queue o) ->
    let o' := snd (process_loop n acc o) in
    heap o' r = fold_left hand_over (take n (message_queue o)) (heap o r)
    /\ (forall r', r' <> r -> heap o' r' = heap o r').
Proof.
  intros Hne. induction n as [|n IH]; intros acc o Hr HF; cbv zeta.
  - simpl. split; reflexivity.
  - destruct (message_queue o) as [|message rest] eqn:Hq.
    + rewrite (process_loop_empty _ _ _ Hq). simpl. split; reflexivity.
    + rewrite (process_loop_step n acc rest message o Hq).
      apply Forall_cons in HF as [[Hty Hc] HF].
      destruct (handled_frame message (with_message_queue rest o))
        as (_ & Hm & _ & _ & _ & _ & _ & _ & Ha & _).
      unfold handled in *. rewrite Hty in *.
      destruct (handoff_active message (with_message_queue rest o) task_id r
                  Hc Hne Hr) as (_ & H2 & H3 & _).
      cbv zeta in *. proj.
      set (o1 := snd (_handle_handoff message (with_message_queue rest o))) in *.
      destruct (IH (acc ++ [message])%list o1) as (I1 & I2).
      { rewrite Ha. exact Hr. }
      { rewrite Hm. exact HF. }
      cbv zeta in *. rewrite I1, Hm, H2. simpl. split; [reflexivity|].
      intros r' Hr'. rewrite I2, H3 by exact Hr'. reflexivity.
Qed.

(** X14: handoffs of one active task, its id not the empty string, that wait
    in the queue are all applied by
    [process_messages], in the order of the queue: the task ends with the
    receiving agent of the last one, each of the messages is appended to its
    message list, and its status and every other task are as before.  The
    sending agent is not compared with the agent that holds the task.  A
    following [execute_task_async] runs the handler of the last receiving
    agent. *)
Theorem handoffs_accumulate (task_id : string) (r : ref) (o : Orchestrator) :
  task_id <> "" ->
  active_tasks o !! task_id = Some r ->
  Forall (hands_over task_id) (message_queue o) ->
  let o' := snd (process_messages None o) in
  messages (heap o' r) = (messages (heap o r) ++ message_queue o)%list
  /\ assigned_agent (heap o' r)
     = match last (message_queue o) with
       | Some m => Some (to_agent m)
       | None => assigned_agent (heap o r)
       end
  /\ status (heap o' r) = status (heap o r)
  /\ (forall r', r' <> r -> heap o' r' = heap o r')
  /\ (forall m cb,
        last (message_queue o) = Some m ->
        agent_callbacks o (to_agent m) = Some cb ->
        awaited_outcome r o'
        = cb (set_started_at (Some (utcnow o' (ticks o')))
                (set_status "in_progress" (heap o' r)))).
Proof.
  intros Hne Hr HF. cbv zeta.
  rewrite process_messages_none.
  destruct (process_loop_fifo (S (length (message_queue o))) [] o)
    as (_ & _ & _ & Hcb & _).
  cbv zeta in Hcb.
  destruct (process_loop_handoffs task_id r (S (length (message_queue o))) Hne
              [] o Hr HF) as (H1 & H2).
  cbv zeta in *. rewrite take_ge in H1 by lia.
  destruct (hand_over_fold (message_queue o) (heap o r)) as (F1 & F2 & F3 & _).
  set (o' := snd (process_loop _ _ _)) in *.
  rewrite H1, F1, F2, F3.
  split; [reflexivity|]. split; [reflexivity|]. split; [reflexivity|].
  split; [exact H2|].
  intros m cb Hl Hc. rewrite <- H1.
  apply (awaited_outcome_callback r o' (to_agent m) cb).
  - rewrite H1, F2, Hl. reflexivity.
  - rewrite Hcb. exact Hc.
Qed.

(** ** Batches that cannot finish *)

Lemma not_done_not_gathered (cs : list phase) (i : nat) :
  cs !! i = Some Waiting \/ cs !! i = Some Holding -> gathered cs = None.
Proof.
  intros H. destruct (gathered cs) as [raw|] eqn:Hg; [|reflexivity].
  pose proof (gathered_lookup _ _ i Hg) as E.
  destruct (raw !! i); simpl in E; destruct H as [H | H]; congruence.
Qed.

Lemma waits_for_step (tasks : list ref) (o : Orchestrator) (i : nat)
    (t : ref) (d : string) (b b' : Batch) (j : nat) :
  tasks !! i = Some t ->
  In d (dependencies (heap o t)) ->
  (forall k task, tasks !! k = Some task -> id (heap o task) = d -> k = i) ->
  waits_for o i d b -> step tasks j b = Some b' ->
  waits_for o i d b'.
Proof.
  intros Hi Hd Huniq (Hids & Hnot & Hph) Hstep.
  destruct (step_frame tasks j b b' Hstep) as (Fids & _).
  assert (Hids' : same_ids o b').
  { intros r. destruct (Fids r) as [E1 E2]. rewrite E1, E2. apply Hids. }
  split; [exact Hids'|].
  apply step_inv in Hstep.
  destruct Hstep as [task Ht Hc Hsem Ho Hcs | task Ht Hc Hcan -> | task Ht Hc Hcan Ho Hsem Hcs
                    | task aw Ht Hc Ho Hsem Hcs].
  - rewrite Ho, Hcs. split; [exact Hnot|].
    destruct (decide (j = i)) as [->|Hne].
    + right. apply list_lookup_insert_eq. apply lookup_lt_Some in Hc. exact Hc.
    + rewrite list_lookup_insert_ne by exact Hne. exact Hph.
  - split; assumption.
  - assert (Hne : j <> i).
    { intros ->. rewrite Hi in Ht. injection Ht as <-.
      apply can_start_spec with (d := d) in Hcan; [contradiction|].
      destruct (Hids t) as [_ E]. rewrite E. exact Hd. }
    rewrite Ho, Hcs, enter_completed_tasks. split; [exact Hnot|].
    rewrite list_lookup_insert_ne by exact Hne. exact Hph.
  - assert (Hne : j <> i) by (intros ->; destruct Hph as [H | H]; congruence).
    rewrite Ho, Hcs. split.
    + destruct aw as [r|e].
      * rewrite resume_return_completed_tasks.
        intros Hin. apply elem_of_union in Hin as [Hin | Hin]; [|contradiction].
        apply elem_of_singleton in Hin.
        apply Hne. apply (Huniq j task Ht).
        destruct (Hids task) as [E _]. rewrite <- E. symmetry. exact Hin.
      * rewrite resume_raise_completed_tasks. exact Hnot.
    + rewrite list_lookup_insert_ne by exact Hne. exact Hph.
Qed.

(** X15: a batch with a task one of whose dependencies is not in the completed
    set and is the id of no other task of the batch does not finish:
    under every schedule the coroutine of this task stays before the call of
    its handler, and [execute_parallel] never has the results to return.
    This is so for a dependency on a task outside the batch, on a task that
    does not exist, and on the task itself. *)
Theorem unmet_dependency_blocks (tasks : list ref) (o : Orchestrator)
    (i : nat) (t : ref) (d : string) :
  orchestration_enabled o = true ->
  tasks !! i = Some t ->
  In d (dependencies (heap o t)) ->
  d ∉ completed_tasks o ->
  (forall k task, tasks !! k = Some task -> id (heap o task) = d -> k = i) ->
  forall schedule,
    execute_parallel schedule tasks o = None
    /\ (coros (run tasks schedule (start_batch tasks o)) !! i = Some Waiting
        \/ coros (run tasks schedule (start_batch tasks o)) !! i = Some Holding).
Proof.
  intros Hen Hi Hd Hnot Huniq schedule.
  assert (H : waits_for o i d (run tasks schedule (start_batch tasks o))).
  { apply run_invariant.
    - intros b j b' Hb Hs. exact (waits_for_step tasks o i t d b b' j Hi Hd Huniq Hb Hs).
    - split; [intros r; split; reflexivity|]. split; [exact Hnot|].
      left. simpl. apply lookup_replicate. split; [reflexivity|].
      apply lookup_lt_Some in Hi. exact Hi. }
  destruct H as (_ & _ & Hph). split; [|exact Hph].
  rewrite execute_parallel_enabled by exact Hen.
  rewrite (not_done_not_gathered _ i Hph). reflexivity.
Qed.

Lemma unmet_dependency_blocks_witness :
  execute_parallel [0; 0; 0] [1] orchestrator_ab = None.
Proof.
  refine (proj1 (unmet_dependency_blocks [1] orchestrator_ab 0 1 "a"
                   _ _ _ _ _ [0; 0; 0])).
  - reflexivity.
  - reflexivity.
  - vm_compute. left. reflexivity.
  - vm_compute. intros H. discriminate H.
  - intros [|k] task Hk Hid; [reflexivity|]. discriminate Hk.
Defined.

Lemma slots_blocked_step (tasks : list ref) (b b' : Batch) (j : nat) :
  slots_blocked tasks b -> step tasks j b = Some b' -> b' = b.
Proof.
  intros (Hsem & Hall) Hstep. apply step_inv in Hstep.
  destruct Hstep as [task Ht Hc Hs Ho Hcs | task Ht Hc Hcan -> | task Ht Hc Hcan Ho Hs Hcs
                    | task aw Ht Hc Ho Hs Hcs].
  - congruence.
  - reflexivity.
  - destruct (Hall j _ Hc) as [H | (_ & task' & Ht' & Hno)]; [discriminate|].
    congruence.
  - destruct (Hall j _ Hc) as [H | (H & _)]; discriminate.
Qed.

Lemma slots_blocked_run (tasks : list ref) (schedule : list nat) :
  forall b, slots_blocked tasks b -> run tasks schedule b = b.
Proof.
  unfold run. induction schedule as [|j schedule IH]; intros b Hb; simpl;
    [reflexivity|].
  destruct (step tasks j b) as [b'|] eqn:Hs; simpl.
  - rewrite (slots_blocked_step tasks b b' j Hb Hs). apply IH, Hb.
  - apply IH, Hb.
Qed.

(** X16: the slot is taken before the dependencies are looked at, and it is kept
    while the coroutine waits for them.  With one slot, when the coroutine
    that gets it first has a dependency that is not completed, nothing moves
    any more: the coroutine keeps the slot in its dependency loop and the
    others wait for it, also the one whose task is the missing dependency.
    [execute_parallel] does not return under any continuation of the
    schedule, and no task object is ever written. *)
Theorem slot_held_while_waiting (tasks : list ref) (o : Orchestrator)
    (i : nat) (t : ref) (d : string) :
  orchestration_enabled o = true ->
  max_parallel o = 1 ->
  tasks !! i = Some t ->
  In d (dependencies (heap o t)) ->
  d ∉ completed_tasks o ->
  forall schedule,
    execute_parallel (i :: schedule) tasks o = None
    /\ run tasks (i :: schedule) (start_batch tasks o)
       = {| orch := o; semaphore := 0;
            coros := <[i := Holding]> (replicate (length tasks) Waiting) |}.
Proof.
  intros Hen Hmax Hi Hd Hnot schedule.
  pose proof (lookup_lt_Some _ _ _ Hi) as Hlt.
  assert (Hrun : run tasks (i :: schedule) (start_batch tasks o)
                 = {| orch := o; semaphore := 0;
                      coros := <[i := Holding]> (replicate (length tasks) Waiting) |}).
  { change (i :: schedule) with ([i] ++ schedule)%list. rewrite run_app.
    assert (Hfirst : run tasks [i] (start_batch tasks o)
                     = {| orch := o; semaphore := 0;
                          coros := <[i := Holding]> (replicate (length tasks) Waiting) |}).
    { unfold run, step. simpl. rewrite Hi, Hmax.
      rewrite (proj2 (lookup_replicate (length tasks) Waiting Waiting i)
                 (conj eq_refl Hlt)).
      reflexivity. }
    rewrite Hfirst. apply slots_blocked_run. split; [reflexivity|].
    simpl. intros j p Hj.
    destruct (decide (j = i)) as [->|Hne].
    - rewrite list_lookup_insert_eq in Hj by (rewrite length_replicate; exact Hlt).
      injection Hj as <-. right. split; [reflexivity|].
      exists t. split; [exact Hi|].
      destruct (can_start (heap o t) (completed_tasks o)) eqn:Hcan; [|reflexivity].
      apply can_start_spec with (d := d) in Hcan; [contradiction|exact Hd].
    - rewrite list_lookup_insert_ne in Hj by auto.
      apply lookup_replicate in Hj as [-> _]. left. reflexivity. }
  split; [|exact Hrun].
  rewrite execute_parallel_enabled by exact Hen. rewrite Hrun. simpl.
  rewrite (not_done_not_gathered _ i); [reflexivity|].
  right. apply list_lookup_insert_eq. rewrite length_replicate. exact Hlt.
Qed.

Lemma slot_held_while_waiting_witness :
  execute_parallel [0; 1; 0; 1; 1; 0] [1; 0] orchestrator_single = None.
Proof.
  refine (proj1 (slot_held_while_waiting [1; 0] orchestrator_single 0 1 "a"
                   _ _ _ _ _ [1; 0; 1; 1; 0])).
  - reflexivity.
  - reflexivity.
  - reflexivity.
  - vm_compute. left. reflexivity.
  - vm_compute. intros H. discriminate H.
Defined.

(** ** The task objects of a batch *)

Lemma task_state_frame (o o1 o2 : Orchestrator) (task : ref) (p : phase) :
  heap o2 task = heap o1 task ->
  completed_tasks o1 ⊆ completed_tasks o2 ->
  task_state o o1 task p -> task_state o o2 task p.
Proof.
  intros Hh Hc. unfold task_state. rewrite Hh.
  destruct p as [| |aw|[r|e]]; auto.
  intros (H1 & H2 & H3). repeat split; auto.
Qed.

Lemma task_states_step (tasks : list ref) (o : Orchestrator) (b b' : Batch)
    (j : nat) :
  NoDup tasks ->
  task_states tasks o b -> step tasks j b = Some b' -> task_states tasks o b'.
Proof.
  intros Hnd (Hids & Hown & Hout) Hstep.
  destruct (step_frame tasks j b b' Hstep) as (Fids & Fsub & _).
  assert (Hids' : same_ids o b').
  { intros r. destruct (Fids r) as [E1 E2]. rewrite E1, E2. apply Hids. }
  split; [exact Hids'|].
  apply step_inv in Hstep.
  destruct Hstep as [task Ht Hc Hsem Ho Hcs | task Ht Hc Hcan -> | task Ht Hc Hcan Ho Hsem Hcs
                    | task aw Ht Hc Ho Hsem Hcs].
  - (* a slot is acquired *)
    rewrite Ho, Hcs. split; [|exact Hout].
    intros i task' p Hi Hp. destruct (decide (i = j)) as [->|Hne].
    + rewrite list_lookup_insert_eq in Hp by (apply lookup_lt_Some in Hc; exact Hc).
      injection Hp as <-. exact (Hown j task' Waiting Hi Hc).
    + rewrite list_lookup_insert_ne in Hp by auto. exact (Hown i task' p Hi Hp).
  - split; assumption.
  - (* the handler is called *)
    rewrite Ho, Hcs. split.
    + intros i task' p Hi Hp. destruct (decide (i = j)) as [->|Hne].
      * rewrite list_lookup_insert_eq in Hp by (apply lookup_lt_Some in Hc; exact Hc).
        injection Hp as <-. rewrite Ht in Hi. injection Hi as <-.
        pose proof (Hown j task Holding Ht Hc) as Hold.
        unfold task_state in *. rewrite enter_heap_task. proj.
        rewrite Hold. split; reflexivity.
      * rewrite list_lookup_insert_ne in Hp by auto.
        assert (Hr : task' <> task).
        { intros ->. apply Hne. exact (NoDup_lookup _ _ _ _ Hnd Hi Ht). }
        apply (task_state_frame o (orch b)).
        -- apply enter_heap_other. exact Hr.
        -- rewrite enter_completed_tasks. reflexivity.
        -- exact (Hown i task' p Hi Hp).
    + intros r Hr. rewrite enter_heap_other; [apply Hout, Hr|].
      intros ->. apply Hr. apply (list_elem_of_lookup_2 _ _ _ Ht).
  - (* the handler has finished *)
    rewrite Ho, Hcs. split.
    + intros i task' p Hi Hp. destruct (decide (i = j)) as [->|Hne].
      * rewrite list_lookup_insert_eq in Hp by (apply lookup_lt_Some in Hc; exact Hc).
        injection Hp as <-. rewrite Ht in Hi. injection Hi as <-.
        destruct aw as [r|e].
        -- rewrite resume_return_outcome. unfold task_state.
           rewrite resume_return_heap_task, resume_return_completed_tasks. proj.
           repeat split; try reflexivity.
           apply elem_of_union_l, elem_of_singleton.
           destruct (Hids task) as [E _]. symmetry. exact E.
        -- rewrite resume_raise_outcome. unfold task_state.
           rewrite resume_raise_heap_task. proj. split; reflexivity.
      * rewrite list_lookup_insert_ne in Hp by auto.
        assert (Hr : task' <> task).
        { intros ->. apply Hne. exact (NoDup_lookup _ _ _ _ Hnd Hi Ht). }
        apply (task_state_frame o (orch b)).
        -- destruct aw; [apply resume_return_heap_other | apply resume_raise_heap_other];
             exact Hr.
        -- rewrite <- Ho. exact Fsub.
        -- exact (Hown i task' p Hi Hp).
    + intros r Hr.
      assert (Hne : r <> task).
      { intros ->. apply Hr. apply (list_elem_of_lookup_2 _ _ _ Ht). }
      destruct aw; [rewrite resume_return_heap_other by exact Hne
                   | rewrite resume_raise_heap_other by exact Hne];
        apply Hout, Hr.
Qed.

Lemma collect_frame (raw : list (outcome dict)) :
  forall acc o,
    heap (snd (collect raw acc o)) = heap o
    /\ completed_tasks (snd (collect raw acc o)) = completed_tasks o
    /\ active_tasks (snd (collect raw acc o)) = active_tasks o.
Proof.
  induction raw as [|[d|e] raw IH]; intros acc o; simpl.
  - repeat split; reflexivity.
  - apply IH.
  - unfold bind, logger, modify.
    destruct (IH (acc ++ [{[ "error" := PyStr e; "status" := PyStr "failed" ]}])%list
                (with_logs (logs o ++ [(LogError, ("Task execution failed: " ++ e)%string)]) o))
      as (H1 & H2 & H3).
    rewrite H1, H2, H3. repeat split; reflexivity.
Qed.

(** X17: in a batch of distinct task objects each object is written by the
    coroutine of its task only, whatever the schedule.  Until the handler of
    a task is called its object is as it was when the batch started; while
    the handler runs its status is "in_progress"; once the coroutine has
    returned [r] the status is "completed", the result is [r] and the id is
    in the completed set; once it has raised [e] the status is "failed" and
    the result is the error.  Objects outside the batch are not written.
    When [execute_parallel] returns, the entry of each task in the list of
    results is the result stored in the task, or the failure descriptor of
    the error stored in it. *)
Theorem batch_task_states (tasks : list ref) (o : Orchestrator) :
  NoDup tasks ->
  forall schedule,
    let b := run tasks schedule (start_batch tasks o) in
    (forall i task p,
       tasks !! i = Some task -> coros b !! i = Some p ->
       task_state o (orch b) task p)
    /\ (forall r, r ∉ tasks -> heap (orch b) r = heap o r)
    /\ (orchestration_enabled o = true ->
        forall results o',
          execute_parallel schedule tasks o = Some (Return results, o') ->
          forall i task,
            tasks !! i = Some task ->
            exists x,
              results !! i = Some x
              /\ ((status (heap o' task) = "completed"
                   /\ result (heap o' task) = Some x
                   /\ id (heap o task) ∈ completed_tasks o')
                  \/ (exists e,
                        status (heap o' task) = "failed"
                        /\ result (heap o' task) = Some {[ "error" := PyStr e ]}
                        /\ x = {[ "error" := PyStr e; "status" := PyStr "failed" ]}))).
Proof.
  intros Hnd schedule. cbv zeta.
  assert (H : task_states tasks o (run tasks schedule (start_batch tasks o))).
  { apply run_invariant.
    - intros b j b' Hb Hs. exact (task_states_step tasks o b b' j Hnd Hb Hs).
    - split; [intros r; split; reflexivity|]. split; [|reflexivity].
      simpl. intros i task p _ Hp. apply lookup_replicate in Hp as [-> _].
      reflexivity. }
  destruct H as (_ & Hown & Hout).
  split; [exact Hown|]. split; [exact Hout|].
  intros Hen results o' Hex i task Hi.
  rewrite execute_parallel_enabled in Hex by exact Hen.
  set (b := run tasks schedule (start_batch tasks o)) in *.
  destruct (gathered (coros b)) as [raw|] eqn:Hg; [|discriminate].
  injection Hex as Hex.
  pose proof (collect_returns raw [] (orch b)) as Hres.
  destruct (collect_frame raw [] (orch b)) as (Hh & Hc & _).
  rewrite Hex in Hres, Hh, Hc. simpl in Hres, Hh, Hc.
  injection Hres as ->. rewrite Hh, Hc.
  pose proof (gathered_lookup _ _ i Hg) as Hl.
  assert (Hlen : i < length (coros b)).
  { destruct (batch_invariant_run tasks o schedule) as (_ & Hlen & _).
    fold b in Hlen. rewrite Hlen. apply lookup_lt_Some in Hi. exact Hi. }
  destruct (lookup_lt_is_Some_2 _ _ Hlen) as [p Hp].
  rewrite Hp in Hl. destruct (raw !! i) as [res|] eqn:Hr; [|discriminate].
  simpl in Hl. injection Hl as ->.
  pose proof (Hown i task (Done res) Hi Hp) as Hst.
  exists (final_item res). split.
  - rewrite list_lookup_fmap, Hr. reflexivity.
  - destruct res as [r|e]; simpl in Hst |- *.
    + left. exact Hst.
    + right. exists e. destruct Hst as (H1 & H2). repeat split; assumption.
Qed.

(** ** Decomposition and the batch of the subtasks *)

(** X18: the three subtasks of a feature are new objects that inherit the
    priority of the task and name it as their parent; they are pending, of
    the types "design", "implementation" and "testing", their descriptions
    are the description of the task under a prefix.  The active set gets
    their three ids and nothing else: the task itself is not entered.  No
    id is completed, no status is written, and of the objects that were
    there only the task is changed. *)
Theorem decompose_task_feature (task : ref) (o : Orchestrator) :
  type (heap o task) = "feature" ->
  let t := heap o task in
  let o' := snd (decompose_task task o) in
  let arch := next_ref o in
  let impl := S arch in
  let test := S impl in
  fst (decompose_task task o) = Return [arch; impl; test]
  /\ (task < arch ->
      heap o' task = set_subtasks [arch; impl; test] t
      /\ heap o' arch
         = set_metadata {[ "parent_task" := PyStr (id t) ]}
             (set_assigned_agent (Some LEAD_ARCHITECT)
                (new_task (id t ++ "-arch")
                   ("Design architecture for: " ++ description t)
                   "design" (priority t)))
      /\ heap o' impl
         = set_metadata {[ "parent_task" := PyStr (id t) ]}
             (set_dependencies [id t ++ "-arch"]
                (set_assigned_agent (Some BACKEND_MASTER)
                   (new_task (id t ++ "-impl") ("Implement: " ++ description t)
                      "implementation" (priority t))))
      /\ heap o' test
         = set_metadata {[ "parent_task" := PyStr (id t) ]}
             (set_dependencies [id t ++ "-impl"]
                (set_assigned_agent (Some QA_SENTINEL)
                   (new_task (id t ++ "-test") ("Test: " ++ description t)
                      "testing" (priority t)))))
  /\ (forall r, r < arch -> r <> task -> heap o' r = heap o r)
  /\ dom (active_tasks o')
     = dom (active_tasks o)
       ∪ {[ id t ++ "-arch"; id t ++ "-impl"; id t ++ "-test" ]}
  /\ (forall k, k <> id t ++ "-arch" -> k <> id t ++ "-impl" ->
                k <> id t ++ "-test" ->
                active_tasks o' !! k = active_tasks o !! k)
  /\ completed_tasks o' = completed_tasks o
  /\ history o' = history o
  /\ agent_callbacks o' = agent_callbacks o
  /\ max_parallel o' = max_parallel o
  /\ orchestration_enabled o' = orchestration_enabled o.
Proof.
  intros Hty. cbv zeta. unfold decompose_task. run_ops. proj.
  rewrite Hty. cbn [String.eqb Ascii.eqb Bool.eqb]. proj.
  cbn [register_subtasks]. run_ops. proj.
  set (a := next_ref o).
  split; [reflexivity|]. split.
  { intros Hlt.
    repeat match goal with
    | |- context [(<[?k := ?v]> ?h) ?r] =>
        first [ rewrite (fn_lookup_insert h k v)
              | rewrite (fn_lookup_insert_ne h k r v) by lia ]
    end.
    proj. repeat split; reflexivity. }
  split.
  { intros r Hr Hne.
    repeat match goal with
    | |- context [(<[?k := ?v]> ?h) ?r] =>
        first [ rewrite (fn_lookup_insert h k v)
              | rewrite (fn_lookup_insert_ne h k r v) by (lia || auto) ]
    end.
    reflexivity. }
  assert (Hids :
    forall l h,
      id ((<[task := set_subtasks l (h task)]> h) a) = id (h a)
      /\ id ((<[task := set_subtasks l (h task)]> h) (S a)) = id (h (S a))
      /\ id ((<[task := set_subtasks l (h task)]> h) (S (S a))) = id (h (S (S a)))).
  { intros l h. repeat split; apply set_subtasks_frame. }
  match goal with
  | |- context [<[task := set_subtasks ?l (?h task)]> ?h] =>
      destruct (Hids l h) as (Ia & Ib & Ic); rewrite ?Ia, ?Ib, ?Ic;
      clear Ia Ib Ic
  end.
  repeat match goal with
  | |- context [(<[?k := ?v]> ?h) ?r] =>
      first [ rewrite (fn_lookup_insert h k v)
            | rewrite (fn_lookup_insert_ne h k r v) by lia ]
  end.
  proj. split.
  { rewrite !dom_insert_L. clear. apply set_eq. intros k.
    rewrite !elem_of_union, !elem_of_singleton. tauto. }
  split.
  { intros k H1 H2 H3. rewrite !lookup_insert_ne by auto. reflexivity. }
  repeat split; reflexivity.
Qed.

Lemma decompose_task_feature_witness :
  fst (decompose_task 0 orchestrator_ab) = Return [2; 3; 4].
Proof.
  refine (proj1 (decompose_task_feature 0 orchestrator_ab _)).
  reflexivity.
Defined.

Lemma decompose_task_refs (task : ref) (o : Orchestrator) :
  type (heap o task) = "feature" ->
  let t := heap o task in
  let o' := snd (decompose_task task o) in
  let arch := next_ref o in
  fst (decompose_task task o) = Return [arch; S arch; S (S arch)]
  /\ id (heap o' arch) = id t ++ "-arch"
  /\ id (heap o' (S arch)) = id t ++ "-impl"
  /\ id (heap o' (S (S arch))) = id t ++ "-test"
  /\ dependencies (heap o' (S arch)) = [id t ++ "-arch"]
  /\ dependencies (heap o' (S (S arch))) = [id t ++ "-impl"]
  /\ completed_tasks o' = completed_tasks o.
Proof.
  intros Hty. cbv zeta. unfold decompose_task. run_ops. proj.
  rewrite Hty. cbn [String.eqb Ascii.eqb Bool.eqb]. proj.
  cbn [register_subtasks]. run_ops. proj.
  set (a := next_ref o).
  match goal with
  | |- context [<[task := set_subtasks ?l (?h task)]> ?h] =>
      destruct (set_subtasks_frame h task a l) as (Ia & _ & _);
      destruct (set_subtasks_frame h task (S a) l) as (Ib & Db & _);
      destruct (set_subtasks_frame h task (S (S a)) l) as (Ic & Dc & _);
      rewrite ?Ia, ?Ib, ?Db, ?Ic, ?Dc;
      clear Ia Ib Db Ic Dc
  end.
  repeat match goal with
  | |- context [(<[?k := ?v]> ?h) ?r] =>
      first [ rewrite (fn_lookup_insert h k v)
            | rewrite (fn_lookup_insert_ne h k r v) by lia ]
  end.
  proj. repeat split; reflexivity.
Qed.

(** X19: the subtasks of a decomposed feature run as a pipeline, provided
    that the ids of the first two are not in the completed set already (as
    they are once the same feature has been decomposed and run before).  In
    the batch of the three, under every schedule and whatever the number of
    slots, the handler of the implementation task is then not called before
    the coroutine of the architecture task has returned normally, and the
    handler of the testing task not before that of the implementation task
    has. *)
Theorem decomposed_pipeline (task : ref) (o : Orchestrator)
    (tasks : list ref) :
  type (heap o task) = "feature" ->
  id (heap o task) ++ "-arch" ∉ completed_tasks o ->
  id (heap o task) ++ "-impl" ∉ completed_tasks o ->
  fst (decompose_task task o) = Return tasks ->
  forall schedule,
    let b := run tasks schedule (start_batch tasks (snd (decompose_task task o))) in
    (forall p, coros b !! 1 = Some p -> is_started p = true ->
       exists r, coros b !! 0 = Some (Done (Return r)))
    /\ (forall p, coros b !! 2 = Some p -> is_started p = true ->
          exists r, coros b !! 1 = Some (Done (Return r))).
Proof.
  intros Hty Harch Himpl Hret schedule. cbv zeta.
  destruct (decompose_task_refs task o Hty)
    as (Hret' & Ha & Hi & Ht & Di & Dt & Hcomp).
  cbv zeta in *. rewrite Hret' in Hret. injection Hret as <-.
  set (o' := snd (decompose_task task o)) in *.
  set (a := next_ref o) in *.
  destruct (gate_invariant_run [a; S a; S (S a)] o' schedule)
    as (_ & _ & Hgate & Hby).
  set (b := run _ schedule _) in *.
  assert (Hj : forall j t0 d,
            [a; S a; S (S a)] !! j = Some t0 -> id (heap o' t0) = d ->
            (j = 0 /\ d = id (heap o task) ++ "-arch")
            \/ (j = 1 /\ d = id (heap o task) ++ "-impl")
            \/ (j = 2 /\ d = id (heap o task) ++ "-test")).
  { intros [|[|[|j]]] t0 d Hl Hd; simpl in Hl; try discriminate;
      injection Hl as <-; rewrite ?Ha, ?Hi, ?Ht in Hd; proj; auto. }
  split.
  - intros p Hp Hs.
    assert (Hin : id (heap o task) ++ "-arch" ∈ completed_tasks (orch b)).
    { apply (Hgate 1 (S a) p eq_refl Hp Hs). rewrite Di. left. reflexivity. }
    apply Hby in Hin as [Hin | (j & t0 & r & old & Hl & Hc & Hd & _)].
    + rewrite Hcomp in Hin. contradiction.
    + destruct (Hj j t0 _ Hl Hd) as [[-> _] | [[_ E] | [_ E]]].
      * exists r. exact Hc.
      * exfalso. exact (suffix_arch_impl _ E).
      * exfalso. exact (suffix_arch_test _ E).
  - intros p Hp Hs.
    assert (Hin : id (heap o task) ++ "-impl" ∈ completed_tasks (orch b)).
    { apply (Hgate 2 (S (S a)) p eq_refl Hp Hs). rewrite Dt. left. reflexivity. }
    apply Hby in Hin as [Hin | (j & t0 & r & old & Hl & Hc & Hd & _)].
    + rewrite Hcomp in Hin. contradiction.
    + destruct (Hj j t0 _ Hl Hd) as [[_ E] | [[-> _] | [_ E]]].
      * exfalso. symmetry in E. exact (suffix_arch_impl _ E).
      * exists r. exact Hc.
      * exfalso. exact (suffix_impl_test _ E).
Qed.

(** ** Orchestration disabled *)

Lemma awaited_outcome_no_callbacks (task : ref) (o : Orchestrator) :
  (forall a, agent_callbacks o a = None) ->
  awaited_outcome task o = Return default_result.
Proof.
  intros H. apply awaited_outcome_default.
  destruct (assigned_agent (heap o task)); [apply H | exact I].
Qed.

Lemma execute_sequentially_cons (task : ref) (rest : list ref)
    (results : list dict) (o : Orchestrator) :
  execute_sequentially (task :: rest) results o
  = match execute_task_async task o with
    | (Return r, o1) => execute_sequentially rest (results ++ [r])%list o1
    | (Raise e, o1) => (Raise e, o1)
    end.
Proof. reflexivity. Qed.

Lemma execute_sequentially_default (tasks : list ref) :
  forall results o,
    (forall a, agent_callbacks o a = None) ->
    let o' := snd (execute_sequentially tasks results o) in
    fst (execute_sequentially tasks results o)
    = Return (results ++ replicate (length tasks) default_result)%list
    /\ (forall r, status (heap o r) = "completed" \/ r ∈ tasks ->
                  status (heap o' r) = "completed")
    /\ (forall task, task ∈ tasks ->
          result (heap o' task) = Some default_result)
    /\ (forall r, r ∉ tasks -> heap o' r = heap o r).
Proof.
  induction tasks as [|task rest IH]; intros results o Hcb; cbv zeta.
  - simpl. rewrite app_nil_r. split; [reflexivity|]. split.
    + intros r [H | H]; [exact H|]. apply elem_of_nil in H. contradiction.
    + split; [|reflexivity]. intros t H. apply elem_of_nil in H. contradiction.
  - rewrite execute_sequentially_cons.
    destruct (execute_task_async_return task o default_result
                (awaited_outcome_no_callbacks task o Hcb))
      as (H1 & H2 & H3 & _ & _ & H6 & _).
    cbv zeta in *.
    destruct (execute_task_async task o) as [x o1]. simpl in H1, H2, H3, H6.
    subst x.
    destruct (IH (results ++ [default_result])%list o1) as (I1 & I2 & I3 & I4).
    { intros a. rewrite H6. apply Hcb. }
    cbv zeta in *. rewrite I1. rewrite <- app_assoc.
    split; [reflexivity|]. split; [|split].
    + intros r Hr. apply I2.
      destruct (decide (r = task)) as [->|Hne].
      * left. rewrite H2. reflexivity.
      * rewrite H3 by exact Hne. destruct Hr as [Hr | Hr]; [left; exact Hr|].
        apply elem_of_cons in Hr as [Hr | Hr]; [contradiction|right; exact Hr].
    + intros t Ht. destruct (decide (t ∈ rest)) as [Hin | Hout].
      * apply I3, Hin.
      * rewrite I4 by exact Hout.
        apply elem_of_cons in Ht as [-> | Ht]; [|contradiction].
        rewrite H2. reflexivity.
    + intros r Hr. apply not_elem_of_cons in Hr as [Hne Hr].
      rewrite I4 by exact Hr. apply H3, Hne.
Qed.

(** X20: with orchestration disabled the dependencies are not looked at.  When
    no handler is registered, [execute_parallel] returns the default result
    for every task of the batch, in any state of the completed set and
    whatever the tasks depend on, and leaves every task of the batch
    completed with this result; tasks outside the batch are not touched. *)
Theorem disabled_ignores_dependencies (tasks : list ref) (o : Orchestrator)
    (schedule : list nat) :
  orchestration_enabled o = false ->
  (forall a, agent_callbacks o a = None) ->
  exists o',
    execute_parallel schedule tasks o
    = Some (Return (replicate (length tasks) default_result), o')
    /\ (forall task, task ∈ tasks ->
          status (heap o' task) = "completed"
          /\ result (heap o' task) = Some default_result)
    /\ (forall r, r ∉ tasks -> heap o' r = heap o r).
Proof.
  intros Hoff Hcb. unfold execute_parallel. rewrite Hoff. cbn [negb].
  unfold bind at 1. unfold logger at 1. unfold modify at 1.
  set (o1 := with_logs _ o).
  destruct (execute_sequentially_default tasks [] o1 Hcb) as (H1 & H2 & H3 & H4).
  cbv zeta in *. simpl in H1.
  exists (snd (execute_sequentially tasks [] o1)).
  split; [rewrite <- H1, <- surjective_pairing; reflexivity|].
  split; [|exact H4].
  intros task Ht. split; [apply H2; right; exact Ht | apply H3, Ht].
Qed.

Lemma disabled_ignores_dependencies_witness :
  exists o',
    execute_parallel [] [1] orchestrator_sequential
    = Some (Return [default_result], o').
Proof.
  destruct (disabled_ignores_dependencies [1] orchestrator_sequential []
              eq_refl (fun _ => eq_refl)) as (o' & H & _).
  exists o'. exact H.
Defined.

(** ** The completed set *)

(** X21: [update_task_status] does not touch the completed set: a task that is
    marked "completed" through it is no completed dependency, and which tasks
    can start is the same before and after the call. *)
Theorem update_task_status_no_release (task_id s : string) (o : Orchestrator) :
  let o' := snd (update_task_status task_id s o) in
  completed_tasks o' = completed_tasks o
  /\ active_tasks o' = active_tasks o
  /\ (forall r, can_start (heap o' r) (completed_tasks o')
                = can_start (heap o r) (completed_tasks o))
  /\ (forall r, id (heap o' r) = id (heap o r)
                /\ result (heap o' r) = result (heap o r)
                /\ assigned_agent (heap o' r) = assigned_agent (heap o r)).
Proof.
  cbv zeta. unfold update_task_status. run_ops. proj.
  destruct (active_tasks o !! task_id) as [t|]; proj;
    [|repeat split; reflexivity].
  split; [reflexivity|]. split; [reflexivity|]. split.
  - intros r. destruct (decide (r = t)) as [->|Hne].
    + rewrite fn_lookup_insert. reflexivity.
    + rewrite fn_lookup_insert_ne by auto. reflexivity.
  - intros r. destruct (decide (r = t)) as [->|Hne].
    + rewrite fn_lookup_insert. repeat split; reflexivity.
    + rewrite fn_lookup_insert_ne by auto. repeat split; reflexivity.
Qed.

(** ** Keywords *)

Lemma lower_app (a b : string) :
  Str.lower (a ++ b) = Str.lower a ++ Str.lower b.
Proof. induction a as [|c a IH]; simpl; [reflexivity|]. rewrite IH. reflexivity. Qed.

Lemma startswith_app (kw post : string) : Str.startswith kw (kw ++ post) = true.
Proof.
  induction kw as [|c kw IH]; simpl; [reflexivity|].
  destruct (ascii_dec c c); [exact IH|contradiction].
Qed.

Lemma contains_app (kw pre post : string) :
  Str.contains kw (pre ++ kw ++ post) = true.
Proof.
  induction pre as [|c pre IH]; simpl.
  - destruct (kw ++ post) eqn:E; simpl; rewrite <- E, startswith_app; reflexivity.
  - rewrite IH. apply orb_true_r.
Qed.

Lemma any_in_app (kws : list string) (kw pre post : string) :
  In kw kws -> Str.any_in kws (pre ++ kw ++ post) = true.
Proof.
  intros H. unfold Str.any_in. apply existsb_exists. exists kw.
  split; [exact H | apply contains_app].
Qed.

(** X22: the keywords are looked for as substrings of the lower-cased
    description.  A keyword of the first rule, in any letter case, anywhere
    in the description, also inside a longer word, sends the task to the
    architect pool, whatever its type and whatever other keywords the
    description holds; nothing is logged and nothing else is changed. *)
Theorem assign_agent_substring (t : Task) (o : Orchestrator)
    (pre word post : string) :
  description t = pre ++ word ++ post ->
  In (Str.lower word) ["architect"; "design"; "pattern"; "structure"] ->
  assign_agent t o = (Return LEAD_ARCHITECT, o).
Proof.
  intros Hd Hin. unfold assign_agent. cbv zeta.
  rewrite Hd, !lower_app. rewrite (any_in_app _ _ _ _ Hin). reflexivity.
Qed.

Lemma assign_agent_substring_witness :
  assign_agent (new_task "t" "ReSTRUCTUREd tests of the API" "bugfix" "low")
    orchestrator0
  = (Return LEAD_ARCHITECT, orchestrator0).
Proof.
  apply (assign_agent_substring _ orchestrator0 "Re" "STRUCTURE" "d tests of the API").
  - reflexivity.
  - vm_compute. right. right. right. left. reflexivity.
Defined.

(** ** Instances *)

Lemma handoffs_accumulate_witness :
  assigned_agent
    (heap (snd (process_messages None orchestrator_handoffs)) 0)
  = Some BACKEND_MASTER
  /\ messages (heap (snd (process_messages None orchestrator_handoffs)) 0)
     = [handoff_known; handoff_back].
Proof.
  destruct (handoffs_accumulate "00000000" 0 orchestrator_handoffs)
    as (H1 & H2 & _).
  - discriminate.
  - reflexivity.
  - repeat constructor.
  - split; [exact H2 | exact H1].
Defined.

Lemma batch_task_states_witness :
  heap (orch (run [0; 1] [0; 0; 0; 1; 1; 1] (start_batch [0; 1] orchestrator_ab))) 2
  = heap orchestrator_ab 2.
Proof.
  refine (proj1 (proj2 (batch_task_states [0; 1] orchestrator_ab _
                          [0; 0; 0; 1; 1; 1])) 2 _).
  - apply (bool_decide_unpack _). vm_compute. exact I.
  - apply (bool_decide_unpack _). vm_compute. exact I.
Defined.

Lemma decomposed_pipeline_witness :
  exists r,
    coros (run [2; 3; 4] [0; 0; 0; 1; 1]
             (start_batch [2; 3; 4] (snd (decompose_task 0 orchestrator_ab))))
      !! 0
    = Some (Done (Return r)).
Proof.
  refine (proj1 (decomposed_pipeline 0 orchestrator_ab [2; 3; 4] _ _ _ _
                   [0; 0; 0; 1; 1])
            (Running (Return default_result)) _ _).
  - reflexivity.
  - vm_compute. intros H. discriminate H.
  - vm_compute. intros H. discriminate H.
  - reflexivity.
  - vm_compute. reflexivity.
  - reflexivity.
Defined.

(** ** From creation to completion *)

(** X23: a task that is created and then executed, no handler being registered
    for the agent the routing gives it, is completed with the default
    result and its id is in the completed set.  It is still in the active
    set: [list_tasks] shows it under "completed" and no longer under
    "pending". *)
Theorem task_lifecycle (description0 task_type priority0 : string)
    (metadata0 : dict) (o : Orchestrator) :
  let i := uuid4 o (draws o) in
  let t0 := set_metadata metadata0 (new_task i description0 task_type priority0) in
  agent_callbacks o (route t0) = None ->
  let task := next_ref o in
  let o1 := snd (create_task description0 task_type priority0 metadata0 o) in
  let o2 := snd (execute_task_async task o1) in
  fst (execute_task_async task o1) = Return default_result
  /\ status (heap o2 task) = "completed"
  /\ i ∈ completed_tasks o2
  /\ active_tasks o2 !! i = Some task
  /\ (forall values,
        (In task (list_tasks values (Some "completed") o2) <-> In task values)
        /\ ~ In task (list_tasks values (Some "pending") o2)).
Proof.
  cbv zeta. intros Hcb.
  destruct (create_task_state description0 task_type priority0 metadata0 o)
    as (_ & Hh & Ha & _ & _ & _ & _ & Hcbs & _).
  cbv zeta in *.
  set (o1 := snd (create_task description0 task_type priority0 metadata0 o)) in *.
  pose proof (Hh (next_ref o)) as Ht. rewrite fn_lookup_insert in Ht.
  assert (Haw : awaited_outcome (next_ref o) o1 = Return default_result).
  { apply awaited_outcome_default. rewrite Ht. proj. rewrite Hcbs. exact Hcb. }
  destruct (execute_task_async_return (next_ref o) o1 default_result Haw)
    as (H1 & H2 & _ & H4 & H5 & _).
  cbv zeta in *.
  set (o2 := snd (execute_task_async (next_ref o) o1)) in *.
  split; [exact H1|].
  assert (Hs : status (heap o2 (next_ref o)) = "completed")
    by (rewrite H2; reflexivity).
  split; [exact Hs|]. split.
  { rewrite H4, Ht. proj. apply elem_of_union_l, elem_of_singleton. reflexivity. }
  split.
  { rewrite H5, Ha. apply lookup_insert_eq. }
  intros values.
  assert (Hin : forall s,
            In (next_ref o) (list_tasks values (Some s) o2)
            <-> In (next_ref o) values
                /\ status_matches (Some s) o2 (next_ref o) = true).
  { intros s. rewrite list_tasks_filter, <- filter_In.
    split; apply Permutation_in; [|symmetry]; apply sorted_by_priority_perm. }
  split.
  - rewrite Hin. unfold status_matches. rewrite Hs. simpl. tauto.
  - rewrite Hin. unfold status_matches. rewrite Hs. simpl.
    intros [_ H]. discriminate H.
Qed.

Lemma task_lifecycle_witness :
  status
    (heap (snd (execute_task_async 0
                  (snd (create_task "Architecture task" "feature" "high" ∅
                          orchestrator0)))) 0)
  = "completed".
Proof.
  refine (proj1 (proj2 (task_lifecycle "Architecture task" "feature" "high" ∅
                          orchestrator0 _))).
  reflexivity.
Defined.
